(** * The hole-punch coordinator of go-libp2p (p2p/protocol/holepunch)

    A shallow embedding of [holePuncher] (holepuncher.go): the dedup
    admission [beginDirectConnect], [DirectConnect], the retry loop of
    [directConnect], the rendezvous exchange [initiateHolePunch] /
    [initiateHolePunchImpl], [Close] and the connection listener
    [netNotifiee.Connected].

    The Go methods are written as programs over the events they perform
    (field accesses of the receiver, mutex operations, calls into the
    collaborators).  The same program text gets two semantics: [run], one
    call on its own against the collaborators, and [exec], an interleaving
    of goroutines over one shared [holePuncher]. *)

From Stdlib Require Import ZArith String Lia.
From stdpp Require Import gmap strings list.

Open Scope Z_scope.

(** ** Data *)

(** [peer.ID] is a Go string. *)
Abbreviation peer_ID := string (only parsing).

(** [time.Time] as a reading of the clock and [time.Duration], both in
    nanoseconds. *)
Abbreviation Time := Z (only parsing).
Abbreviation Duration := Z (only parsing).

Abbreviation bytes := (list Byte.byte) (only parsing).

(** [const maxRetries = 3] *)
Definition maxRetries : Z := 3.

(** Modelled from the spec: the message kind of pb.HolePunch (package pb is
    not part of the sources): "kind: enumerated CONNECT, SYNC". *)
Inductive HolePunch_Type := HolePunch_CONNECT | HolePunch_SYNC.

(** Modelled from the spec: the rendezvous message, a kind and the "ordered
    sequence of address byte-encodings (absent for SYNC)". *)
Record HolePunch := mkHolePunch {
  msgType : HolePunch_Type;
  ObsAddrs : list bytes
}.

Definition HolePunch_Type_eqb (a b : HolePunch_Type) : bool :=
  match a, b with
  | HolePunch_CONNECT, HolePunch_CONNECT => true
  | HolePunch_SYNC, HolePunch_SYNC => true
  | _, _ => false
  end.

(** Go error values.  [errors_New msg] and [Errorf format args] keep the
    text and the arguments of the call that built them; [ErrClosed],
    [ErrHolePunchActive] and [context_Canceled] are the sentinel values;
    [foreign msg] is an error handed over by a collaborator. *)
Inductive error :=
| ErrClosed
| ErrHolePunchActive
| context_Canceled
| errors_New (msg : string)
| Errorf (format : string) (args : list fmtarg)
| foreign (msg : string)
with fmtarg :=
| APeer (p : peer_ID)
| AKind (t : HolePunch_Type)
| AErr (e : error)
| AInt (n : Z).

(** What an error message names: the arguments formatted into it. *)
Definition fmtargs (e : error) : list fmtarg :=
  match e with
  | Errorf _ args => args
  | _ => []
  end.

Definition is_APeer (p : peer_ID) (a : fmtarg) : bool :=
  match a with APeer q => String.eqb p q | _ => false end.

Definition is_AInt (n : Z) (a : fmtarg) : bool :=
  match a with AInt m => Z.eqb n m | _ => false end.

Definition names_peer (p : peer_ID) (e : error) : bool :=
  existsb (is_APeer p) (fmtargs e).

Definition names_count (n : Z) (e : error) : bool :=
  existsb (is_AInt n) (fmtargs e).

(** The two errors of the exchange that the spec calls NoPublicAddress. *)
Definition errNoLocalAddr : error :=
  errors_New "aborting hole punch initiation as we have no public address".

Definition errNoRemoteAddr : error :=
  errors_New "didn't receive any public addresses in CONNECT".

Definition is_NoPublicAddress (e : error) : bool :=
  match e with
  | errors_New msg =>
      String.eqb msg "aborting hole punch initiation as we have no public address"
      || String.eqb msg "didn't receive any public addresses in CONNECT"
  | _ => false
  end.

(** The error of a reply that is not a CONNECT (ProtocolError in the spec). *)
Definition errNotConnect (t : HolePunch_Type) : error :=
  Errorf "expect CONNECT message, got %s" [AKind t].

Inductive Direction := DirUnknown | DirInbound | DirOutbound.

Definition Direction_eqb (a b : Direction) : bool :=
  match a, b with
  | DirUnknown, DirUnknown | DirInbound, DirInbound | DirOutbound, DirOutbound => true
  | _, _ => false
  end.

(** The collaborators' pure helpers and the package constants that live in
    other files of the package: the address type [ma.Multiaddr],
    [isRelayAddress], [removeRelayAddrs], [addrsToBytes], [addrsFromBytes]
    (util.go), [manet.IsPublicAddr], and [Protocol], [ServiceName],
    [StreamTimeout], [maxMsgSize]. *)
Class AddrOps := {
  Multiaddr : Type;
  isRelayAddress : Multiaddr -> bool;
  IsPublicAddr : Multiaddr -> bool;
  removeRelayAddrs : list Multiaddr -> list Multiaddr;
  addrsToBytes : list Multiaddr -> list bytes;
  addrsFromBytes : list bytes -> list Multiaddr;
  Protocol : string;
  ServiceName : string;
  StreamTimeout : Duration;
  maxMsgSize : Z
}.

Section Model.
Context {maddr : AddrOps}.

(** [network.Conn], by what the coordinator reads of it. *)
Record Conn := mkConn {
  conn_Direction : Direction;          (* conn.Stat().Direction *)
  conn_RemoteMultiaddr : Multiaddr;    (* conn.RemoteMultiaddr() *)
  conn_RemotePeer : peer_ID            (* conn.RemotePeer() *)
}.

(** [network.Stream], by what the exchange reads of it. *)
Record Stream := mkStream {
  stream_id : nat;
  stream_RemotePeer : peer_ID          (* str.Conn().RemotePeer() *)
}.

(** [peer.AddrInfo] *)
Record AddrInfo := mkAddrInfo {
  ai_ID : peer_ID;
  ai_Addrs : list Multiaddr
}.

(** The [AddrFilter] interface; both methods are pure for the coordinator. *)
Record AddrFilter := mkAddrFilter {
  FilterLocal : peer_ID -> list Multiaddr -> list Multiaddr;
  FilterRemote : peer_ID -> list Multiaddr -> list Multiaddr
}.

(** The calls made on [hp.tracer]. *)
Inductive tracerCall :=
| DirectDialFailed (p : peer_ID) (dt : Duration) (err : error)
| DirectDialSuccessful (p : peer_ID) (dt : Duration)
| ProtocolError (p : peer_ID) (err : error)
| StartHolePunch (p : peer_ID) (addrs : list Multiaddr) (rtt : Duration)
| HolePunchAttempt (p : peer_ID)
| EndHolePunch (p : peer_ID) (dt : Duration) (err : option error)
| HolePunchFinished (side : string) (attemptNum : Z)
    (theirAddrs ourAddrs : list Multiaddr) (directConn : option Conn).

(** How a [select] between a channel and [hp.ctx.Done()] wakes up. *)
Inductive wake (A : Type) :=
| Received (a : A)     (* the other channel delivered [a] *)
| CtxDone.             (* case <-hp.ctx.Done() *)
Arguments Received {A} a.
Arguments CtxDone {A}.

(** ** Events *)

(** Calls into the collaborators (host, peerstore, streams, resource scope,
    clock, timers, tracer, identify).  The index is the type of the answer;
    [option error] is a Go [error] with [None] for nil. *)
Inductive extE : Type -> Type :=
| GetDirectConnection (p : peer_ID) : extE (option Conn)
| PeerstoreAddrs (p : peer_ID) : extE (list Multiaddr)
| Now : extE Time
| HostConnect (p : peer_ID) (timeout : Duration) : extE (option error)
| Trace (c : tracerCall) : extE unit
| NewStream (p : peer_ID) (proto : string) : extE (Stream + error)
| StreamClose (s : Stream) : extE unit
| StreamReset (s : Stream) : extE unit
| SetService (s : Stream) (svc : string) : extE (option error)
| ReserveMemory (s : Stream) (size : Z) : extE (option error)
| ReleaseMemory (s : Stream) (size : Z) : extE unit
| SetDeadline (s : Stream) (t : Time) : extE unit
| ListenAddrs : extE (list Multiaddr)
| WriteMsg (s : Stream) (m : HolePunch) : extE (option error)
| ReadMsg (s : Stream) : extE (HolePunch * option error)
| NewTimer (d : Duration) : extE unit
| TimerStop : extE unit
| TimerChan : extE (option Time)          (* has timer.C delivered, and what *)
| IdentifyWait (c : Conn) : extE bool     (* is the identify channel closed *)
| holePunchConnect (timeout : Duration) (pi : AddrInfo) (isClient : bool)
    : extE (option error).

(** What a goroutine does in one step: a collaborator call, an operation on
    a field of the receiver [hp], or one of the two [select]s. *)
Inductive event : Type -> Type :=
| Ext {X} (e : extE X) : event X
| closeMx_RLock : event unit
| closeMx_RUnlock : event unit
| closeMx_Lock : event unit
| closeMx_Unlock : event unit
| activeMx_Lock : event unit
| activeMx_Unlock : event unit
| LoadClosed : event bool                   (* hp.closed *)
| StoreClosed (b : bool) : event unit       (* hp.closed = b *)
| ActiveLookup (p : peer_ID) : event bool   (* _, ok := hp.active[p] *)
| ActiveStore (p : peer_ID) : event unit    (* hp.active[p] = struct{}{} *)
| ActiveDelete (p : peer_ID) : event unit   (* delete(hp.active, p) *)
| LoadLegacyBehavior : event bool           (* hp.legacyBehavior *)
| LoadDirectDialTimeout : event Duration    (* hp.directDialTimeout *)
| LoadFilter : event (option AddrFilter)    (* hp.filter, None for nil *)
| ctxCancel : event unit                    (* hp.ctxCancel() *)
| ctxErr : event (option error)             (* hp.ctx.Err() *)
| SelectTimer : event (wake Time)           (* select: timer.C, ctx.Done() *)
| SelectIdentify (c : Conn) : event (wake unit) (* select: IdentifyWait, ctx.Done() *)
| refCount_Add (n : nat) : event unit
| refCount_Done : event unit
| refCount_Wait : event unit.

(** ** Programs *)

(** A Go function body: return, perform an event and go on with its
    answer, or start a goroutine and go on. *)
Inductive prog (R : Type) : Type :=
| Ret (r : R)
| Vis {X} (e : event X) (k : X -> prog R)
| Go (task : prog unit) (k : prog R).
Arguments Ret {R} r.
Arguments Vis {R X} e k.
Arguments Go {R} task k.

Fixpoint bind {A B} (t : prog A) (f : A -> prog B) : prog B :=
  match t with
  | Ret r => f r
  | Vis e k => Vis e (fun x => bind (k x) f)
  | Go task k => Go task (bind k f)
  end.

Definition trigger {X} (e : event X) : prog X := Vis e Ret.
Definition call {X} (e : extE X) : prog X := trigger (Ext e).

(** [defer cleanup] around a body: the cleanup runs when the body returns,
    on each of its return paths, and the body's value is returned. *)
Definition defer {R} (cleanup : prog unit) (body : prog R) : prog R :=
  bind body (fun r => bind cleanup (fun _ => Ret r)).

End Model.

Arguments Received {A} a.
Arguments CtxDone {A}.
Arguments Ret {_ R} r.
Arguments Vis {_ R X} e k.
Arguments Go {_ R} task k.

Declare Scope prog_scope.
Delimit Scope prog_scope with prog.
Notation "x <- t ;; k" := (bind t (fun x => k))
  (at level 100, t at next level, right associativity) : prog_scope.
Notation "t ;; k" := (bind t (fun _ => k))
  (at level 100, right associativity) : prog_scope.
Open Scope prog_scope.

(** ** The methods of holePuncher *)

Section Programs.
Context {maddr : AddrOps}.

(** A Go result tuple [([]ma.Multiaddr, []ma.Multiaddr, time.Duration, error)]. *)
Definition exchange : Type :=
  list Multiaddr * list Multiaddr * Duration * option error.

Definition failed (err : error) : exchange := ([], [], 0, Some err).

(** [len(addrs) == 0] *)
Definition no_addrs (addrs : list Multiaddr) : bool :=
  match addrs with [] => true | _ => false end.

(** [if hp.filter != nil { addrs = hp.filter.FilterLocal(p, addrs) }] *)
Definition filterLocal (flt : option AddrFilter) (p : peer_ID)
    (addrs : list Multiaddr) : list Multiaddr :=
  match flt with
  | Some f => FilterLocal f p addrs
  | None => addrs
  end.

Definition filterRemote (flt : option AddrFilter) (p : peer_ID)
    (addrs : list Multiaddr) : list Multiaddr :=
  match flt with
  | Some f => FilterRemote f p addrs
  | None => addrs
  end.

(** [func (hp *holePuncher) beginDirectConnect(p peer.ID) error] *)
Definition beginDirectConnect (p : peer_ID) : prog (option error) :=
  trigger closeMx_RLock ;;
  defer (trigger closeMx_RUnlock)
    (closed <- trigger LoadClosed ;;
     if closed then Ret (Some ErrClosed) else
     trigger activeMx_Lock ;;
     defer (trigger activeMx_Unlock)
       (ok <- trigger (ActiveLookup p) ;;
        if ok then Ret (Some ErrHolePunchActive) else
        trigger (ActiveStore p) ;;
        Ret None)).

(** The exchange on an open stream:
    [func (hp *holePuncher) initiateHolePunchImpl(str network.Stream)]. *)
Definition initiateHolePunchImpl (str : Stream) : prog exchange :=
  e <- call (SetService str ServiceName) ;;
  match e with
  | Some err =>
      Ret (failed (Errorf "error attaching stream to holepunch service: %s" [AErr err]))
  | None =>
  e <- call (ReserveMemory str maxMsgSize) ;;
  match e with
  | Some err =>
      Ret (failed (Errorf "error reserving memory for stream: %s" [AErr err]))
  | None =>
  defer (call (ReleaseMemory str maxMsgSize))
   (now <- call Now ;;
    call (SetDeadline str (now + StreamTimeout)) ;;
    (* send a CONNECT and start RTT measurement. *)
    la <- call ListenAddrs ;;
    flt <- trigger LoadFilter ;;
    let obsAddrs := filterLocal flt (stream_RemotePeer str) (removeRelayAddrs la) in
    if no_addrs obsAddrs then Ret (failed errNoLocalAddr) else
    start <- call Now ;;
    e <- call (WriteMsg str (mkHolePunch HolePunch_CONNECT (addrsToBytes obsAddrs))) ;;
    match e with
    | Some err => call (StreamReset str) ;; Ret (failed err)
    | None =>
    (* wait for a CONNECT message from the remote peer *)
    rd <- call (ReadMsg str) ;;
    match snd rd with
    | Some err =>
        Ret (failed (Errorf "failed to read CONNECT message from remote peer: %w" [AErr err]))
    | None =>
    let msg := fst rd in
    now <- call Now ;;
    let rtt := now - start in
    if negb (HolePunch_Type_eqb (msgType msg) HolePunch_CONNECT)
    then Ret (failed (errNotConnect (msgType msg))) else
    flt <- trigger LoadFilter ;;
    let addrs :=
      filterRemote flt (stream_RemotePeer str)
        (removeRelayAddrs (addrsFromBytes (ObsAddrs msg))) in
    if no_addrs addrs then Ret (failed errNoRemoteAddr) else
    e <- call (WriteMsg str (mkHolePunch HolePunch_SYNC [])) ;;
    match e with
    | Some err =>
        Ret (failed (Errorf "failed to send SYNC message for hole punching: %w" [AErr err]))
    | None => Ret (addrs, obsAddrs, rtt, None)
    end end end)
  end end.

(** [func (hp *holePuncher) initiateHolePunch(rp peer.ID)]: opens the
    coordination stream and runs the exchange on it. *)
Definition initiateHolePunch (rp : peer_ID) : prog exchange :=
  r <- call (NewStream rp Protocol) ;;
  match r with
  | inr err =>
      Ret (failed (Errorf "failed to open hole-punching stream: %w" [AErr err]))
  | inl str =>
      defer (call (StreamClose str))
        (x <- initiateHolePunchImpl str ;;
         let '(addr, obsAddr, rtt, e) := x in
         match e with
         | Some err =>
             call (StreamReset str) ;;
             Ret (addr, obsAddr, rtt,
                  Some (Errorf "failed to initiateHolePunch: %w" [AErr err]))
         | None => Ret (addr, obsAddr, rtt, None)
         end)
  end.

(** The [for _, a := range hp.host.Peerstore().Addrs(rp)] loop of
    [directConnect]: [Some r] when its body returned [r], [None] when the
    loop was left (by [break] or at the end of the addresses). *)
Fixpoint directDial (rp : peer_ID) (addrs : list Multiaddr)
    : prog (option (option error)) :=
  match addrs with
  | [] => Ret None
  | a :: rest =>
      if negb (isRelayAddress a) && IsPublicAddr a then
        timeout <- trigger LoadDirectDialTimeout ;;
        tstart <- call Now ;;
        (* This dials all addresses, public and private, from the peerstore. *)
        err <- call (HostConnect rp timeout) ;;
        now <- call Now ;;
        let dt := now - tstart in
        match err with
        | Some e => call (Trace (DirectDialFailed rp dt e)) ;; Ret None
        | None => call (Trace (DirectDialSuccessful rp dt)) ;; Ret (Some None)
        end
      else directDial rp rest
  end.

(** The timed connect of one iteration, after the timer fired at [start]. *)
Definition punch (rp : peer_ID) (i : Z) (addrs obsAddrs : list Multiaddr)
    (rtt : Duration) (start : Time) : prog (option error) :=
  let pi := mkAddrInfo rp addrs in
  call (Trace (StartHolePunch rp addrs rtt)) ;;
  call (Trace (HolePunchAttempt (ai_ID pi))) ;;
  timeout <- trigger LoadDirectDialTimeout ;;
  legacy <- trigger LoadLegacyBehavior ;;
  let isClient := if legacy then false else true in
  err <- call (holePunchConnect timeout pi isClient) ;;
  now <- call Now ;;
  let dt := now - start in
  call (Trace (EndHolePunch rp dt err)) ;;
  Ret err.

(** [for i := 1; i <= maxRetries; i++ { ... }] followed by the final
    [return fmt.Errorf(...)]: [n] counts the iterations that are left, [i]
    is the loop variable. *)
Fixpoint holePunchLoop (rp : peer_ID) (n : nat) (i : Z) : prog (option error) :=
  match n with
  | O => Ret (Some (Errorf "all retries for hole punch with peer %s failed" [APeer rp]))
  | S n' =>
      x <- initiateHolePunch rp ;;
      let '(addrs, obsAddrs, rtt, e) := x in
      match e with
      | Some err => call (Trace (ProtocolError rp err)) ;; Ret (Some err)
      | None =>
          let synTime := Z.quot rtt 2 in
          (* wait for sync to reach the other peer and then punch a hole *)
          call (NewTimer synTime) ;;
          w <- trigger SelectTimer ;;
          match w with
          | Received start =>
              err <- punch rp i addrs obsAddrs rtt start ;;
              match err with
              | None =>
                  c <- call (GetDirectConnection rp) ;;
                  call (Trace (HolePunchFinished "initiator" i addrs obsAddrs c)) ;;
                  Ret None
              | Some _ =>
                  (if i =? maxRetries
                   then call (Trace (HolePunchFinished "initiator" maxRetries
                                       addrs obsAddrs None))
                   else Ret tt) ;;
                  holePunchLoop rp n' (i + 1)
              end
          | CtxDone =>
              call TimerStop ;;
              trigger ctxErr
          end
      end
  end.

(** [func (hp *holePuncher) directConnect(rp peer.ID) error] *)
Definition directConnect (rp : peer_ID) : prog (option error) :=
  (* short-circuit check to see if we already have a direct connection *)
  c <- call (GetDirectConnection rp) ;;
  match c with
  | Some _ => Ret None
  | None =>
      call (PeerstoreAddrs rp) ;;        (* the argument of the log call *)
      addrs <- call (PeerstoreAddrs rp) ;;
      r <- directDial rp addrs ;;
      match r with
      | Some res => Ret res
      | None => holePunchLoop rp (Z.to_nat maxRetries) 1
      end
  end.

(** The closure deferred by [DirectConnect]:
    [func() { hp.activeMx.Lock(); delete(hp.active, p); hp.activeMx.Unlock() }] *)
Definition release (p : peer_ID) : prog unit :=
  trigger activeMx_Lock ;;
  trigger (ActiveDelete p) ;;
  trigger activeMx_Unlock.

(** [func (hp *holePuncher) DirectConnect(p peer.ID) error] *)
Definition DirectConnect (p : peer_ID) : prog (option error) :=
  err <- beginDirectConnect p ;;
  match err with
  | Some e => Ret (Some e)
  | None => defer (release p) (directConnect p)
  end.

(** [func (hp *holePuncher) Close() error] *)
Definition Close : prog (option error) :=
  trigger closeMx_Lock ;;
  trigger (StoreClosed true) ;;
  trigger closeMx_Unlock ;;
  trigger ctxCancel ;;
  trigger refCount_Wait ;;
  Ret None.

(** The goroutine started by [Connected]. *)
Definition connectedTask (conn : Conn) : prog unit :=
  defer (trigger refCount_Done)
    (w <- trigger (SelectIdentify conn) ;;
     match w with
     | Received _ =>
         DirectConnect (conn_RemotePeer conn) ;;   (* the error is only logged *)
         Ret tt
     | CtxDone => Ret tt
     end).

(** [func (nn *netNotifiee) Connected(_ network.Network, conn network.Conn)] *)
Definition Connected (conn : Conn) : prog unit :=
  if Direction_eqb (conn_Direction conn) DirInbound
     && isRelayAddress (conn_RemoteMultiaddr conn)
  then
    trigger (refCount_Add 1) ;;
    Go (connectedTask conn) (Ret tt)
  else Ret tt.

End Programs.

(** ** The receiver and the semantics of events *)

Section Semantics.
Context {maddr : AddrOps}.

(** [sync.RWMutex]: the number of readers inside and whether a writer is. *)
Record RWMutex := mkRWMutex {
  readers : nat;
  writer : bool
}.

(** [type holePuncher struct]: the fields the methods read or write.
    [ctx_done] is the state of [hp.ctx] (cancelled by [hp.ctxCancel]),
    [refCount] the counter of the wait group, [activeMx] whether the mutex
    is held, [active] the key set of [map[peer.ID]struct{}].  The fields
    host, ids, listenAddrs and tracer are collaborators, reached through
    [extE]. *)
Record holePuncher := mkHolePuncher {
  ctx_done : bool;
  refCount : nat;
  directDialTimeout : Duration;
  activeMx : bool;
  active : gset string;
  closeMx : RWMutex;
  closed : bool;
  filter : option AddrFilter;
  legacyBehavior : bool
}.

Definition set_ctx_done (b : bool) (hp : holePuncher) : holePuncher :=
  mkHolePuncher b (refCount hp) (directDialTimeout hp) (activeMx hp) (active hp)
    (closeMx hp) (closed hp) (filter hp) (legacyBehavior hp).

Definition set_refCount (n : nat) (hp : holePuncher) : holePuncher :=
  mkHolePuncher (ctx_done hp) n (directDialTimeout hp) (activeMx hp) (active hp)
    (closeMx hp) (closed hp) (filter hp) (legacyBehavior hp).

Definition set_activeMx (b : bool) (hp : holePuncher) : holePuncher :=
  mkHolePuncher (ctx_done hp) (refCount hp) (directDialTimeout hp) b (active hp)
    (closeMx hp) (closed hp) (filter hp) (legacyBehavior hp).

Definition set_active (a : gset string) (hp : holePuncher) : holePuncher :=
  mkHolePuncher (ctx_done hp) (refCount hp) (directDialTimeout hp) (activeMx hp) a
    (closeMx hp) (closed hp) (filter hp) (legacyBehavior hp).

Definition set_closeMx (m : RWMutex) (hp : holePuncher) : holePuncher :=
  mkHolePuncher (ctx_done hp) (refCount hp) (directDialTimeout hp) (activeMx hp)
    (active hp) m (closed hp) (filter hp) (legacyBehavior hp).

Definition set_closed (b : bool) (hp : holePuncher) : holePuncher :=
  mkHolePuncher (ctx_done hp) (refCount hp) (directDialTimeout hp) (activeMx hp)
    (active hp) (closeMx hp) b (filter hp) (legacyBehavior hp).

(** [func newHolePuncher(h, ids, listenAddrs, tracer, filter)]: the struct
    literal sets [active], [filter] and [legacyBehavior: true]; the other
    fields have their zero value and [hp.ctx] is fresh. *)
Definition newHolePuncher (flt : option AddrFilter) : holePuncher :=
  {| ctx_done := false;
     refCount := 0%nat;
     directDialTimeout := 0;
     activeMx := false;
     active := ∅;
     closeMx := mkRWMutex 0 false;
     closed := false;
     filter := flt;
     legacyBehavior := true |}.

(** The collaborators: a state and the answer to each call. *)
Class World := {
  W : Type;
  world : forall X, extE X -> W -> X * W
}.

Context {env : World}.

(** One event on the receiver [hp] and the collaborators' state [w]:
    [None] when the goroutine cannot take the step now (a mutex that is
    held, a wait group that is not drained, a [select] with no channel
    ready) or the runtime would panic (unlocking a free mutex, a negative
    wait-group counter).

    A [select] takes the channel case when the collaborators say it is
    ready ([TimerChan], [IdentifyWait]) and [ctx.Done()] otherwise; that
    needs the context to be cancelled.  With [open = true] the other
    goroutines are part of the environment, and a select that wakes through
    [ctx.Done()] while [hp.ctx] was live records that the environment
    called [hp.ctxCancel()] during the wait. *)
Definition select_done {A} (open : bool) (hp : holePuncher) (w : W)
    : option (wake A * holePuncher * W) :=
  if ctx_done hp then Some (CtxDone, hp, w)
  else if open then Some (CtxDone, set_ctx_done true hp, w)
  else None.

Definition handle (open : bool) {X} (e : event X) (hp : holePuncher) (w : W)
    : option (X * holePuncher * W) :=
  match e in event X return option (X * holePuncher * W) with
  | Ext e => let '(x, w') := world _ e w in Some (x, hp, w')
  | closeMx_RLock =>
      if writer (closeMx hp) then None
      else Some (tt, set_closeMx (mkRWMutex (S (readers (closeMx hp))) false) hp, w)
  | closeMx_RUnlock =>
      match readers (closeMx hp) with
      | O => None
      | S n => Some (tt, set_closeMx (mkRWMutex n (writer (closeMx hp))) hp, w)
      end
  | closeMx_Lock =>
      match readers (closeMx hp), writer (closeMx hp) with
      | O, false => Some (tt, set_closeMx (mkRWMutex 0 true) hp, w)
      | _, _ => None
      end
  | closeMx_Unlock =>
      if writer (closeMx hp)
      then Some (tt, set_closeMx (mkRWMutex (readers (closeMx hp)) false) hp, w)
      else None
  | activeMx_Lock =>
      if activeMx hp then None else Some (tt, set_activeMx true hp, w)
  | activeMx_Unlock =>
      if activeMx hp then Some (tt, set_activeMx false hp, w) else None
  | LoadClosed => Some (closed hp, hp, w)
  | StoreClosed b => Some (tt, set_closed b hp, w)
  | ActiveLookup p => Some (bool_decide (p ∈ active hp), hp, w)
  | ActiveStore p => Some (tt, set_active ({[p]} ∪ active hp) hp, w)
  | ActiveDelete p => Some (tt, set_active (active hp ∖ {[p]}) hp, w)
  | LoadLegacyBehavior => Some (legacyBehavior hp, hp, w)
  | LoadDirectDialTimeout => Some (directDialTimeout hp, hp, w)
  | LoadFilter => Some (filter hp, hp, w)
  | ctxCancel => Some (tt, set_ctx_done true hp, w)
  | ctxErr => Some (if ctx_done hp then Some context_Canceled else None, hp, w)
  | SelectTimer =>
      let '(fired, w') := world _ TimerChan w in
      match fired with
      | Some start => Some (Received start, hp, w')
      | None => select_done open hp w'
      end
  | SelectIdentify c =>
      let '(identified, w') := world _ (IdentifyWait c) w in
      if identified then Some (Received tt, hp, w')
      else select_done open hp w'
  | refCount_Add n => Some (tt, set_refCount (refCount hp + n)%nat hp, w)
  | refCount_Done =>
      match refCount hp with
      | O => None
      | S n => Some (tt, set_refCount n hp, w)
      end
  | refCount_Wait =>
      match refCount hp with
      | O => Some (tt, hp, w)
      | S _ => None
      end
  end.

(** An event with the answer it got. *)
Inductive entry :=
| Did {X} (e : event X) (x : X).

(** *** One call on its own

    [run t hp w] is the call [t] run to its return against the
    collaborators, the other goroutines being part of the environment: the
    returned value, the receiver and the collaborators afterwards, and the
    events in the order they happened.  [None] when the call gets stuck or
    starts a goroutine. *)
Fixpoint run {R} (t : prog R) (hp : holePuncher) (w : W)
    : option (R * holePuncher * W * list entry) :=
  match t with
  | Ret r => Some (r, hp, w, [])
  | Vis e k =>
      match handle true e hp w with
      | Some (x, hp1, w1) =>
          match run (k x) hp1 w1 with
          | Some (r, hp2, w2, tr) => Some (r, hp2, w2, Did e x :: tr)
          | None => None
          end
      | None => None
      end
  | Go _ _ => None
  end.

(** *** Goroutines interleaved

    A pool of goroutines over one receiver.  A goroutine is a call from
    outside ([DirectConnect] or [Close], which return an [error], or the
    network's [Connected]) or was started by a [go] statement; it carries
    the events it has performed so far. *)
Inductive thread :=
| Call (t : prog (option error))
| Notify (t : prog unit)
| Task (t : prog unit).

Record goroutine := mkGoroutine {
  code : thread;
  history : list entry
}.

Record config := mkConfig {
  c_hp : holePuncher;
  c_w : W;
  c_threads : list goroutine
}.

(** One step of a program: the rest of the program, the new state, the
    event performed, and the goroutines started. *)
Definition step_prog {R} (t : prog R) (hp : holePuncher) (w : W)
    : option (prog R * holePuncher * W * list entry * list goroutine) :=
  match t with
  | Ret _ => None
  | Vis e k =>
      match handle false e hp w with
      | Some (x, hp1, w1) => Some (k x, hp1, w1, [Did e x], [])
      | None => None
      end
  | Go task k => Some (k, hp, w, [], [mkGoroutine (Task task) []])
  end.

Definition step_goroutine (g : goroutine) (hp : holePuncher) (w : W)
    : option (goroutine * holePuncher * W * list goroutine) :=
  match code g with
  | Call t =>
      match step_prog t hp w with
      | Some (t1, hp1, w1, en, new) =>
          Some (mkGoroutine (Call t1) (history g ++ en), hp1, w1, new)
      | None => None
      end
  | Notify t =>
      match step_prog t hp w with
      | Some (t1, hp1, w1, en, new) =>
          Some (mkGoroutine (Notify t1) (history g ++ en), hp1, w1, new)
      | None => None
      end
  | Task t =>
      match step_prog t hp w with
      | Some (t1, hp1, w1, en, new) =>
          Some (mkGoroutine (Task t1) (history g ++ en), hp1, w1, new)
      | None => None
      end
  end.

(** The scheduler lets goroutine [i] take one step. *)
Definition sched (i : nat) (c : config) : option config :=
  match c_threads c !! i with
  | Some g =>
      match step_goroutine g (c_hp c) (c_w c) with
      | Some (g1, hp1, w1, new) =>
          Some (mkConfig hp1 w1 (<[i := g1]> (c_threads c) ++ new))
      | None => None
      end
  | None => None
  end.

(** A schedule is the list of the goroutines that step, in order. *)
Fixpoint exec (s : list nat) (c : config) : option config :=
  match s with
  | [] => Some c
  | i :: s' =>
      match sched i c with
      | Some c1 => exec s' c1
      | None => None
      end
  end.

(** The calls that reach the coordinator from outside: callers of
    [DirectConnect] and [Close], and the network's [Connected]
    notifications. *)
Inductive request :=
| ReqDirectConnect (p : peer_ID)
| ReqClose
| ReqConnected (conn : Conn).

Definition serve (r : request) : thread :=
  match r with
  | ReqDirectConnect p => Call (DirectConnect p)
  | ReqClose => Call Close
  | ReqConnected conn => Notify (Connected conn)
  end.

(** A fresh coordinator with the calls that will be made on it, none of
    them started. *)
Definition init (flt : option AddrFilter) (w : W) (calls : list request) : config :=
  mkConfig (newHolePuncher flt) w
    (List.map (fun r => mkGoroutine (serve r) []) calls).

Definition reachable (c : config) : Prop :=
  exists flt w calls s, exec s (init flt w calls) = Some c.

(** A goroutine whose function has returned. *)
Definition finished (g : goroutine) : bool :=
  match code g with
  | Call (Ret _) | Notify (Ret _) | Task (Ret _) => true
  | _ => false
  end.

(** The value a call has returned, if it has. *)
Definition result (g : goroutine) : option (option error) :=
  match code g with
  | Call (Ret r) => Some r
  | _ => None
  end.

End Semantics.

Arguments Did {_ X} e x.

(** ** What a trace shows *)

Section Observations.
Context {maddr : AddrOps}.

(** The collaborator calls of a trace, seen through [f]. *)
Definition ext_obs {A} (f : forall X, extE X -> X -> option A) (en : entry)
    : option A :=
  match en with
  | Did e x =>
      match e in event X return X -> option A with
      | Ext e' => f _ e'
      | _ => fun _ => None
      end x
  end.

(** The exchange on the wire and the readings of the clock around it. *)
Inductive wire :=
| Clock (t : Time)                            (* time.Now() *)
| Sent (m : HolePunch)                        (* w.WriteMsg(m) *)
| Got (m : HolePunch) (err : option error).   (* rd.ReadMsg(&msg) *)

Definition wire_of (X : Type) (e : extE X) : X -> option wire :=
  match e in extE X return X -> option wire with
  | Now => fun t => Some (Clock t)
  | WriteMsg _ m => fun _ => Some (Sent m)
  | ReadMsg _ => fun r => Some (Got (fst r) (snd r))
  | _ => fun _ => None
  end.

Definition on_wire (tr : list entry) : list wire := omap (ext_obs wire_of) tr.

(** The messages written to the stream. *)
Definition sent_of (X : Type) (e : extE X) : X -> option HolePunch :=
  match e in extE X return X -> option HolePunch with
  | WriteMsg _ m => fun _ => Some m
  | _ => fun _ => None
  end.

Definition sent (tr : list entry) : list HolePunch := omap (ext_obs sent_of) tr.

(** The answers of [hp.listenAddrs()]. *)
Definition listened_of (X : Type) (e : extE X) : X -> option (list Multiaddr) :=
  match e in extE X return X -> option (list Multiaddr) with
  | ListenAddrs => fun la => Some la
  | _ => fun _ => None
  end.

Definition listened (tr : list entry) : list (list Multiaddr) :=
  omap (ext_obs listened_of) tr.

(** The messages read from the stream, with the error of the read. *)
Definition got_of (X : Type) (e : extE X) : X -> option (HolePunch * option error) :=
  match e in extE X return X -> option (HolePunch * option error) with
  | ReadMsg _ => fun r => Some r
  | _ => fun _ => None
  end.

Definition got (tr : list entry) : list (HolePunch * option error) :=
  omap (ext_obs got_of) tr.

(** The milestones of the retry loop: an exchange is started (its stream
    is opened), the timer is armed, the select wakes, the role flag is
    read, the timed connect is made, the timer is stopped, [ctx.Err()] is
    read, and the tracer is told of a protocol error or of the end. *)
Inductive milestone :=
| MExchange (p : peer_ID)
| MTimer (d : Duration)
| MWake (w : wake Time)
| MLegacy (b : bool)
| MPunch (pi : AddrInfo) (isClient : bool) (err : option error)
| MStop
| MCtxErr (err : option error)
| MProtocolError (p : peer_ID) (err : error)
| MFinished (side : string) (attemptNum : Z) (directConn : option Conn).

Definition milestone_of_ext (X : Type) (e : extE X) : X -> option milestone :=
  match e in extE X return X -> option milestone with
  | NewStream p _ => fun _ => Some (MExchange p)
  | NewTimer d => fun _ => Some (MTimer d)
  | holePunchConnect _ pi isClient => fun err => Some (MPunch pi isClient err)
  | TimerStop => fun _ => Some MStop
  | Trace (ProtocolError p err) => fun _ => Some (MProtocolError p err)
  | Trace (HolePunchFinished side n _ _ c) => fun _ => Some (MFinished side n c)
  | _ => fun _ => None
  end.

Definition milestone_of (en : entry) : option milestone :=
  match en with
  | Did e x =>
      match e in event X return X -> option milestone with
      | Ext e' => milestone_of_ext _ e'
      | SelectTimer => fun w => Some (MWake w)
      | LoadLegacyBehavior => fun b => Some (MLegacy b)
      | ctxErr => fun err => Some (MCtxErr err)
      | _ => fun _ => None
      end x
  end.

Definition milestones (tr : list entry) : list milestone := omap milestone_of tr.

(** The exchanges started: one per iteration of the retry loop. *)
Definition is_MExchange (m : milestone) : bool :=
  match m with MExchange _ => true | _ => false end.

Definition exchanges (ms : list milestone) : nat :=
  length (List.filter is_MExchange ms).

Definition iterations (tr : list entry) : nat := exchanges (milestones tr).

(** The timed connects: the role passed and the outcome. *)
Definition punch_of (m : milestone) : option (bool * option error) :=
  match m with MPunch _ isClient err => Some (isClient, err) | _ => None end.

Definition punched (tr : list entry) : list (bool * option error) :=
  omap punch_of (milestones tr).

Definition punch_failed (p : bool * option error) : bool :=
  match snd p with Some _ => true | None => false end.

(** The timed connects that failed. *)
Definition failures (ms : list milestone) : nat :=
  length (List.filter punch_failed (omap punch_of ms)).

Definition failed_punches (tr : list entry) : nat := failures (milestones tr).

(** The values read from [hp.legacyBehavior]. *)
Definition legacy_of (m : milestone) : option bool :=
  match m with MLegacy b => Some b | _ => None end.

Definition legacy_reads (tr : list entry) : list bool :=
  omap legacy_of (milestones tr).

(** The waits of the timers armed. *)
Definition timer_of (m : milestone) : option Duration :=
  match m with MTimer d => Some d | _ => None end.

Definition waits (tr : list entry) : list Duration := omap timer_of (milestones tr).

(** The operations on [hp.active]. *)
Inductive active_op :=
| Lookup (p : peer_ID) (ok : bool)
| Store (p : peer_ID)
| Delete (p : peer_ID).

Definition active_op_of (en : entry) : option active_op :=
  match en with
  | Did e x =>
      match e in event X return X -> option active_op with
      | ActiveLookup p => fun ok => Some (Lookup p ok)
      | ActiveStore p => fun _ => Some (Store p)
      | ActiveDelete p => fun _ => Some (Delete p)
      | _ => fun _ => None
      end x
  end.

Definition active_ops (tr : list entry) : list active_op := omap active_op_of tr.

(** The error after the last retry:
    [fmt.Errorf("all retries for hole punch with peer %s failed", rp)]. *)
Definition errAllRetriesFailed (rp : peer_ID) : error :=
  Errorf "all retries for hole punch with peer %s failed" [APeer rp].

(** The milestones of the retry loop entered with [n] iterations left and
    loop variable [i], and the value it returns: the traces the loop can
    leave, by the way each iteration ends.  [legacy] is
    [hp.legacyBehavior]. *)
Inductive loop_trace (rp : peer_ID) (legacy : bool)
    : nat -> Z -> list milestone -> option error -> Prop :=
| loop_exhausted i :
    loop_trace rp legacy 0 i [] (Some (errAllRetriesFailed rp))
| loop_protocol_error n i err :
    loop_trace rp legacy (S n) i
      [MExchange rp; MProtocolError rp err] (Some err)
| loop_cancelled n i d :
    loop_trace rp legacy (S n) i
      [MExchange rp; MTimer d; MWake CtxDone; MStop;
       MCtxErr (Some context_Canceled)]
      (Some context_Canceled)
| loop_connected n i d start addrs c :
    loop_trace rp legacy (S n) i
      [MExchange rp; MTimer d; MWake (Received start); MLegacy legacy;
       MPunch (mkAddrInfo rp addrs) (negb legacy) None;
       MFinished "initiator" i c]
      None
| loop_retry n i d start addrs err rest res :
    loop_trace rp legacy n (i + 1) rest res ->
    loop_trace rp legacy (S n) i
      ([MExchange rp; MTimer d; MWake (Received start); MLegacy legacy;
        MPunch (mkAddrInfo rp addrs) (negb legacy) (Some err)]
       ++ (if i =? maxRetries then [MFinished "initiator" maxRetries None] else [])
       ++ rest)
      res.

End Observations.

(** ** Program points of the goroutines

    The invariants of the interleaved semantics are stated over the
    program point each goroutine has reached.  A program point is given by
    the program that is left to run. *)

Section Phases.
Context {maddr : AddrOps} {env : World}.

(** Events that leave the receiver as it is (in the interleaved semantics):
    calls into the collaborators and reads of [hp.ctx] and of the
    configuration fields. *)
Definition quiet_event {X} (e : event X) : bool :=
  match e with
  | Ext _ | LoadLegacyBehavior | LoadDirectDialTimeout | LoadFilter
  | ctxErr | SelectTimer => true
  | _ => false
  end.

Inductive quiet {R} : prog R -> Prop :=
| quiet_Ret r : quiet (Ret r)
| quiet_Vis {X} (e : event X) k :
    quiet_event e = true -> (forall x, quiet (k x)) -> quiet (Vis e k).

(** The part of [beginDirectConnect] that runs with [hp.activeMx] held. *)
Definition under_activeMx (p : peer_ID) : prog (option error) :=
  ok <- trigger (ActiveLookup p) ;;
  if ok then Ret (Some ErrHolePunchActive) else
  trigger (ActiveStore p) ;;
  Ret None.

(** The part of [beginDirectConnect] that runs with [hp.closeMx] read-held. *)
Definition under_closeMx (p : peer_ID) : prog (option error) :=
  closed <- trigger LoadClosed ;;
  if closed then Ret (Some ErrClosed) else
  trigger activeMx_Lock ;;
  defer (trigger activeMx_Unlock) (under_activeMx p).

(** What [DirectConnect] does with the result of [beginDirectConnect]. *)
Definition after_begin (p : peer_ID) (err : option error) : prog (option error) :=
  match err with
  | Some e => Ret (Some e)
  | None => defer (release p) (directConnect p)
  end.

(** The program points of a [DirectConnect(p)] call. *)
Inductive dc_pc :=
| pcBegin          (* not started *)
| pcRLocked        (* closeMx read-held, before reading hp.closed *)
| pcClosed         (* read closed = true, before RUnlock *)
| pcOpen           (* read closed = false, before activeMx.Lock *)
| pcLocked         (* activeMx held, before the lookup *)
| pcDup1           (* the peer was found, before activeMx.Unlock *)
| pcDup2           (* the peer was found, before closeMx.RUnlock *)
| pcFree           (* the peer was not found, before the insertion *)
| pcStored         (* inserted, before activeMx.Unlock *)
| pcAdmitted       (* inserted, before closeMx.RUnlock *)
| pcBody           (* in directConnect, or before the deferred Lock *)
| pcDelete         (* deferred: activeMx held, before the delete *)
| pcDeleted        (* deferred: deleted, before activeMx.Unlock *)
| pcRejectedClosed (* returned ErrClosed *)
| pcRejectedActive (* returned ErrHolePunchActive *)
| pcReturned.      (* returned the result of directConnect *)

Inductive at_dc (p : peer_ID) : dc_pc -> prog (option error) -> Prop :=
| at_pcBegin : at_dc p pcBegin (DirectConnect p)
| at_pcRLocked :
    at_dc p pcRLocked
      (bind (defer (trigger closeMx_RUnlock) (under_closeMx p)) (after_begin p))
| at_pcClosed :
    at_dc p pcClosed (Vis closeMx_RUnlock (fun _ => Ret (Some ErrClosed)))
| at_pcOpen :
    at_dc p pcOpen
      (bind (defer (trigger closeMx_RUnlock)
               (trigger activeMx_Lock ;;
                defer (trigger activeMx_Unlock) (under_activeMx p)))
         (after_begin p))
| at_pcLocked :
    at_dc p pcLocked
      (bind (defer (trigger closeMx_RUnlock)
               (defer (trigger activeMx_Unlock) (under_activeMx p)))
         (after_begin p))
| at_pcDup1 :
    at_dc p pcDup1
      (Vis activeMx_Unlock (fun _ =>
       Vis closeMx_RUnlock (fun _ => Ret (Some ErrHolePunchActive))))
| at_pcDup2 :
    at_dc p pcDup2 (Vis closeMx_RUnlock (fun _ => Ret (Some ErrHolePunchActive)))
| at_pcFree :
    at_dc p pcFree
      (Vis (ActiveStore p) (fun _ =>
       Vis activeMx_Unlock (fun _ =>
       Vis closeMx_RUnlock (fun _ => after_begin p None))))
| at_pcStored :
    at_dc p pcStored
      (Vis activeMx_Unlock (fun _ =>
       Vis closeMx_RUnlock (fun _ => after_begin p None)))
| at_pcAdmitted :
    at_dc p pcAdmitted (Vis closeMx_RUnlock (fun _ => after_begin p None))
| at_pcBody t :
    quiet t -> at_dc p pcBody (defer (release p) t)
| at_pcDelete r :
    at_dc p pcDelete
      (Vis (ActiveDelete p) (fun _ => Vis activeMx_Unlock (fun _ => Ret r)))
| at_pcDeleted r :
    at_dc p pcDeleted (Vis activeMx_Unlock (fun _ => Ret r))
| at_pcRejectedClosed : at_dc p pcRejectedClosed (Ret (Some ErrClosed))
| at_pcRejectedActive : at_dc p pcRejectedActive (Ret (Some ErrHolePunchActive))
| at_pcReturned r : at_dc p pcReturned (Ret r).

(** The operations on [hp.active] a call has performed when it is at a
    program point. *)
Definition ops_at (p : peer_ID) (pc : dc_pc) : list active_op :=
  match pc with
  | pcBegin | pcRLocked | pcClosed | pcOpen | pcLocked | pcRejectedClosed => []
  | pcDup1 | pcDup2 | pcRejectedActive => [Lookup p true]
  | pcFree => [Lookup p false]
  | pcStored | pcAdmitted | pcBody | pcDelete => [Lookup p false; Store p]
  | pcDeleted | pcReturned => [Lookup p false; Store p; Delete p]
  end.

(** The operations on [hp.active] of a goroutine that is through with
    [DirectConnect] (or never called it). *)
Inductive final_ops : list active_op -> Prop :=
| final_none : final_ops []
| final_rejected p : final_ops [Lookup p true]
| final_released p : final_ops [Lookup p false; Store p; Delete p].

(** The program points of [Close]. *)
Inductive close_pc :=
| clBegin | clLocked | clStored | clUnlocked | clCancelled | clReturned.

Definition close_at (pc : close_pc) : prog (option error) :=
  match pc with
  | clBegin => Close
  | clLocked =>
      Vis (StoreClosed true) (fun _ => Vis closeMx_Unlock (fun _ =>
      Vis ctxCancel (fun _ => Vis refCount_Wait (fun _ => Ret None))))
  | clStored =>
      Vis closeMx_Unlock (fun _ =>
      Vis ctxCancel (fun _ => Vis refCount_Wait (fun _ => Ret None)))
  | clUnlocked => Vis ctxCancel (fun _ => Vis refCount_Wait (fun _ => Ret None))
  | clCancelled => Vis refCount_Wait (fun _ => Ret None)
  | clReturned => Ret None
  end.

(** The goroutine of [Connected] around its [DirectConnect] call. *)
Definition in_task (t : prog (option error)) : prog unit :=
  defer (trigger refCount_Done) (t ;; Ret tt).

(** The program points of the goroutines. *)
Inductive phase :=
| PhDC (in_goroutine : bool) (p : peer_ID) (pc : dc_pc)
| PhClose (pc : close_pc)
| PhConnected          (* Connected, not started or not a relayed inbound conn *)
| PhSpawning           (* Connected, the counter is raised, before [go] *)
| PhNotified           (* Connected has returned *)
| PhWaiting            (* the task, before its select *)
| PhExit               (* the task, before refCount.Done() *)
| PhGone.              (* the task has returned *)

Inductive at_phase : phase -> goroutine -> Prop :=
| at_call p pc t h :
    at_dc p pc t -> active_ops h = ops_at p pc ->
    at_phase (PhDC false p pc) (mkGoroutine (Call t) h)
| at_in_task p pc t h :
    at_dc p pc t -> active_ops h = ops_at p pc ->
    at_phase (PhDC true p pc) (mkGoroutine (Task (in_task t)) h)
| at_close pc h :
    active_ops h = [] ->
    at_phase (PhClose pc) (mkGoroutine (Call (close_at pc)) h)
| at_connected conn h :
    active_ops h = [] ->
    at_phase PhConnected (mkGoroutine (Notify (Connected conn)) h)
| at_spawning conn h :
    active_ops h = [] ->
    at_phase PhSpawning (mkGoroutine (Notify (Go (connectedTask conn) (Ret tt))) h)
| at_notified h :
    active_ops h = [] ->
    at_phase PhNotified (mkGoroutine (Notify (Ret tt)) h)
| at_waiting conn h :
    active_ops h = [] ->
    at_phase PhWaiting (mkGoroutine (Task (connectedTask conn)) h)
| at_exit h :
    final_ops (active_ops h) ->
    at_phase PhExit (mkGoroutine (Task (Vis refCount_Done (fun _ => Ret tt))) h)
| at_gone h :
    final_ops (active_ops h) ->
    at_phase PhGone (mkGoroutine (Task (Ret tt)) h).

(** The steps of a [DirectConnect(p)] call between its program points,
    with what each needs of the receiver and does to it. *)
Inductive dc_moves (p : peer_ID) (hp : holePuncher)
    : dc_pc -> holePuncher -> dc_pc -> Prop :=
| mv_RLock :
    writer (closeMx hp) = false ->
    dc_moves p hp pcBegin
      (set_closeMx (mkRWMutex (S (readers (closeMx hp))) false) hp) pcRLocked
| mv_is_closed :
    closed hp = true -> dc_moves p hp pcRLocked hp pcClosed
| mv_not_closed :
    closed hp = false -> dc_moves p hp pcRLocked hp pcOpen
| mv_RUnlock_closed n :
    readers (closeMx hp) = S n ->
    dc_moves p hp pcClosed
      (set_closeMx (mkRWMutex n (writer (closeMx hp))) hp) pcRejectedClosed
| mv_Lock :
    activeMx hp = false ->
    dc_moves p hp pcOpen (set_activeMx true hp) pcLocked
| mv_found :
    p ∈ active hp -> dc_moves p hp pcLocked hp pcDup1
| mv_not_found :
    p ∉ active hp -> dc_moves p hp pcLocked hp pcFree
| mv_Unlock_dup :
    activeMx hp = true ->
    dc_moves p hp pcDup1 (set_activeMx false hp) pcDup2
| mv_RUnlock_dup n :
    readers (closeMx hp) = S n ->
    dc_moves p hp pcDup2
      (set_closeMx (mkRWMutex n (writer (closeMx hp))) hp) pcRejectedActive
| mv_store :
    dc_moves p hp pcFree (set_active ({[p]} ∪ active hp) hp) pcStored
| mv_Unlock_stored :
    activeMx hp = true ->
    dc_moves p hp pcStored (set_activeMx false hp) pcAdmitted
| mv_RUnlock_admitted n :
    readers (closeMx hp) = S n ->
    dc_moves p hp pcAdmitted
      (set_closeMx (mkRWMutex n (writer (closeMx hp))) hp) pcBody
| mv_body :
    dc_moves p hp pcBody hp pcBody
| mv_Lock_release :
    activeMx hp = false ->
    dc_moves p hp pcBody (set_activeMx true hp) pcDelete
| mv_delete :
    dc_moves p hp pcDelete (set_active (active hp ∖ {[p]}) hp) pcDeleted
| mv_Unlock_release :
    activeMx hp = true ->
    dc_moves p hp pcDeleted (set_activeMx false hp) pcReturned.

(** A [DirectConnect] call has returned. *)
Definition dc_final (pc : dc_pc) : bool :=
  match pc with
  | pcRejectedClosed | pcRejectedActive | pcReturned => true
  | _ => false
  end.

(** The steps of the goroutines between their program points, the last
    component being the program points of the goroutines started. *)
Inductive moves (hp : holePuncher)
    : phase -> holePuncher -> phase -> list phase -> Prop :=
| mv_dc b p pc hp1 pc1 :
    dc_moves p hp pc hp1 pc1 ->
    moves hp (PhDC b p pc) hp1 (PhDC b p pc1) []
| mv_close_Lock :
    readers (closeMx hp) = 0%nat -> writer (closeMx hp) = false ->
    moves hp (PhClose clBegin) (set_closeMx (mkRWMutex 0 true) hp)
      (PhClose clLocked) []
| mv_close_store :
    moves hp (PhClose clLocked) (set_closed true hp) (PhClose clStored) []
| mv_close_Unlock :
    writer (closeMx hp) = true ->
    moves hp (PhClose clStored)
      (set_closeMx (mkRWMutex (readers (closeMx hp)) false) hp)
      (PhClose clUnlocked) []
| mv_close_cancel :
    moves hp (PhClose clUnlocked) (set_ctx_done true hp) (PhClose clCancelled) []
| mv_close_Wait :
    refCount hp = 0%nat ->
    moves hp (PhClose clCancelled) hp (PhClose clReturned) []
| mv_Add :
    moves hp PhConnected (set_refCount (refCount hp + 1) hp) PhSpawning []
| mv_go :
    moves hp PhSpawning hp PhNotified [PhWaiting]
| mv_identified p :
    moves hp PhWaiting hp (PhDC true p pcBegin) []
| mv_shut_down :
    ctx_done hp = true ->
    moves hp PhWaiting hp PhExit []
| mv_Done_after b p pc n :
    b = true -> dc_final pc = true -> refCount hp = S n ->
    moves hp (PhDC b p pc) (set_refCount n hp) PhGone []
| mv_Done n :
    refCount hp = S n ->
    moves hp PhExit (set_refCount n hp) PhGone [].

(** What a goroutine at a program point holds. *)
Definition holds_rlock (ph : phase) : nat :=
  match ph with
  | PhDC _ _ (pcRLocked | pcClosed | pcOpen | pcLocked | pcDup1 | pcDup2
             | pcFree | pcStored | pcAdmitted) => 1
  | _ => 0
  end.

Definition holds_wlock (ph : phase) : nat :=
  match ph with
  | PhClose (clLocked | clStored) => 1
  | _ => 0
  end.

Definition holds_activeMx (ph : phase) : nat :=
  match ph with
  | PhDC _ _ (pcLocked | pcDup1 | pcFree | pcStored | pcDelete | pcDeleted) => 1
  | _ => 0
  end.

(** The goroutine has inserted [q] and not deleted it yet. *)
Definition member (q : peer_ID) (ph : phase) : nat :=
  match ph with
  | PhDC _ p (pcStored | pcAdmitted | pcBody | pcDelete) =>
      if String.eqb q p then 1 else 0
  | _ => 0
  end.

(** The goroutine has read [closed = false] and still holds the read lock. *)
Definition passed_closed (ph : phase) : nat :=
  match ph with
  | PhDC _ _ (pcOpen | pcLocked | pcDup1 | pcDup2 | pcFree | pcStored
             | pcAdmitted) => 1
  | _ => 0
  end.

(** The goroutine is counted in [hp.refCount]. *)
Definition counted (ph : phase) : nat :=
  match ph with
  | PhDC true _ _ | PhSpawning | PhWaiting | PhExit => 1
  | _ => 0
  end.

(** [Close] has set [hp.closed]. *)
Definition has_closed (ph : phase) : nat :=
  match ph with
  | PhClose (clStored | clUnlocked | clCancelled | clReturned) => 1
  | _ => 0
  end.

(** [Close] has cancelled [hp.ctx]. *)
Definition has_cancelled (ph : phase) : nat :=
  match ph with
  | PhClose (clCancelled | clReturned) => 1
  | _ => 0
  end.

Definition total (f : phase -> nat) (phs : list phase) : nat :=
  foldr (fun ph n => (f ph + n)%nat) 0%nat phs.

Definition b2n (b : bool) : nat := if b then 1 else 0.

(** The invariant of the interleaved semantics: the program points [phs]
    of the goroutines account for the locks, the counter and the set. *)
Record consistent (hp : holePuncher) (phs : list phase) : Prop := {
  inv_readers : readers (closeMx hp) = total holds_rlock phs;
  inv_writer : b2n (writer (closeMx hp)) = total holds_wlock phs;
  inv_shared : writer (closeMx hp) = true -> readers (closeMx hp) = 0%nat;
  inv_activeMx : b2n (activeMx hp) = total holds_activeMx phs;
  inv_active : forall q, b2n (bool_decide (q ∈ active hp)) = total (member q) phs;
  inv_free : forall i b p, phs !! i = Some (PhDC b p pcFree) -> p ∉ active hp;
  inv_refCount : refCount hp = total counted phs;
  inv_passed : closed hp = true -> total passed_closed phs = 0%nat;
  inv_closed : closed hp = false -> total has_closed phs = 0%nat;
  inv_ctx : ctx_done hp = false -> total has_cancelled phs = 0%nat
}.

(** The program points at which the goroutine of a call from outside can be. *)
Definition serves (r : request) (ph : phase) : Prop :=
  match r, ph with
  | ReqDirectConnect p, PhDC false q _ => p = q
  | ReqClose, PhClose _ => True
  | ReqConnected _, (PhConnected | PhSpawning | PhNotified) => True
  | _, _ => False
  end.

Definition serving (calls : list request) (phs : list phase) : Prop :=
  forall i r, calls !! i = Some r -> exists ph, phs !! i = Some ph /\ serves r ph.

Definition first_phase (r : request) : phase :=
  match r with
  | ReqDirectConnect p => PhDC false p pcBegin
  | ReqClose => PhClose clBegin
  | ReqConnected _ => PhConnected
  end.

Definition is_Ret {R} (t : prog R) : bool :=
  match t with Ret _ => true | _ => false end.

(** The program is about to take [hp.closeMx.RLock()]. *)
Definition at_RLock {R} (t : prog R) : bool :=
  match t with
  | Vis closeMx_RLock _ => true
  | _ => false
  end.

Definition invariant (c : config) (phs : list phase) : Prop :=
  Forall2 at_phase phs (c_threads c) /\ consistent (c_hp c) phs.

(** The goroutine has inserted [p] into [hp.active] and not deleted it:
    it is a [DirectConnect(p)] call between its admission and its release. *)
Definition in_flight (p : peer_ID) (g : goroutine) : Prop :=
  In (Store p) (active_ops (history g)) /\ ~ In (Delete p) (active_ops (history g)).

(** The program points of a [DirectConnect] call that found the receiver
    closed, and the goroutine it ran in once that is gone. *)
Definition turned_away (ph : phase) (g : goroutine) : Prop :=
  (exists b p pc,
      ph = PhDC b p pc
      /\ (pc = pcBegin \/ pc = pcRLocked \/ pc = pcClosed \/ pc = pcRejectedClosed))
  \/ (ph = PhGone /\ active_ops (history g) = []).

End Phases.

(** ** A concrete setting: textual multiaddrs and scripted collaborators *)

Module Scenario.

Fixpoint contains (needle hay : string) : bool :=
  String.prefix needle hay
  || match hay with
     | EmptyString => false
     | String _ rest => contains needle rest
     end.

Definition private_prefixes : list string :=
  ["/ip4/10."; "/ip4/192.168."; "/ip4/127."].

#[export] Instance text_addrs : AddrOps := {|
  Multiaddr := string;
  isRelayAddress := contains "/p2p-circuit";
  IsPublicAddr a := negb (existsb (fun p => String.prefix p a) private_prefixes);
  removeRelayAddrs := List.filter (fun a => negb (contains "/p2p-circuit" a));
  addrsToBytes := List.map String.list_byte_of_string;
  addrsFromBytes := List.map String.string_of_list_byte;
  Protocol := "/libp2p/dcutr";
  ServiceName := "libp2p.holepunch";
  StreamTimeout := 60000000000;
  maxMsgSize := 4096
|}.

(** What the collaborators will answer.  The clock advances by [latency]
    while a reply is awaited and by one millisecond at each reading. *)
Record script := mkScript {
  direct : option Conn;                       (* an existing direct connection *)
  known : list string;                        (* the peerstore's addresses *)
  dial : option error;                        (* host.Connect *)
  listen : list string;                       (* hp.listenAddrs() *)
  open_stream : option error;                 (* host.NewStream *)
  reply : HolePunch * option error;           (* the remote's answer *)
  latency : Z;
  timer_fires : nat -> bool;                  (* timer.C before ctx.Done, per attempt *)
  punches : nat -> option error;              (* holePunchConnect, per attempt *)
  identified : bool
}.

Record wstate := mkWstate {
  clock : Z;
  attempt : nat
}.

Definition answer (sc : script) (X : Type) (e : extE X) (w : wstate) : X * wstate :=
  match e in extE X return X * wstate with
  | GetDirectConnection _ => (direct sc, w)
  | PeerstoreAddrs _ => (known sc, w)
  | Now => (clock w, mkWstate (clock w + 1000000) (attempt w))
  | HostConnect _ _ => (dial sc, w)
  | Trace _ => (tt, w)
  | NewStream p _ =>
      (match open_stream sc with
       | Some err => inr err
       | None => inl (mkStream (attempt w) p)
       end, w)
  | StreamClose _ => (tt, w)
  | StreamReset _ => (tt, w)
  | SetService _ _ => (None, w)
  | ReserveMemory _ _ => (None, w)
  | ReleaseMemory _ _ => (tt, w)
  | SetDeadline _ _ => (tt, w)
  | ListenAddrs => (listen sc, w)
  | WriteMsg _ _ => (None, w)
  | ReadMsg _ => (reply sc, mkWstate (clock w + latency sc) (attempt w))
  | NewTimer _ => (tt, w)
  | TimerStop => (tt, w)
  | TimerChan =>
      (if timer_fires sc (attempt w) then Some (clock w) else None, w)
  | IdentifyWait _ => (identified sc, w)
  | holePunchConnect _ _ _ =>
      (punches sc (attempt w), mkWstate (clock w) (S (attempt w)))
  end.

Definition scripted (sc : script) : World := {| W := wstate; world := answer sc |}.

Definition w0 : wstate := mkWstate 0 0.

Definition remote_connect : HolePunch :=
  mkHolePunch HolePunch_CONNECT
    [String.list_byte_of_string "/ip4/198.51.100.9/tcp/4001"].

(** Both sides have a public address, the remote answers CONNECT after
    200ms, the timers fire, and the punches fail with a timeout. *)
Definition timeouts : script := {|
  direct := None;
  known := ["/ip4/192.168.1.7/tcp/4001"];
  dial := None;
  listen := ["/ip4/203.0.113.7/tcp/4001"; "/ip4/203.0.113.1/tcp/4001/p2p/QmRelay/p2p-circuit"];
  open_stream := None;
  reply := (remote_connect, None);
  latency := 200000000;
  timer_fires := fun _ => true;
  punches := fun _ => Some (foreign "context deadline exceeded");
  identified := true
|}.

Definition make (sc : script) (o : option error) (r : HolePunch * option error)
    (l : list string) (fires : nat -> bool) : script :=
  mkScript (direct sc) (known sc) (dial sc) l o r (latency sc) fires
    (punches sc) (identified sc).

(** The stream to the remote cannot be opened. *)
Definition stream_refused : script :=
  make timeouts (Some (foreign "connection refused")) (reply timeouts)
    (listen timeouts) (timer_fires timeouts).

(** We listen on a relay address only. *)
Definition only_relays : script :=
  make timeouts None (reply timeouts)
    ["/ip4/203.0.113.1/tcp/4001/p2p/QmRelay/p2p-circuit"] (timer_fires timeouts).

(** The remote's CONNECT carries no address. *)
Definition no_remote_addrs : script :=
  make timeouts None (mkHolePunch HolePunch_CONNECT [], None)
    (listen timeouts) (timer_fires timeouts).

(** The remote answers with a SYNC. *)
Definition wrong_kind : script :=
  make timeouts None (mkHolePunch HolePunch_SYNC [], None)
    (listen timeouts) (timer_fires timeouts).

(** [hp.ctx] is done before the first timer fires. *)
Definition shut_down : script :=
  make timeouts None (reply timeouts) (listen timeouts) (fun _ => false).

Definition hp0 : holePuncher := newHolePuncher None.

Definition str0 : Stream := mkStream 0 "QmA".

(** A receiver with [legacyBehavior] off. *)
Definition modern : holePuncher :=
  mkHolePuncher false 0 0 false ∅ (mkRWMutex 0 false) false None false.

(** A receiver with an attempt to [QmA] under way. *)
Definition busy : holePuncher := set_active {["QmA"]} hp0.

(** Two calls for the same peer: the first runs up to its exchange, then
    the second runs to its return. *)
Definition twice : list request := [ReqDirectConnect "QmA"; ReqDirectConnect "QmA"].

Definition first_then_second : list nat :=
  [0; 0; 0; 0; 0; 0; 0; 1; 1; 1; 1; 1; 1]%nat.

(** A call and [Close]: the call runs up to its exchange, then [Close] runs
    to its return. *)
Definition call_and_close : list request := [ReqDirectConnect "QmA"; ReqClose].

Definition call_then_close : list nat :=
  [0; 0; 0; 0; 0; 0; 0; 0; 1; 1; 1; 1; 1]%nat.

(** The configurations of goroutines run against [timeouts]. *)
Abbreviation snapshot := (config (env := scripted timeouts)).

End Scenario.

(** ** More of what a trace shows: dials, streams, memory, the tracer *)

Section Resources.
Context {maddr : AddrOps}.

(** A call into a collaborator. *)
Definition is_ext (en : entry) : bool :=
  match en with
  | Did e _ => match e with Ext _ => true | _ => false end
  end.

(** The answers of [getDirectConnection(hp.host, rp)]. *)
Definition connection_of (X : Type) (e : extE X) : X -> option (option Conn) :=
  match e in extE X return X -> option (option Conn) with
  | GetDirectConnection _ => fun c => Some c
  | _ => fun _ => None
  end.

Definition connections (tr : list entry) : list (option Conn) :=
  omap (ext_obs connection_of) tr.

(** The answers of [hp.host.Peerstore().Addrs(rp)]. *)
Definition peerstore_of (X : Type) (e : extE X) : X -> option (list Multiaddr) :=
  match e in extE X return X -> option (list Multiaddr) with
  | PeerstoreAddrs _ => fun l => Some l
  | _ => fun _ => None
  end.

Definition peerstore (tr : list entry) : list (list Multiaddr) :=
  omap (ext_obs peerstore_of) tr.

(** The direct dials [hp.host.Connect(dialCtx, peer.AddrInfo{ID: rp})]: the
    peer, the timeout of [dialCtx] and the error returned. *)
Definition dial_of (X : Type) (e : extE X)
    : X -> option (peer_ID * Duration * option error) :=
  match e in extE X return X -> option (peer_ID * Duration * option error) with
  | HostConnect p timeout => fun err => Some (p, timeout, err)
  | _ => fun _ => None
  end.

Definition dials (tr : list entry) : list (peer_ID * Duration * option error) :=
  omap (ext_obs dial_of) tr.

(** [!isRelayAddress(a) && manet.IsPublicAddr(a)] holds of some address:
    the [range] loop of [directConnect] reaches its dial. *)
Definition dialable (addrs : list Multiaddr) : bool :=
  existsb (fun a => negb (isRelayAddress a) && IsPublicAddr a) addrs.

(** The calls on [hp.tracer]. *)
Definition traced_of (X : Type) (e : extE X) : X -> option tracerCall :=
  match e in extE X return X -> option tracerCall with
  | Trace c => fun _ => Some c
  | _ => fun _ => None
  end.

Definition traced (tr : list entry) : list tracerCall :=
  omap (ext_obs traced_of) tr.

(** What happens to the coordination streams. *)
Inductive stream_ev :=
| Opened (p : peer_ID) (proto : string) (r : Stream + error)  (* host.NewStream *)
| WasReset (s : Stream)                                       (* str.Reset() *)
| Closed (s : Stream).                                        (* str.Close() *)

Definition stream_of (X : Type) (e : extE X) : X -> option stream_ev :=
  match e in extE X return X -> option stream_ev with
  | NewStream p proto => fun r => Some (Opened p proto r)
  | StreamReset s => fun _ => Some (WasReset s)
  | StreamClose s => fun _ => Some (Closed s)
  | _ => fun _ => None
  end.

Definition streams (tr : list entry) : list stream_ev :=
  omap (ext_obs stream_of) tr.

Definition Stream_eqb (a b : Stream) : bool :=
  Nat.eqb (stream_id a) (stream_id b)
  && String.eqb (stream_RemotePeer a) (stream_RemotePeer b).

(** The streams are used one at a time: with [cur] the stream that is
    open, [evs] resets and closes only that stream, opens a stream only
    when none is open, and leaves none open. *)
Fixpoint closed_in_turn (cur : option Stream) (evs : list stream_ev) : bool :=
  match evs with
  | [] => match cur with None => true | Some _ => false end
  | Opened _ _ r :: rest =>
      match cur, r with
      | None, inl s => closed_in_turn (Some s) rest
      | None, inr _ => closed_in_turn None rest
      | Some _, _ => false
      end
  | WasReset s :: rest =>
      match cur with
      | Some s' => Stream_eqb s s' && closed_in_turn cur rest
      | None => false
      end
  | Closed s :: rest =>
      match cur with
      | Some s' => Stream_eqb s s' && closed_in_turn None rest
      | None => false
      end
  end.

(** The memory reserved in the scopes of the streams
    ([str.Scope().ReserveMemory] returning nil) and the memory released
    ([str.Scope().ReleaseMemory]). *)
Definition reserved_of (X : Type) (e : extE X) : X -> option (Stream * Z) :=
  match e in extE X return X -> option (Stream * Z) with
  | ReserveMemory s size =>
      fun err => match err with None => Some (s, size) | Some _ => None end
  | _ => fun _ => None
  end.

Definition reserved (tr : list entry) : list (Stream * Z) :=
  omap (ext_obs reserved_of) tr.

Definition released_of (X : Type) (e : extE X) : X -> option (Stream * Z) :=
  match e in extE X return X -> option (Stream * Z) with
  | ReleaseMemory s size => fun _ => Some (s, size)
  | _ => fun _ => None
  end.

Definition released (tr : list entry) : list (Stream * Z) :=
  omap (ext_obs released_of) tr.

(** The events of the exchange: those on its stream and its scope, the
    clock and [hp.listenAddrs()], [hp.filter]. *)
Definition exchange_event (en : entry) : bool :=
  match en with
  | Did e _ =>
      match e with
      | Ext (NewStream _ _ | StreamClose _ | StreamReset _ | SetService _ _
            | ReserveMemory _ _ | ReleaseMemory _ _ | SetDeadline _ _
            | ListenAddrs | WriteMsg _ _ | ReadMsg _ | Now) => true
      | LoadFilter => true
      | _ => false
      end
  end.

(** The events of an iteration of the retry loop after its exchange. *)
Definition punch_event (en : entry) : bool :=
  match en with
  | Did e _ =>
      match e with
      | Ext (Trace (ProtocolError _ _ | StartHolePunch _ _ _ | HolePunchAttempt _
                   | EndHolePunch _ _ _ | HolePunchFinished _ _ _ _ _)
            | NewTimer _ | TimerStop | holePunchConnect _ _ _ | Now
            | GetDirectConnection _) => true
      | SelectTimer | LoadDirectDialTimeout | LoadLegacyBehavior | ctxErr => true
      | _ => false
      end
  end.

Definition is_MFinished (m : milestone) : bool :=
  match m with MFinished _ _ _ => true | _ => false end.

(** The calls of [hp.tracer.HolePunchFinished]. *)
Definition finishes (ms : list milestone) : nat :=
  length (List.filter is_MFinished ms).

(** A timed connect that returned nil. *)
Definition punch_succeeded (ms : list milestone) : Prop :=
  exists pi isClient, In (MPunch pi isClient None) ms.

End Resources.

Section LoopRuns.
Context {maddr : AddrOps} {env : World}.

(** The traces of the retry loop with [n] iterations left, by their parts:
    each iteration is a run of [initiateHolePunch] followed by events of the
    timed connect; [inside] tells whether the trace starts after the
    exchange of an iteration. *)
Inductive loop_run (rp : peer_ID) : nat -> bool -> list entry -> Prop :=
| lr_done : loop_run rp 0 false []
| lr_exchange n hp w x hp1 w1 trx rest :
    run (initiateHolePunch rp) hp w = Some (x, hp1, w1, trx) ->
    loop_run rp n true rest ->
    loop_run rp (S n) false (trx ++ rest)
| lr_event n en tr :
    punch_event en = true -> loop_run rp n true tr -> loop_run rp n true (en :: tr)
| lr_return n : loop_run rp n true []
| lr_next n tr : loop_run rp n false tr -> loop_run rp n true tr.

End LoopRuns.

Section Goroutines.
Context {maddr : AddrOps} {env : World}.

(** What [hp.refCount] stands for: a goroutine started by [Connected] that
    has not returned, or a [Connected] between its [Add(1)] and its [go]. *)
Definition outstanding (g : goroutine) : nat :=
  match code g with
  | Task (Ret _) => 0
  | Task _ => 1
  | Notify (Go _ _) => 1
  | _ => 0
  end.

Definition is_select {X} (e : event X) : bool :=
  match e with
  | SelectTimer | SelectIdentify _ => true
  | _ => false
  end.

Definition next_is_select {R} (t : prog R) : bool :=
  match t with
  | Vis e _ => is_select e
  | _ => false
  end.

(** The goroutine is at a [select]. *)
Definition in_select (g : goroutine) : bool :=
  match code g with
  | Call t => next_is_select t
  | Notify t => next_is_select t
  | Task t => next_is_select t
  end.

(** Whether [hp.activeMx] is held after an event by a goroutine that did
    or did not hold it before: its own [Lock] and [Unlock] decide. *)
Definition lock_effect (held : bool) (en : entry) : bool :=
  match en with
  | Did e _ =>
      match e with
      | activeMx_Lock => true
      | activeMx_Unlock => false
      | _ => held
      end
  end.

(** The goroutine with this history is between an [hp.activeMx.Lock()] and
    the [Unlock()] after it. *)
Definition holding (h : list entry) : bool := foldl lock_effect false h.

Definition is_active_op {X} (e : event X) : bool :=
  match e with
  | ActiveLookup _ | ActiveStore _ | ActiveDelete _ => true
  | _ => false
  end.

Definition next_is_active_op {R} (t : prog R) : bool :=
  match t with
  | Vis e _ => is_active_op e
  | _ => false
  end.

(** The next thing the goroutine does is to read or write [hp.active]. *)
Definition at_active_op (g : goroutine) : bool :=
  match code g with
  | Call t => next_is_active_op t
  | Notify t => next_is_active_op t
  | Task t => next_is_active_op t
  end.

(** The program point is inside the critical section of [hp.activeMx]. *)
Definition inside (ph : phase) : bool := Nat.eqb (holds_activeMx ph) 1.

(** Who is between a [Lock] and an [Unlock] of [hp.activeMx] is at a
    program point inside the critical section. *)
Definition accounted (phs : list phase) (gs : list goroutine) : Prop :=
  Forall2 (fun ph g => holding (history g) = inside ph) phs gs.

(** Goroutine [j] can take a step. *)
Definition steps (c : config) (j : nat) : Prop :=
  exists c1, sched j c = Some c1.

End Goroutines.

(** ** The settings of AutoNAT v2 (package autonatv2, options.go) *)

Module autonatv2.

Section Settings.

(** The types of the package that the settings only store:
    [dataRequestPolicyFunc], the interface [MetricsTracer] and the clock
    [func() time.Time]; and the values of the package that
    [defaultSettings] stores. *)
Variables dataRequestPolicyFunc MetricsTracer Clock : Type.
Variable amplificationAttackPrevention : dataRequestPolicyFunc.
Variable time_Now : Clock.
Variable defaultThrottlePeerDuration : Duration.

(** [type autoNATSettings struct]; the field [allowPrivateAddrs] is
    [allowPrivate] here, the name being that of the option below.  A nil
    [MetricsTracer] is [None]. *)
Record autoNATSettings := mkSettings {
  allowPrivate : bool;
  serverRPM : Z;
  serverPerPeerRPM : Z;
  serverDialDataRPM : Z;
  maxConcurrentRequestsPerPeer : Z;
  dataRequestPolicy : dataRequestPolicyFunc;
  now : Clock;
  amplificatonAttackPreventionDialWait : Duration;
  metricsTracer : option MetricsTracer;
  throttlePeerDuration : Duration
}.

(** [func defaultSettings() *autoNATSettings] *)
Definition defaultSettings : autoNATSettings :=
  {| allowPrivate := false;
     serverRPM := 60;
     serverPerPeerRPM := 12;
     serverDialDataRPM := 12;
     maxConcurrentRequestsPerPeer := 2;
     dataRequestPolicy := amplificationAttackPrevention;
     amplificatonAttackPreventionDialWait := 3 * 1000000000;
     now := time_Now;
     metricsTracer := None;
     throttlePeerDuration := defaultThrottlePeerDuration |}.

(** [type AutoNATOption func(s *autoNATSettings) error]: the settings
    after the call and the error returned. *)
Definition AutoNATOption : Type := autoNATSettings -> autoNATSettings * option error.

Definition WithServerRateLimit (rpm perPeerRPM dialDataRPM : Z)
    (maxConcurrentRequestsPerPeer' : Z) : AutoNATOption :=
  fun s =>
    (mkSettings (allowPrivate s) rpm perPeerRPM dialDataRPM
       maxConcurrentRequestsPerPeer' (dataRequestPolicy s) (now s)
       (amplificatonAttackPreventionDialWait s) (metricsTracer s)
       (throttlePeerDuration s),
     None).

Definition WithMetricsTracer (m : option MetricsTracer) : AutoNATOption :=
  fun s =>
    (mkSettings (allowPrivate s) (serverRPM s) (serverPerPeerRPM s)
       (serverDialDataRPM s) (maxConcurrentRequestsPerPeer s)
       (dataRequestPolicy s) (now s) (amplificatonAttackPreventionDialWait s)
       m (throttlePeerDuration s),
     None).

Definition withDataRequestPolicy (drp : dataRequestPolicyFunc) : AutoNATOption :=
  fun s =>
    (mkSettings (allowPrivate s) (serverRPM s) (serverPerPeerRPM s)
       (serverDialDataRPM s) (maxConcurrentRequestsPerPeer s)
       drp (now s) (amplificatonAttackPreventionDialWait s)
       (metricsTracer s) (throttlePeerDuration s),
     None).

(** [func allowPrivateAddrs(s *autoNATSettings) error] *)
Definition allowPrivateAddrs : AutoNATOption :=
  fun s =>
    (mkSettings true (serverRPM s) (serverPerPeerRPM s)
       (serverDialDataRPM s) (maxConcurrentRequestsPerPeer s)
       (dataRequestPolicy s) (now s) (amplificatonAttackPreventionDialWait s)
       (metricsTracer s) (throttlePeerDuration s),
     None).

Definition withAmplificationAttackPreventionDialWait (d : Duration) : AutoNATOption :=
  fun s =>
    (mkSettings (allowPrivate s) (serverRPM s) (serverPerPeerRPM s)
       (serverDialDataRPM s) (maxConcurrentRequestsPerPeer s)
       (dataRequestPolicy s) (now s) d
       (metricsTracer s) (throttlePeerDuration s),
     None).

Definition withThrottlePeerDuration (d : Duration) : AutoNATOption :=
  fun s =>
    (mkSettings (allowPrivate s) (serverRPM s) (serverPerPeerRPM s)
       (serverDialDataRPM s) (maxConcurrentRequestsPerPeer s)
       (dataRequestPolicy s) (now s) (amplificatonAttackPreventionDialWait s)
       (metricsTracer s) d,
     None).

(** The options of the file, by the function that makes them. *)
Inductive made :=
| ByWithServerRateLimit (rpm perPeerRPM dialDataRPM maxConcurrent : Z)
| ByWithMetricsTracer (m : option MetricsTracer)
| ByWithDataRequestPolicy (drp : dataRequestPolicyFunc)
| ByAllowPrivateAddrs
| ByWithAmplificationAttackPreventionDialWait (d : Duration)
| ByWithThrottlePeerDuration (d : Duration).

Definition option_of (m : made) : AutoNATOption :=
  match m with
  | ByWithServerRateLimit a b c d => WithServerRateLimit a b c d
  | ByWithMetricsTracer m => WithMetricsTracer m
  | ByWithDataRequestPolicy drp => withDataRequestPolicy drp
  | ByAllowPrivateAddrs => allowPrivateAddrs
  | ByWithAmplificationAttackPreventionDialWait d =>
      withAmplificationAttackPreventionDialWait d
  | ByWithThrottlePeerDuration d => withThrottlePeerDuration d
  end.

(** Made by the same function. *)
Definition same_function (m1 m2 : made) : bool :=
  match m1, m2 with
  | ByWithServerRateLimit _ _ _ _, ByWithServerRateLimit _ _ _ _
  | ByWithMetricsTracer _, ByWithMetricsTracer _
  | ByWithDataRequestPolicy _, ByWithDataRequestPolicy _
  | ByAllowPrivateAddrs, ByAllowPrivateAddrs
  | ByWithAmplificationAttackPreventionDialWait _,
    ByWithAmplificationAttackPreventionDialWait _
  | ByWithThrottlePeerDuration _, ByWithThrottlePeerDuration _ => true
  | _, _ => false
  end.

End Settings.

Arguments mkSettings {_ _ _}.
Arguments allowPrivate {_ _ _} _.
Arguments serverRPM {_ _ _} _.
Arguments serverPerPeerRPM {_ _ _} _.
Arguments serverDialDataRPM {_ _ _} _.
Arguments maxConcurrentRequestsPerPeer {_ _ _} _.
Arguments dataRequestPolicy {_ _ _} _.
Arguments now {_ _ _} _.
Arguments amplificatonAttackPreventionDialWait {_ _ _} _.
Arguments metricsTracer {_ _ _} _.
Arguments throttlePeerDuration {_ _ _} _.
Arguments defaultSettings {_ _ _}.
Arguments WithServerRateLimit {_ _ _}.
Arguments WithMetricsTracer {_ _ _}.
Arguments withDataRequestPolicy {_ _ _}.
Arguments allowPrivateAddrs {_ _ _}.
Arguments withAmplificationAttackPreventionDialWait {_ _ _}.
Arguments withThrottlePeerDuration {_ _ _}.
Arguments ByAllowPrivateAddrs {_ _}.
Arguments ByWithServerRateLimit {_ _}.
Arguments ByWithMetricsTracer {_ _}.
Arguments ByWithDataRequestPolicy {_ _}.
Arguments ByWithAmplificationAttackPreventionDialWait {_ _}.
Arguments ByWithThrottlePeerDuration {_ _}.
Arguments option_of {_ _ _}.
Arguments same_function {_ _}.

End autonatv2.

(** ** More scripted collaborators *)

Module MoreScenarios.
Import Scenario.

(** A connection of the peer that came in over a relay. *)
Definition relayed : Conn :=
  mkConn DirInbound "/ip4/203.0.113.1/tcp/4001/p2p/QmRelay/p2p-circuit" "QmA".

(** A direct connection to the peer. *)
Definition straight : Conn := mkConn DirOutbound "/ip4/198.51.100.9/tcp/4001" "QmA".

(** The host has a direct connection to the peer already. *)
Definition already_connected : script :=
  mkScript (Some straight) (known timeouts) (dial timeouts) (listen timeouts)
    (open_stream timeouts) (reply timeouts) (latency timeouts)
    (timer_fires timeouts) (punches timeouts) (identified timeouts).

(** The peerstore has a private and a public address of the peer, and the
    direct dial gets through. *)
Definition public_peer : script :=
  mkScript None ["/ip4/192.168.1.7/tcp/4001"; "/ip4/198.51.100.9/tcp/4001"] None
    (listen timeouts) (open_stream timeouts) (reply timeouts) (latency timeouts)
    (timer_fires timeouts) (punches timeouts) (identified timeouts).

(** The same, and the direct dial fails. *)
Definition public_peer_down : script :=
  mkScript None ["/ip4/192.168.1.7/tcp/4001"; "/ip4/198.51.100.9/tcp/4001"]
    (Some (foreign "dial backoff"))
    (listen timeouts) (open_stream timeouts) (reply timeouts) (latency timeouts)
    (timer_fires timeouts) (punches timeouts) (identified timeouts).

(** The first timed connect fails and the second one succeeds. *)
Definition second_punch_works : script :=
  mkScript None (known timeouts) (dial timeouts) (listen timeouts)
    (open_stream timeouts) (reply timeouts) (latency timeouts) (timer_fires timeouts)
    (fun n => match n with
              | O => Some (foreign "context deadline exceeded")
              | S _ => None
              end)
    (identified timeouts).

(** A call whose stream is refused, run to its return, then [Close] run to
    its return. *)
Definition call_to_the_end : list nat :=
  List.repeat 0%nat 15 ++ List.repeat 1%nat 5.

(** [Connected] for a relayed connection: it raises the counter and starts
    its goroutine. *)
Definition notified : list request := [ReqConnected relayed].

Definition spawned : list nat := [0; 0]%nat.

(** [Connected], its goroutine run up to its exchange, and a [Close] that
    waits for it. *)
Definition notified_and_closed : list request := [ReqConnected relayed; ReqClose].

Definition close_waits : list nat :=
  [0; 0]%nat ++ List.repeat 2%nat 9 ++ List.repeat 1%nat 4.

(** Two calls for the same peer, the first run up to its lookup in
    [hp.active]. *)
Definition up_to_the_lookup : list nat := [0; 0; 0]%nat.

End MoreScenarios.

(** * Proofs *)

(** ** Running a program *)

Section Running.
Context {maddr : AddrOps} {env : World}.

(** Induction on a program at a fixed result type. *)
Lemma prog_induction {R} (P : prog R -> Prop) :
  (forall r, P (Ret r)) ->
  (forall X (e : event X) k, (forall x, P (k x)) -> P (Vis e k)) ->
  (forall task k, P k -> P (Go task k)) ->
  forall t, P t.
Proof.
  intros HRet HVis HGo. fix IH 1. intros [r | X e k | task k].
  - apply HRet.
  - apply HVis. intros x. apply IH.
  - apply HGo. apply IH.
Qed.

Lemma run_bind_inv {A B} (t : prog A) (f : A -> prog B) hp w r hp2 w2 tr :
  run (bind t f) hp w = Some (r, hp2, w2, tr) ->
  exists x hp1 w1 tr1 tr2,
    run t hp w = Some (x, hp1, w1, tr1)
    /\ run (f x) hp1 w1 = Some (r, hp2, w2, tr2)
    /\ tr = tr1 ++ tr2.
Proof.
  revert hp w tr.
  induction t as [x | X e k IH | task k IHk] using prog_induction; intros hp w tr Hrun.
  - exists x, hp, w, [], tr. auto.
  - simpl in Hrun. simpl.
    destruct (handle true e hp w) as [[[x hp1] w1]|]; [|discriminate].
    destruct (run (bind (k x) f) hp1 w1) as [[[[r' hp'] w'] tr']|] eqn:E; [|discriminate].
    inversion Hrun; subst.
    destruct (IH _ _ _ _ E) as (y & hpa & wa & tr1 & tr2 & E1 & E2 & ->).
    exists y, hpa, wa, (Did e x :: tr1), tr2. rewrite E1. auto.
  - discriminate.
Qed.

Lemma run_bind {A B} (t : prog A) (f : A -> prog B) hp w x hp1 w1 tr1 :
  run t hp w = Some (x, hp1, w1, tr1) ->
  run (bind t f) hp w =
    match run (f x) hp1 w1 with
    | Some (r, hp2, w2, tr2) => Some (r, hp2, w2, tr1 ++ tr2)
    | None => None
    end.
Proof.
  revert hp w tr1.
  induction t as [y | X e k IH | task k IHk] using prog_induction; intros hp w tr1 Hrun.
  - simpl in Hrun. inversion Hrun; subst. simpl.
    destruct (run (f x) hp1 w1) as [[[[? ?] ?] ?]|]; reflexivity.
  - simpl in Hrun. simpl.
    destruct (handle true e hp w) as [[[y hpa] wa]|]; [|discriminate].
    destruct (run (k y) hpa wa) as [[[[r' hp'] w'] tr']|] eqn:E; [|discriminate].
    inversion Hrun; subst.
    rewrite (IH _ _ _ _ E).
    destruct (run (f x) hp1 w1) as [[[[? ?] ?] ?]|]; reflexivity.
  - discriminate.
Qed.

Lemma milestones_app tr1 tr2 :
  milestones (tr1 ++ tr2) = milestones tr1 ++ milestones tr2.
Proof. unfold milestones. apply omap_app. Qed.

End Running.

(** ** Counting over program points, and quiet programs *)

Section Quiet.
Context {maddr : AddrOps} {env : World}.

(** *** Counting over the program points *)

Lemma total_app f (l k : list phase) : total f (l ++ k) = (total f l + total f k)%nat.
Proof. unfold total. induction l as [|x l IH]; cbn; [reflexivity | rewrite IH; lia]. Qed.

Lemma total_insert f (l : list phase) i x y :
  l !! i = Some x ->
  (total f (<[i := y]> l) + f x = total f l + f y)%nat.
Proof.
  unfold total.
  revert i. induction l as [|a l IH]; intros [|i] Hi; simplify_eq/=; [lia|].
  specialize (IH _ Hi). lia.
Qed.

Lemma total_lookup f (l : list phase) i x :
  l !! i = Some x -> (f x <= total f l)%nat.
Proof.
  unfold total.
  revert i. induction l as [|a l IH]; intros [|i] Hi; cbn in *; try discriminate.
  - inversion Hi; subst. lia.
  - specialize (IH _ Hi). lia.
Qed.

Lemma total_two f (l : list phase) i j x y :
  i <> j -> l !! i = Some x -> l !! j = Some y -> (f x + f y <= total f l)%nat.
Proof.
  revert i j. induction l as [|a l IH]; intros [|i] [|j] Hne Hi Hj;
    simplify_eq/=.
  - apply (total_lookup f) in Hj. unfold total in *. cbn. lia.
  - apply (total_lookup f) in Hi. unfold total in *. cbn. lia.
  - assert (i <> j) as Hij by congruence. specialize (IH _ _ Hij Hi Hj).
    unfold total in *. cbn. lia.
Qed.

Lemma total_pos f (l : list phase) :
  (0 < total f l)%nat -> exists i x, l !! i = Some x /\ (0 < f x)%nat.
Proof.
  unfold total. induction l as [|a l IH]; cbn; [lia|]. intros Hpos.
  destruct (f a) eqn:Ea.
  - destruct IH as (i & x & Hi & Hx); [lia|]. exists (S i), x. auto.
  - exists 0%nat, a. split; [reflexivity | lia].
Qed.

Lemma total_le f g (l : list phase) :
  (forall x, (f x <= g x)%nat) -> (total f l <= total g l)%nat.
Proof.
  intros Hfg. unfold total.
  induction l as [|a l IH]; cbn; [lia | specialize (Hfg a); lia].
Qed.

(** *** Quiet programs *)

Lemma quiet_bind {A B} (t : prog A) (f : A -> prog B) :
  quiet t -> (forall x, quiet (f x)) -> quiet (bind t f).
Proof.
  intros Ht Hf. induction Ht as [r | X e k He Hk IH]; cbn; [apply Hf|].
  constructor; assumption.
Qed.

Lemma quiet_call {X} (e : extE X) : quiet (call e).
Proof. constructor; [reflexivity | intros; constructor]. Qed.

Lemma quiet_initiateHolePunch rp : quiet (initiateHolePunch rp).
Proof.
  unfold initiateHolePunch, initiateHolePunchImpl, defer, call, trigger, failed.
  repeat first
    [ apply quiet_Ret
    | apply quiet_bind
    | apply quiet_Vis; [reflexivity|]
    | intros []
    | intros ?
    | match goal with |- quiet (match ?x with _ => _ end) => destruct x end
    | match goal with |- quiet (if ?x then _ else _) => destruct x end ].
Qed.

Lemma quiet_directDial rp addrs : quiet (directDial rp addrs).
Proof.
  induction addrs as [|a rest IH]; cbn [directDial]; [constructor|].
  destruct (negb (isRelayAddress a) && IsPublicAddr a); [|exact IH].
  unfold call, trigger.
  repeat first
    [ apply quiet_Ret
    | apply quiet_bind
    | apply quiet_Vis; [reflexivity|]
    | intros ?
    | match goal with |- quiet (match ?x with _ => _ end) => destruct x end ].
Qed.

Lemma quiet_holePunchLoop rp n : forall i, quiet (holePunchLoop rp n i).
Proof.
  induction n as [|n IH]; intros i; cbn [holePunchLoop]; [constructor|].
  apply quiet_bind; [apply quiet_initiateHolePunch|].
  intros [[[addrs obs] rtt] [err|]]; unfold punch, call, trigger.
  - repeat first [apply quiet_Ret | apply quiet_Vis; [reflexivity|] | intros ?].
  - repeat first
      [ apply quiet_Ret
      | apply IH
      | apply quiet_bind
      | apply quiet_Vis; [reflexivity|]
      | intros ?
      | match goal with |- quiet (match ?x with _ => _ end) => destruct x end
      | match goal with |- quiet (if ?x then _ else _) => destruct x end ].
Qed.

Lemma quiet_directConnect rp : quiet (directConnect rp).
Proof.
  unfold directConnect, call, trigger.
  apply quiet_Vis; [reflexivity|]. intros [c|]; [constructor|].
  apply quiet_Vis; [reflexivity|]. intros _.
  apply quiet_Vis; [reflexivity|]. intros addrs.
  apply quiet_bind; [apply quiet_directDial|].
  intros [res|]; [constructor | apply quiet_holePunchLoop].
Qed.

Lemma handle_quiet {X} (e : event X) hp w x hp1 w1 :
  quiet_event e = true ->
  handle false e hp w = Some (x, hp1, w1) ->
  hp1 = hp /\ active_op_of (Did e x) = None.
Proof.
  intros Hq Hh. destruct e; try discriminate Hq; cbn in Hh.
  - destruct (world X e w). inversion Hh; subst. auto.
  - inversion Hh; auto.
  - inversion Hh; auto.
  - inversion Hh; auto.
  - inversion Hh; auto.
  - destruct (world _ TimerChan w) as [[start|] w2]; [inversion Hh; auto|].
    unfold select_done in Hh. destruct (ctx_done hp); inversion Hh; auto.
Qed.

Lemma active_ops_one en :
  active_ops [en] = match active_op_of en with Some o => [o] | None => [] end.
Proof. unfold active_ops. cbn. destruct (active_op_of en); reflexivity. Qed.

Lemma active_ops_app h1 h2 : active_ops (h1 ++ h2) = active_ops h1 ++ active_ops h2.
Proof. unfold active_ops. apply omap_app. Qed.

Lemma dc_step p pc t hp w t1 hp1 w1 en new :
  at_dc p pc t ->
  step_prog t hp w = Some (t1, hp1, w1, en, new) ->
  exists pc1,
    at_dc p pc1 t1 /\ new = []
    /\ dc_moves p hp pc hp1 pc1
    /\ ops_at p pc ++ active_ops en = ops_at p pc1.
Proof.
  intros Hat Hstep. destruct Hat; cbn in Hstep.
  - (* pcBegin *)
    destruct (writer (closeMx hp)) eqn:Ew; [discriminate|].
    inversion Hstep; subst; clear Hstep.
    exists pcRLocked. repeat split; [apply at_pcRLocked | by constructor].
  - (* pcRLocked *)
    inversion Hstep; subst; clear Hstep.
    destruct (closed hp1) eqn:Ec.
    + exists pcClosed. repeat split; [apply at_pcClosed | by constructor].
    + exists pcOpen. repeat split; [apply at_pcOpen | by constructor].
  - (* pcClosed *)
    destruct (readers (closeMx hp)) eqn:Er; [discriminate|].
    inversion Hstep; subst; clear Hstep.
    exists pcRejectedClosed. repeat split; [apply at_pcRejectedClosed | by econstructor].
  - (* pcOpen *)
    destruct (activeMx hp) eqn:Ea; [discriminate|].
    inversion Hstep; subst; clear Hstep.
    exists pcLocked. repeat split; [apply at_pcLocked | by constructor].
  - (* pcLocked *)
    inversion Hstep; subst; clear Hstep.
    destruct (bool_decide (p ∈ active hp1)) eqn:Ep.
    + apply bool_decide_eq_true in Ep.
      exists pcDup1. repeat split; [apply at_pcDup1 | by constructor].
    + apply bool_decide_eq_false in Ep.
      exists pcFree. repeat split; [apply at_pcFree | by constructor].
  - (* pcDup1 *)
    destruct (activeMx hp) eqn:Ea; [|discriminate].
    inversion Hstep; subst; clear Hstep.
    exists pcDup2. repeat split; [apply at_pcDup2 | by constructor].
  - (* pcDup2 *)
    destruct (readers (closeMx hp)) eqn:Er; [discriminate|].
    inversion Hstep; subst; clear Hstep.
    exists pcRejectedActive. repeat split; [apply at_pcRejectedActive | by econstructor].
  - (* pcFree *)
    inversion Hstep; subst; clear Hstep.
    exists pcStored. repeat split; [apply at_pcStored | by constructor].
  - (* pcStored *)
    destruct (activeMx hp) eqn:Ea; [|discriminate].
    inversion Hstep; subst; clear Hstep.
    exists pcAdmitted. repeat split; [apply at_pcAdmitted | by constructor].
  - (* pcAdmitted *)
    destruct (readers (closeMx hp)) eqn:Er; [discriminate|].
    inversion Hstep; subst; clear Hstep.
    exists pcBody. repeat split; [|by econstructor].
    exact (at_pcBody p (directConnect p) (quiet_directConnect p)).
  - (* pcBody *)
    match goal with Hq : quiet _ |- _ => destruct Hq as [r | X e k He Hk] end; cbn in Hstep.
    + destruct (activeMx hp) eqn:Ea; [discriminate|].
      inversion Hstep; subst; clear Hstep.
      exists pcDelete. repeat split; [apply at_pcDelete | by constructor].
    + destruct (handle false e hp w) as [[[x hp2] w2]|] eqn:Eh; [|discriminate].
      inversion Hstep; subst; clear Hstep.
      apply handle_quiet in Eh as [-> Hop]; [|assumption].
      exists pcBody. repeat split; [exact (at_pcBody p (k x) (Hk x)) | constructor |].
      rewrite active_ops_one, Hop. reflexivity.
  - (* pcDelete *)
    inversion Hstep; subst; clear Hstep.
    exists pcDeleted. repeat split; [apply at_pcDeleted | by constructor].
  - (* pcDeleted *)
    destruct (activeMx hp) eqn:Ea; [|discriminate].
    inversion Hstep; subst; clear Hstep.
    exists pcReturned. repeat split; [apply at_pcReturned | by constructor].
  - discriminate.
  - discriminate.
  - discriminate.
Qed.

End Quiet.

(** ** One call on its own *)

Ltac ask_world H :=
  match type of H with
  | context [world ?X ?e ?w] =>
      let E := fresh "Ew" in destruct (world X e w) as [? ?] eqn:E; cbn in H
  end.

Ltac split_answer H :=
  match type of H with
  | context [fst ?p] => is_var p; destruct p; cbn in H
  | context [snd ?p] => is_var p; destruct p; cbn in H
  | context [match ?o with _ => _ end] => is_var o; destruct o; cbn in H
  | context [if ?b then _ else _] =>
      let E := fresh "Eb" in destruct b eqn:E; cbn in H
  | context [match ?n with O => _ | S _ => _ end] =>
      let E := fresh "En" in destruct n eqn:E; cbn in H
  end.

Ltac symex H :=
  cbn in H;
  repeat first
    [ discriminate H
    | ask_world H
    | progress (unfold select_done in H; cbn in H)
    | split_answer H ].


Section Sequential.
Context {maddr : AddrOps} {env : World}.

#[local] Arguments filterLocal : simpl never.
#[local] Arguments filterRemote : simpl never.
#[local] Arguments no_addrs : simpl never.
#[local] Arguments Z.add : simpl never.
#[local] Arguments Z.sub : simpl never.
#[local] Arguments Z.quot : simpl never.
#[local] Arguments Z.eqb : simpl never.

(** A quiet program performs no operation on [hp.active] and changes no
    field of the receiver but [ctx_done]. *)
Lemma run_quiet {R} (t : prog R) : quiet t -> forall hp w r hp1 w1 tr,
  run t hp w = Some (r, hp1, w1, tr) ->
  active_ops tr = [] /\ (hp1 = hp \/ hp1 = set_ctx_done true hp).
Proof.
  induction 1 as [r0 | X e k He Hk IH]; intros hp w r hp1 w1 tr Hrun; cbn in Hrun.
  - inversion Hrun; subst. auto.
  - destruct (handle true e hp w) as [[[x hp2] w2]|] eqn:Eh; [|discriminate].
    destruct (run (k x) hp2 w2) as [[[[r' hp'] w'] tr']|] eqn:Er; [|discriminate].
    inversion Hrun; subst; clear Hrun.
    apply IH in Er as [Hops Hhp].
    assert (active_op_of (Did e x) = None
            /\ (hp2 = hp \/ hp2 = set_ctx_done true hp)) as [Hop Hhp2].
    { destruct e; try discriminate He; cbn in Eh.
      - destruct (world X e w). inversion Eh; subst. auto.
      - inversion Eh; auto.
      - inversion Eh; auto.
      - inversion Eh; auto.
      - inversion Eh; auto.
      - destruct (world _ TimerChan w) as [[start|] w3]; [inversion Eh; auto|].
        unfold select_done in Eh. destruct (ctx_done hp) eqn:Ec; inversion Eh; auto. }
    split.
    + change (Did e x :: tr') with ([Did e x] ++ tr').
      rewrite active_ops_app, active_ops_one, Hop, Hops. reflexivity.
    + destruct Hhp as [-> | ->], Hhp2 as [-> | ->]; auto.
Qed.

Lemma DirectConnect_run p hp w res hp1 w1 tr :
  run (DirectConnect p) hp w = Some (res, hp1, w1, tr) ->
  (closed hp = true /\ res = Some ErrClosed /\ hp1 = hp
   /\ active_ops tr = [] /\ milestones tr = [])
  \/ (closed hp = false /\ p ∈ active hp /\ res = Some ErrHolePunchActive
      /\ hp1 = hp /\ active_ops tr = [Lookup p true] /\ milestones tr = [])
  \/ (closed hp = false /\ (p ∉ active hp)
      /\ exists hpb trb,
          run (directConnect p) (set_active ({[p]} ∪ active hp) hp) w
            = Some (res, hpb, w1, trb)
          /\ hp1 = set_active (active hpb ∖ {[p]}) hpb
          /\ active_ops tr = [Lookup p false; Store p; Delete p]
          /\ milestones tr = milestones trb).
Proof.
  intros Hrun. unfold DirectConnect in Hrun.
  apply run_bind_inv in Hrun as (err & hpa & wa & tr1 & tr2 & Hbegin & Hrest & ->).
  unfold beginDirectConnect in Hbegin. symex Hbegin.
  all: inversion Hbegin; subst; clear Hbegin.
  - left. cbn in Hrest. inversion Hrest; subst; clear Hrest.
    repeat split; try reflexivity. destruct hp as [? ? ? ? ? [? ?] ? ? ?].
    cbn in *. subst. reflexivity.
  - right. left. cbn in Hrest. inversion Hrest; subst; clear Hrest.
    apply bool_decide_eq_true in Eb2.
    repeat split; try reflexivity; try assumption.
    destruct hp as [? ? ? ? ? [? ?] ? ? ?]. cbn in *. subst. reflexivity.
  - right. right. apply bool_decide_eq_false in Eb2.
    split; [reflexivity|]. split; [assumption|].
    match type of Hrest with
    | run _ ?st _ = _ =>
        assert (st = set_active ({[p]} ∪ active hp) hp) as Heq
          by (destruct hp as [? ? ? ? ? [? ?] ? ? ?]; cbn in *; subst; reflexivity);
        rewrite Heq in Hrest; clear Heq
    end.
    unfold defer in Hrest.
    apply run_bind_inv in Hrest as (r & hpb & wb & trb & tr3 & Hbody & Hrel & ->).
    pose proof (run_quiet _ (quiet_directConnect p) _ _ _ _ _ _ Hbody) as [Hops Hhp].
    unfold release in Hrel. symex Hrel. inversion Hrel; subst; clear Hrel.
    exists hpb, trb.
    split; [exact Hbody|]. split.
    + destruct hpb as [? ? ? ? ? [? ?] ? ? ?]. cbn in *. subst. reflexivity.
    + rewrite !active_ops_app, !milestones_app, Hops. cbn.
      rewrite app_nil_r. split; reflexivity.
Qed.

Lemma initiateHolePunch_trace rp hp w x hp1 w1 tr :
  run (initiateHolePunch rp) hp w = Some (x, hp1, w1, tr) ->
  hp1 = hp /\ milestones tr = [MExchange rp].
Proof.
  intros Hrun. unfold initiateHolePunch, initiateHolePunchImpl in Hrun.
  symex Hrun; inversion Hrun; subst; clear Hrun; split; reflexivity.
Qed.

Lemma holePunchLoop_trace rp n : forall i hp w res hp1 w1 tr,
  run (holePunchLoop rp n i) hp w = Some (res, hp1, w1, tr) ->
  loop_trace rp (legacyBehavior hp) n i (milestones tr) res.
Proof.
  induction n as [|n IH]; intros i hp w res hp1 w1 tr Hrun.
  - cbn in Hrun. inversion Hrun; subst. constructor.
  - cbn [holePunchLoop] in Hrun.
    apply run_bind_inv in Hrun as (x & hpa & wa & tr1 & tr2 & Hex & Hrest & ->).
    apply initiateHolePunch_trace in Hex as [-> Hm1].
    rewrite milestones_app, Hm1.
    destruct x as [[[addrs obs] rtt] e].
    destruct e as [err|].
    + symex Hrest. inversion Hrest; subst. cbn. constructor.
    + unfold punch in Hrest. symex Hrest.
      all: try match type of Hrest with
             | context [run (holePunchLoop ?a ?b ?c) ?d ?e] =>
                 destruct (run (holePunchLoop a b c) d e) as [[[[? ?] ?] ?]|] eqn:Hloop;
                 cbn in Hrest; [apply IH in Hloop|discriminate Hrest]
             end.
      all: inversion Hrest; subst; clear Hrest; cbn.
      all: try match goal with
             | |- loop_trace _ ?l _ _ _ None => exact (loop_connected rp l n i _ _ addrs _)
             | |- loop_trace _ ?l _ _ _ (Some context_Canceled) =>
                 exact (loop_cancelled rp l n i _)
             end.
      all: try congruence.
      all: match goal with
           | Hl : loop_trace _ _ _ _ _ _, Ei : (_ =? maxRetries) = _,
             El : legacyBehavior _ = _ |- _ =>
               cbn in Hl; rewrite El in Hl;
               pose proof (loop_retry _ _ _ _ (rtt `quot` 2) z addrs e _ _ Hl) as Hr;
               rewrite Ei in Hr; exact Hr
           end.
Qed.



Lemma milestones_cons en tr :
  milestones (en :: tr) =
    match milestone_of en with
    | Some m => m :: milestones tr
    | None => milestones tr
    end.
Proof. reflexivity. Qed.

Lemma directDial_trace rp addrs : forall hp w r hp1 w1 tr,
  run (directDial rp addrs) hp w = Some (r, hp1, w1, tr) ->
  hp1 = hp /\ milestones tr = [] /\ (r = None \/ r = Some None).
Proof.
  induction addrs as [|a rest IH]; intros hp w r hp1 w1 tr Hrun;
    cbn [directDial] in Hrun.
  - cbn in Hrun. inversion Hrun; subst. auto.
  - destruct (negb (isRelayAddress a) && IsPublicAddr a); [|eauto].
    symex Hrun; inversion Hrun; subst; auto.
Qed.

Lemma directConnect_trace rp hp w res hp1 w1 tr :
  run (directConnect rp) hp w = Some (res, hp1, w1, tr) ->
  (res = None /\ milestones tr = [])
  \/ loop_trace rp (legacyBehavior hp) (Z.to_nat maxRetries) 1 (milestones tr) res.
Proof.
  intros Hrun. unfold directConnect in Hrun. cbn in Hrun.
  destruct (world _ (GetDirectConnection rp) w) as [c wa] eqn:E0. cbn in Hrun.
  destruct c as [c|]; cbn in Hrun.
  { inversion Hrun; subst. left. auto. }
  destruct (world _ (PeerstoreAddrs rp) wa) as [l0 wb] eqn:E1. cbn in Hrun.
  destruct (world _ (PeerstoreAddrs rp) wb) as [l1 wc] eqn:E2. cbn in Hrun.
  match type of Hrun with
  | context [run ?t ?h ?ww] =>
      destruct (run t h ww) as [[[[r2 hp2] w2] tr2]|] eqn:Hrest; [|discriminate]
  end.
  inversion Hrun; subst; clear Hrun.
  apply run_bind_inv in Hrest as (r & hpa & wd & tra & trb & Hdial & Hloop & ->).
  apply directDial_trace in Hdial as (-> & Hm & Hr).
  rewrite !milestones_cons. cbn [milestone_of milestone_of_ext].
  rewrite milestones_app, Hm. cbn [app].
  destruct r as [r|].
  - cbn in Hloop. inversion Hloop; subst. left.
    destruct Hr as [Hr|Hr]; inversion Hr. auto.
  - right. eapply holePunchLoop_trace. exact Hloop.
Qed.

Lemma DirectConnect_trace p hp w res hp1 w1 tr :
  run (DirectConnect p) hp w = Some (res, hp1, w1, tr) ->
  milestones tr = []
  \/ loop_trace p (legacyBehavior hp) (Z.to_nat maxRetries) 1 (milestones tr) res.
Proof.
  intros Hrun.
  apply DirectConnect_run in Hrun
    as [(_ & _ & _ & _ & Hm) | [(_ & _ & _ & _ & _ & Hm) | (_ & _ & hpb & trb & Hb & _ & _ & Hm)]];
    auto.
  rewrite Hm. apply directConnect_trace in Hb as [[_ Hb] | Hb]; auto.
Qed.

Lemma loop_protocol_error_last rp lb n i ms res :
  loop_trace rp lb n i ms res ->
  forall q err, In (MProtocolError q err) ms ->
    res = Some err /\ exists pre, ms = pre ++ [MProtocolError q err].
Proof.
  induction 1 as [i | n i err0 | n i d | n i d start addrs c
                 | n i d start addrs err0 rest res Hrest IH]; intros q err Hin.
  - destruct Hin.
  - destruct Hin as [Hin|[Hin|[]]]; inversion Hin; subst.
    split; [reflexivity|]. by exists [MExchange q].
  - cbn in Hin. intuition discriminate.
  - cbn in Hin. intuition discriminate.
  - apply in_app_or in Hin as [Hin|Hin]; [cbn in Hin; intuition discriminate|].
    apply in_app_or in Hin as [Hin|Hin].
    + destruct (i =? maxRetries); cbn in Hin; intuition discriminate.
    + destruct (IH _ _ Hin) as [-> [pre ->]]. split; [reflexivity|].
      eexists. rewrite !app_assoc. reflexivity.
Qed.

Lemma loop_cancel_last rp lb n i ms res :
  loop_trace rp lb n i ms res ->
  In (MWake CtxDone) ms ->
  res = Some context_Canceled
  /\ exists pre, ms = pre ++ [MWake CtxDone; MStop; MCtxErr (Some context_Canceled)].
Proof.
  induction 1 as [i | n i err0 | n i d | n i d start addrs c
                 | n i d start addrs err0 rest res Hrest IH]; intros Hin.
  - destruct Hin.
  - cbn in Hin. intuition discriminate.
  - split; [reflexivity|]. by exists [MExchange rp; MTimer d].
  - cbn in Hin. intuition discriminate.
  - apply in_app_or in Hin as [Hin|Hin]; [cbn in Hin; intuition discriminate|].
    apply in_app_or in Hin as [Hin|Hin].
    + destruct (i =? maxRetries); cbn in Hin; intuition discriminate.
    + destruct (IH Hin) as [-> [pre ->]]. split; [reflexivity|].
      eexists. rewrite !app_assoc. reflexivity.
Qed.

Lemma exchanges_app a b : exchanges (a ++ b) = (exchanges a + exchanges b)%nat.
Proof. unfold exchanges. rewrite List.filter_app, length_app. reflexivity. Qed.

Lemma failures_app a b : failures (a ++ b) = (failures a + failures b)%nat.
Proof. unfold failures. rewrite omap_app, List.filter_app, length_app. reflexivity. Qed.

Lemma loop_retries_after_failures rp lb n i ms res :
  loop_trace rp lb n i ms res ->
  (exchanges ms <= n)%nat /\ (exchanges ms <= S (failures ms))%nat.
Proof.
  induction 1 as [i | n i err0 | n i d | n i d start addrs c
                 | n i d start addrs err0 rest res Hrest [IH1 IH2]].
  1-4: cbn; lia.
  rewrite !exchanges_app, !failures_app.
  destruct (i =? maxRetries); cbn in *; lia.
Qed.

Lemma loop_all_failed rp lb n i ms res :
  loop_trace rp lb n i ms res ->
  failures ms = n ->
  res = Some (errAllRetriesFailed rp)
  /\ exchanges ms = n
  /\ (i <= maxRetries < i + Z.of_nat n ->
      In (MFinished "initiator" maxRetries None) ms).
Proof.
  induction 1 as [i | n i err0 | n i d | n i d start addrs c
                 | n i d start addrs err0 rest res Hrest IH]; intros Hf.
  - repeat split. lia.
  - discriminate Hf.
  - discriminate Hf.
  - discriminate Hf.
  - rewrite !failures_app in Hf. rewrite !exchanges_app.
    assert (failures rest = n) as Hn.
    { destruct (i =? maxRetries); cbn in Hf; lia. }
    destruct (IH Hn) as (-> & He & Hfin). split; [reflexivity|]. split.
    + destruct (i =? maxRetries); cbn; lia.
    + intros Hi. apply in_or_app. right. apply in_or_app.
      destruct (i =? maxRetries) eqn:Ei.
      * left. left. reflexivity.
      * right. apply Hfin. apply Z.eqb_neq in Ei. lia.
Qed.

Lemma loop_roles rp lb n i ms res :
  loop_trace rp lb n i ms res ->
  List.map fst (omap punch_of ms) = List.map negb (omap legacy_of ms)
  /\ Forall (eq lb) (omap legacy_of ms).
Proof.
  induction 1 as [i | n i err0 | n i d | n i d start addrs c
                 | n i d start addrs err0 rest res Hrest [IH1 IH2]].
  1-3: cbn; split; [reflexivity | constructor].
  - cbn. split; [reflexivity | repeat constructor].
  - rewrite !omap_app, !List.map_app.
    destruct (i =? maxRetries); cbn; rewrite IH1;
      (split; [reflexivity | constructor; [reflexivity | assumption]]).
Qed.

Lemma no_addrs_nil (l : list Multiaddr) : no_addrs l = true <-> l = [].
Proof. destruct l; unfold no_addrs; split; congruence. Qed.

Ltac tidy :=
  subst;
  repeat match goal with
    | E : no_addrs _ = true |- _ => apply no_addrs_nil in E
    | E : no_addrs ?l = false, E' : ?l = [] |- _ => rewrite E' in E; discriminate E
    | E : negb _ = false |- _ => apply negb_false_iff in E
    | E : negb _ = true |- _ => apply negb_true_iff in E
    | E : HolePunch_Type_eqb ?x _ = false, E' : ?x = _ |- _ =>
        rewrite E' in E; discriminate E
    end.

(** What a run of the exchange on an open stream looks like on the wire. *)
Lemma exchange_of_run str hp w res hp1 w1 tr :
  run (initiateHolePunchImpl str) hp w = Some (res, hp1, w1, tr) ->
  (forall addrs obs rtt,
      res = (addrs, obs, rtt, None) ->
      exists d0 t0 t1 msg la,
        on_wire tr =
          [Clock d0; Clock t0;
           Sent (mkHolePunch HolePunch_CONNECT (addrsToBytes obs));
           Got msg None; Clock t1;
           Sent (mkHolePunch HolePunch_SYNC [])]
        /\ msgType msg = HolePunch_CONNECT
        /\ rtt = t1 - t0
        /\ listened tr = [la]
        /\ obs = filterLocal (filter hp) (stream_RemotePeer str) (removeRelayAddrs la)
        /\ addrs = filterRemote (filter hp) (stream_RemotePeer str)
                     (removeRelayAddrs (addrsFromBytes (ObsAddrs msg))))
  /\ (forall msg,
      In (msg, None) (got tr) ->
      msgType msg <> HolePunch_CONNECT ->
      res = failed (errNotConnect (msgType msg))
      /\ exists d0 t0 t1 obs,
          on_wire tr =
            [Clock d0; Clock t0;
             Sent (mkHolePunch HolePunch_CONNECT (addrsToBytes obs));
             Got msg None; Clock t1]).
Proof.
  intros Hrun. unfold initiateHolePunchImpl in Hrun.
  symex Hrun; inversion Hrun; subst; clear Hrun; cbn;
    (split;
     [ intros addrs obs rtt Hres; try discriminate Hres
     | intros msg Hin Hkind; try (destruct Hin as [Hin|[]]); try tauto;
       try (inversion Hin; subst; clear Hin) ]).
  all: tidy.
  - split; [reflexivity|]. eexists _, _, _, _. reflexivity.
  - exfalso. apply Hkind. destruct (msgType msg); [reflexivity | discriminate].
  - exfalso. apply Hkind. destruct (msgType msg); [reflexivity | discriminate].
  - inversion Hres; subst. eexists _, _, _, _, _. repeat split.
    destruct (msgType h); [reflexivity | discriminate].
  - exfalso. apply Hkind. destruct (msgType msg); [reflexivity | discriminate].
Qed.

(** The two ways the exchange ends for want of addresses. *)
Lemma no_address_of_run str hp w res hp1 w1 tr :
  run (initiateHolePunchImpl str) hp w = Some (res, hp1, w1, tr) ->
  (forall la,
      In la (listened tr) ->
      filterLocal (filter hp) (stream_RemotePeer str) (removeRelayAddrs la) = [] ->
      res = failed errNoLocalAddr
      /\ is_NoPublicAddress errNoLocalAddr = true
      /\ sent tr = [])
  /\ (forall msg,
      In (msg, None) (got tr) ->
      msgType msg = HolePunch_CONNECT ->
      filterRemote (filter hp) (stream_RemotePeer str)
        (removeRelayAddrs (addrsFromBytes (ObsAddrs msg))) = [] ->
      res = failed errNoRemoteAddr
      /\ is_NoPublicAddress errNoRemoteAddr = true
      /\ exists obs, obs <> []
         /\ sent tr = [mkHolePunch HolePunch_CONNECT (addrsToBytes obs)]).
Proof.
  intros Hrun. unfold initiateHolePunchImpl in Hrun.
  symex Hrun; inversion Hrun; subst; clear Hrun; cbn;
    (split; [intros la | intros msg]; intros Hin; try (destruct Hin as [Hin|[]]);
     try tauto; try (inversion Hin; subst; clear Hin); cbn; intros).
  all: tidy.
  all: try (repeat split; reflexivity).
  repeat split. eexists; split; [|reflexivity].
  intros Hnil. rewrite Hnil in Eb. discriminate Eb.
Qed.

Lemma on_wire_cons en tr :
  on_wire (en :: tr) =
    match ext_obs wire_of en with
    | Some o => o :: on_wire tr
    | None => on_wire tr
    end.
Proof. reflexivity. Qed.

Lemma on_wire_app tr1 tr2 : on_wire (tr1 ++ tr2) = on_wire tr1 ++ on_wire tr2.
Proof. unfold on_wire. apply omap_app. Qed.

(** The exchange as [initiateHolePunch] runs it: the stream is opened and
    closed around it, which adds nothing on the wire. *)
Lemma initiateHolePunch_ok rp hp w addrs obs rtt hp1 w1 tr :
  run (initiateHolePunch rp) hp w = Some ((addrs, obs, rtt, None), hp1, w1, tr) ->
  exists d0 t0 t1 msg,
    on_wire tr =
      [Clock d0; Clock t0;
       Sent (mkHolePunch HolePunch_CONNECT (addrsToBytes obs));
       Got msg None; Clock t1;
       Sent (mkHolePunch HolePunch_SYNC [])]
    /\ rtt = t1 - t0.
Proof.
  intros Hrun. unfold initiateHolePunch in Hrun.
  apply run_bind_inv in Hrun as (s & hp0 & wa & tr0 & tr2 & Hopen & Hrest & ->).
  symex Hopen. inversion Hopen; subst; clear Hopen.
  destruct s as [str|err]; [|cbn in Hrest; discriminate].
  unfold defer in Hrest.
  apply run_bind_inv in Hrest as (x & hpa & wb & tra & trb & Himpl & Hclose & ->).
  apply run_bind_inv in Himpl as (y & hpc & wc & trc & trd & Himpl & Hwrap & ->).
  destruct y as [[[a o] r] [e|]]; symex Hwrap; inversion Hwrap; subst; clear Hwrap.
  - symex Hclose.
  - symex Hclose. inversion Hclose; subst; clear Hclose.
    destruct (exchange_of_run _ _ _ _ _ _ _ Himpl) as [Hok _].
    destruct (Hok _ _ _ eq_refl) as (d0 & t0 & t1 & msg & la & Hw & _ & Hrtt & _).
    exists d0, t0, t1, msg. split; [|assumption].
    rewrite !on_wire_app, Hw. reflexivity.
Qed.

(** An iteration that got through its exchange arms the timer with half
    the round-trip time that exchange measured. *)
Lemma wait_of_run rp n i hp w addrs obs rtt hp1 w1 tr1 res hp2 w2 tr :
  run (initiateHolePunch rp) hp w = Some ((addrs, obs, rtt, None), hp1, w1, tr1) ->
  run (holePunchLoop rp (S n) i) hp w = Some (res, hp2, w2, tr) ->
  exists d0 t0 t1 msg wk rest more,
    on_wire tr1 =
      [Clock d0; Clock t0;
       Sent (mkHolePunch HolePunch_CONNECT (addrsToBytes obs));
       Got msg None; Clock t1;
       Sent (mkHolePunch HolePunch_SYNC [])]
    /\ rtt = t1 - t0
    /\ tr = tr1 ++ rest
    /\ milestones rest = MTimer (Z.quot (t1 - t0) 2) :: MWake wk :: more
    /\ (t1 - t0 = 0 -> Z.quot (t1 - t0) 2 = 0)
    /\ (forall start,
          wk = Received start ->
          exists err more',
            more = MLegacy (legacyBehavior hp)
                   :: MPunch (mkAddrInfo rp addrs) (negb (legacyBehavior hp)) err
                   :: more').
Proof.
  intros Hex Hloop.
  destruct (initiateHolePunch_ok _ _ _ _ _ _ _ _ _ Hex) as (d0 & t0 & t1 & msg & Hw & Hrtt).
  pose proof (initiateHolePunch_trace _ _ _ _ _ _ _ Hex) as [-> _].
  cbn [holePunchLoop] in Hloop.
  apply run_bind_inv in Hloop as (x & hpa & wa & tra & rest & Hex2 & Hrest & ->).
  rewrite Hex in Hex2. inversion Hex2; subst x hpa wa tra; clear Hex2.
  exists d0, t0, t1, msg.
  unfold punch in Hrest. symex Hrest.
  all: try match type of Hrest with
         | context [run (holePunchLoop ?a ?b ?c) ?d ?e] =>
             destruct (run (holePunchLoop a b c) d e) as [[[[? ?] ?] ?]|] eqn:Hnext;
             cbn in Hrest; [|discriminate Hrest]
         end.
  all: inversion Hrest; subst; clear Hrest.
  all: eexists _, _, _; split; [exact Hw|]; split; [reflexivity|];
    split; [reflexivity|]; split; [cbn; reflexivity|]; split;
    [intros ->; reflexivity|].
  all: intros start Hwk; try discriminate Hwk; inversion Hwk; subst;
    eexists _, _; reflexivity.
Qed.

(** A failed exchange ends the loop and the call. *)
Lemma protocol_error_of_run :
  (forall rp n i hp w x hp1 w1 tr1 err,
      run (initiateHolePunch rp) hp w = Some (x, hp1, w1, tr1) ->
      snd x = Some err ->
      exists w2 tr,
        run (holePunchLoop rp (S n) i) hp w = Some (Some err, hp1, w2, tr)
        /\ milestones tr = [MExchange rp; MProtocolError rp err]
        /\ iterations tr = 1%nat)
  /\ (forall p hp w res hp1 w1 tr,
        run (DirectConnect p) hp w = Some (res, hp1, w1, tr) ->
        (forall q err,
            In (MProtocolError q err) (milestones tr) ->
            res = Some err
            /\ exists pre, milestones tr = pre ++ [MProtocolError q err])
        /\ (iterations tr <= S (failed_punches tr))%nat).
Proof.
  split.
  - intros rp n i hp w [[[addrs obs] rtt] e] hp1 w1 tr1 err Hex He.
    cbn in He. subst e.
    pose proof (initiateHolePunch_trace _ _ _ _ _ _ _ Hex) as [-> Hm].
    cbn [holePunchLoop]. rewrite (run_bind _ _ _ _ _ _ _ _ Hex). cbn.
    destruct (world _ (Trace (ProtocolError rp err)) w1) as [[] w2] eqn:Et. cbn.
    eexists _, _. split; [reflexivity|].
    unfold iterations. rewrite milestones_app, Hm. cbn. split; reflexivity.
  - intros p hp w res hp1 w1 tr Hrun.
    apply DirectConnect_trace in Hrun as [Hm | Hloop].
    + unfold iterations, failed_punches. rewrite Hm. cbn.
      split; [intros q err []|lia].
    + split.
      * intros q err Hin. eapply loop_protocol_error_last; eassumption.
      * apply loop_retries_after_failures in Hloop as [_ Hle]. exact Hle.
Qed.

(** A call whose punches failed [maxRetries] times. *)
Lemma exhausted_of_run p hp w res hp1 w1 tr :
  run (DirectConnect p) hp w = Some (res, hp1, w1, tr) ->
  failed_punches tr = Z.to_nat maxRetries ->
  res = Some (errAllRetriesFailed p)
  /\ names_peer p (errAllRetriesFailed p) = true
  /\ (forall n, names_count n (errAllRetriesFailed p) = false)
  /\ iterations tr = Z.to_nat maxRetries
  /\ In (MFinished "initiator" maxRetries None) (milestones tr).
Proof.
  intros Hrun Hf.
  apply DirectConnect_trace in Hrun as [Hm | Hloop].
  - unfold failed_punches in Hf. rewrite Hm in Hf. discriminate Hf.
  - destruct (loop_all_failed _ _ _ _ _ _ Hloop Hf) as (-> & He & Hfin).
    split; [reflexivity|]. split.
    { cbn. rewrite String.eqb_refl. reflexivity. }
    split; [intros n0; reflexivity|]. split; [exact He|].
    apply Hfin. unfold maxRetries. cbn. lia.
Qed.

(** A call woken from its wait by [hp.ctx]. *)
Lemma cancelled_of_run p hp w res hp1 w1 tr :
  run (DirectConnect p) hp w = Some (res, hp1, w1, tr) ->
  In (MWake CtxDone) (milestones tr) ->
  res = Some context_Canceled
  /\ exists pre,
      milestones tr
      = pre ++ [MWake CtxDone; MStop; MCtxErr (Some context_Canceled)].
Proof.
  intros Hrun Hin.
  apply DirectConnect_trace in Hrun as [Hm | Hloop].
  - rewrite Hm in Hin. destruct Hin.
  - eapply loop_cancel_last; eassumption.
Qed.

(** The role of each punch is the negation of [hp.legacyBehavior]. *)
Lemma roles_of_run p hp w res hp1 w1 tr :
  run (DirectConnect p) hp w = Some (res, hp1, w1, tr) ->
  List.map fst (punched tr) = List.map negb (legacy_reads tr)
  /\ Forall (eq (legacyBehavior hp)) (legacy_reads tr).
Proof.
  intros Hrun.
  unfold punched, legacy_reads.
  apply DirectConnect_trace in Hrun as [Hm | Hloop].
  - rewrite Hm. split; [reflexivity | constructor].
  - eapply loop_roles. exact Hloop.
Qed.

(** A call turned away at admission. *)
Lemma rejection_of_run p hp w res hp1 w1 tr :
  run (DirectConnect p) hp w = Some (res, hp1, w1, tr) ->
  (closed hp = true ->
   res = Some ErrClosed /\ hp1 = hp /\ active_ops tr = [])
  /\ (closed hp = false -> p ∈ active hp ->
      res = Some ErrHolePunchActive /\ hp1 = hp /\ (p ∈ active hp1)
      /\ active_ops tr = [Lookup p true]).
Proof.
  intros Hrun.
  apply DirectConnect_run in Hrun
    as [(Hc & -> & -> & Hops & _)
       | [(Hc & Hin & -> & -> & Hops & _) | (Hc & Hnin & _)]].
  - split; [auto|]. intros Hc'. congruence.
  - split; [intros Hc'; congruence|]. auto.
  - split; [intros Hc'; congruence|]. intros _ Hin. contradiction.
Qed.

End Sequential.

Section Returning.
Context {maddr : AddrOps} {env : World}.

(** *** Calls return *)

Lemma quiet_initiateHolePunchImpl str : quiet (initiateHolePunchImpl str).
Proof.
  unfold initiateHolePunchImpl, call, trigger, failed.
  repeat first
    [ apply quiet_Ret
    | apply quiet_bind
    | apply quiet_Vis; [reflexivity|]
    | intros []
    | intros ?
    | match goal with |- quiet (match ?x with _ => _ end) => destruct x end
    | match goal with |- quiet (if ?x then _ else _) => destruct x end ].
Qed.

(** A quiet program run on its own never gets stuck. *)
Lemma quiet_returns {R} (t : prog R) :
  quiet t -> forall hp w, exists r hp1 w1 tr, run t hp w = Some (r, hp1, w1, tr).
Proof.
  induction 1 as [r0 | X e k He Hk IH]; intros hp w; cbn.
  - eauto.
  - assert (exists x hp2 w2, handle true e hp w = Some (x, hp2, w2))
      as (x & hp2 & w2 & ->).
    { destruct e; try discriminate He; cbn; eauto.
      - destruct (world X e w). eauto.
      - destruct (world _ TimerChan w) as [[start|] w3]; [eauto|].
        unfold select_done. destruct (ctx_done hp); eauto. }
    destruct (IH x hp2 w2) as (r & hp1 & w1 & tr & ->). eauto.
Qed.

Lemma beginDirectConnect_returns p hp w :
  writer (closeMx hp) = false -> activeMx hp = false ->
  exists err hp1 tr,
    run (beginDirectConnect p) hp w = Some (err, hp1, w, tr)
    /\ activeMx hp1 = false.
Proof.
  intros Hw Ha. unfold beginDirectConnect. cbn. rewrite Hw. cbn.
  destruct (closed hp); cbn; [eauto 6|].
  rewrite Ha. cbn. destruct (bool_decide (p ∈ active hp)); cbn; eauto 6.
Qed.

(** [DirectConnect] returns when nobody holds [hp.closeMx] for writing or
    [hp.activeMx]. *)
Lemma DirectConnect_returns p hp w :
  writer (closeMx hp) = false -> activeMx hp = false ->
  exists res hp1 w1 tr, run (DirectConnect p) hp w = Some (res, hp1, w1, tr).
Proof.
  intros Hw Ha.
  destruct (beginDirectConnect_returns p hp w Hw Ha) as (err & hpa & tra & Hb & Haa).
  unfold DirectConnect. rewrite (run_bind _ _ _ _ _ _ _ _ Hb).
  destruct err as [e|]; [cbn; eauto|].
  destruct (quiet_returns _ (quiet_directConnect p) hpa w) as (r & hpb & wb & trb & Hbody).
  unfold defer. rewrite (run_bind _ _ _ _ _ _ _ _ Hbody).
  pose proof (run_quiet _ (quiet_directConnect p) _ _ _ _ _ _ Hbody) as [_ Hhp].
  assert (activeMx hpb = false) as Hab by (destruct Hhp as [-> | ->]; cbn; assumption).
  unfold release. cbn. rewrite Hab. cbn. eauto.
Qed.

(** [Close] returns when nobody holds [hp.closeMx] and no goroutine started
    by [Connected] is left. *)
Lemma Close_returns hp w :
  readers (closeMx hp) = 0%nat -> writer (closeMx hp) = false ->
  refCount hp = 0%nat ->
  exists hp1 tr,
    run Close hp w = Some (None, hp1, w, tr)
    /\ closed hp1 = true /\ ctx_done hp1 = true.
Proof.
  intros Hr Hw Hc. unfold Close. cbn. rewrite Hr, Hw. cbn. rewrite Hc. cbn.
  eauto.
Qed.

(** C5: the exchange on an open stream returns, and when it returns without
    an error its traffic was exactly: the clock read for the deadline and
    again at the start, one CONNECT carrying the listen addresses without
    relays and filtered, one message read, which was a CONNECT, the clock
    read again, one SYNC without addresses; the returned round-trip time is
    the difference of the two clock readings around the write and the read.
    A message of another kind ends the exchange with the error
    "expect CONNECT message, got ...", after the clock was read and without
    a SYNC. *)
Theorem exchange_sequence str hp w :
  exists res hp1 w1 tr,
    run (initiateHolePunchImpl str) hp w = Some (res, hp1, w1, tr)
    /\ (forall addrs obs rtt,
          res = (addrs, obs, rtt, None) ->
          exists d0 t0 t1 msg la,
            on_wire tr =
              [Clock d0; Clock t0;
               Sent (mkHolePunch HolePunch_CONNECT (addrsToBytes obs));
               Got msg None; Clock t1;
               Sent (mkHolePunch HolePunch_SYNC [])]
            /\ msgType msg = HolePunch_CONNECT
            /\ rtt = t1 - t0
            /\ listened tr = [la]
            /\ obs = filterLocal (filter hp) (stream_RemotePeer str)
                       (removeRelayAddrs la)
            /\ addrs = filterRemote (filter hp) (stream_RemotePeer str)
                         (removeRelayAddrs (addrsFromBytes (ObsAddrs msg))))
    /\ (forall msg,
          In (msg, None) (got tr) ->
          msgType msg <> HolePunch_CONNECT ->
          res = failed (errNotConnect (msgType msg))
          /\ exists d0 t0 t1 obs,
              on_wire tr =
                [Clock d0; Clock t0;
                 Sent (mkHolePunch HolePunch_CONNECT (addrsToBytes obs));
                 Got msg None; Clock t1]).
Proof.
  destruct (quiet_returns _ (quiet_initiateHolePunchImpl str) hp w)
    as (res & hp1 & w1 & tr & Hrun).
  exists res, hp1, w1, tr. split; [exact Hrun|].
  exact (exchange_of_run _ _ _ _ _ _ _ Hrun).
Qed.

(** C4: the exchange returns, and (a) if the listen addresses without relays
    and filtered are empty it returns the error "aborting hole punch
    initiation as we have no public address" and has written no message at
    all; (b) if the addresses of the CONNECT it read, without relays and
    filtered, are empty it returns the error "didn't receive any public
    addresses in CONNECT" and the one message it has written is its own
    CONNECT, so no SYNC. *)
Theorem no_public_address str hp w :
  exists res hp1 w1 tr,
    run (initiateHolePunchImpl str) hp w = Some (res, hp1, w1, tr)
    /\ (forall la,
          In la (listened tr) ->
          filterLocal (filter hp) (stream_RemotePeer str) (removeRelayAddrs la) = [] ->
          res = failed errNoLocalAddr
          /\ is_NoPublicAddress errNoLocalAddr = true
          /\ sent tr = [])
    /\ (forall msg,
          In (msg, None) (got tr) ->
          msgType msg = HolePunch_CONNECT ->
          filterRemote (filter hp) (stream_RemotePeer str)
            (removeRelayAddrs (addrsFromBytes (ObsAddrs msg))) = [] ->
          res = failed errNoRemoteAddr
          /\ is_NoPublicAddress errNoRemoteAddr = true
          /\ exists obs, obs <> []
             /\ sent tr = [mkHolePunch HolePunch_CONNECT (addrsToBytes obs)]).
Proof.
  destruct (quiet_returns _ (quiet_initiateHolePunchImpl str) hp w)
    as (res & hp1 & w1 & tr & Hrun).
  exists res, hp1, w1, tr. split; [exact Hrun|].
  exact (no_address_of_run _ _ _ _ _ _ _ Hrun).
Qed.

(** C6: the retry loop entered at any iteration, in any state, runs its own
    exchange first; when that exchange succeeds, measuring the round-trip
    time [t1 - t0] between its two clock readings, the timer the iteration
    arms next is set to [(t1 - t0) / 2], which is zero for a zero round-trip
    time, and when the timer fires the punch follows at once. *)
Theorem wait_is_half_rtt rp n i hp w :
  exists x hp1 w1 tr1 res hp2 w2 tr,
    run (initiateHolePunch rp) hp w = Some (x, hp1, w1, tr1)
    /\ run (holePunchLoop rp (S n) i) hp w = Some (res, hp2, w2, tr)
    /\ forall addrs obs rtt,
        x = (addrs, obs, rtt, None) ->
        exists d0 t0 t1 msg wk rest more,
          on_wire tr1 =
            [Clock d0; Clock t0;
             Sent (mkHolePunch HolePunch_CONNECT (addrsToBytes obs));
             Got msg None; Clock t1;
             Sent (mkHolePunch HolePunch_SYNC [])]
          /\ rtt = t1 - t0
          /\ tr = tr1 ++ rest
          /\ milestones rest = MTimer (Z.quot (t1 - t0) 2) :: MWake wk :: more
          /\ (t1 - t0 = 0 -> Z.quot (t1 - t0) 2 = 0)
          /\ (forall start,
                wk = Received start ->
                exists err more',
                  more = MLegacy (legacyBehavior hp)
                         :: MPunch (mkAddrInfo rp addrs) (negb (legacyBehavior hp)) err
                         :: more').
Proof.
  destruct (quiet_returns _ (quiet_initiateHolePunch rp) hp w)
    as (x & hp1 & w1 & tr1 & Hex).
  destruct (quiet_returns _ (quiet_holePunchLoop rp (S n) i) hp w)
    as (res & hp2 & w2 & tr & Hloop).
  exists x, hp1, w1, tr1, res, hp2, w2, tr.
  split; [exact Hex|]. split; [exact Hloop|].
  intros addrs obs rtt ->.
  exact (wait_of_run _ _ _ _ _ _ _ _ _ _ _ _ _ _ _ Hex Hloop).
Qed.

(** C2: the exchange of an iteration returns, and if it returns an error the
    loop entered at that iteration returns this error after this one
    exchange, having traced the protocol error; and in a call of
    [DirectConnect], which returns, a traced protocol error is the last
    thing that happened and its error is the call's result, and there are
    at most as many iterations as failed punches, and one. *)
Theorem exchange_error_aborts :
  (forall rp n i hp w,
      exists x hp1 w1 tr1,
        run (initiateHolePunch rp) hp w = Some (x, hp1, w1, tr1)
        /\ forall err,
            snd x = Some err ->
            exists w2 tr,
              run (holePunchLoop rp (S n) i) hp w = Some (Some err, hp1, w2, tr)
              /\ milestones tr = [MExchange rp; MProtocolError rp err]
              /\ iterations tr = 1%nat)
  /\ (forall p hp w,
        writer (closeMx hp) = false -> activeMx hp = false ->
        exists res hp1 w1 tr,
          run (DirectConnect p) hp w = Some (res, hp1, w1, tr)
          /\ (forall q err,
                In (MProtocolError q err) (milestones tr) ->
                res = Some err
                /\ exists pre, milestones tr = pre ++ [MProtocolError q err])
          /\ (iterations tr <= S (failed_punches tr))%nat).
Proof.
  split.
  - intros rp n i hp w.
    destruct (quiet_returns _ (quiet_initiateHolePunch rp) hp w)
      as (x & hp1 & w1 & tr1 & Hex).
    exists x, hp1, w1, tr1. split; [exact Hex|]. intros err He.
    exact (proj1 protocol_error_of_run _ _ _ _ _ _ _ _ _ _ Hex He).
  - intros p hp w Hw Ha.
    destruct (DirectConnect_returns p hp w Hw Ha) as (res & hp1 & w1 & tr & Hrun).
    exists res, hp1, w1, tr. split; [exact Hrun|].
    exact (proj2 protocol_error_of_run _ _ _ _ _ _ _ Hrun).
Qed.

(** C3, as the code has it: a call of [DirectConnect] returns, and if the
    punch failed [maxRetries] = 3 times in it, it returns the error
    "all retries for hole punch with peer %s failed" formatted with the
    peer and nothing else, so without a count, after exactly 3 iterations;
    the count 3 goes to the tracer's [HolePunchFinished]. *)
Theorem retries_exhausted p hp w :
  writer (closeMx hp) = false -> activeMx hp = false ->
  exists res hp1 w1 tr,
    run (DirectConnect p) hp w = Some (res, hp1, w1, tr)
    /\ (failed_punches tr = Z.to_nat maxRetries ->
        res = Some (errAllRetriesFailed p)
        /\ names_peer p (errAllRetriesFailed p) = true
        /\ (forall n, names_count n (errAllRetriesFailed p) = false)
        /\ iterations tr = Z.to_nat maxRetries
        /\ In (MFinished "initiator" maxRetries None) (milestones tr)).
Proof.
  intros Hw Ha.
  destruct (DirectConnect_returns p hp w Hw Ha) as (res & hp1 & w1 & tr & Hrun).
  exists res, hp1, w1, tr. split; [exact Hrun|].
  exact (exhausted_of_run _ _ _ _ _ _ _ Hrun).
Qed.

(** C8: a call of [DirectConnect] returns, and if [hp.ctx] was done before
    the timer of an iteration fired, the call stopped the timer, read
    [hp.ctx.Err()] and returned it, [context.Canceled]; these are the last
    things that happened, so no iteration followed. *)
Theorem cancelled_while_sleeping p hp w :
  writer (closeMx hp) = false -> activeMx hp = false ->
  exists res hp1 w1 tr,
    run (DirectConnect p) hp w = Some (res, hp1, w1, tr)
    /\ (In (MWake CtxDone) (milestones tr) ->
        res = Some context_Canceled
        /\ exists pre,
            milestones tr
            = pre ++ [MWake CtxDone; MStop; MCtxErr (Some context_Canceled)]).
Proof.
  intros Hw Ha.
  destruct (DirectConnect_returns p hp w Hw Ha) as (res & hp1 & w1 & tr & Hrun).
  exists res, hp1, w1, tr. split; [exact Hrun|].
  exact (cancelled_of_run _ _ _ _ _ _ _ Hrun).
Qed.

(** C9: [newHolePuncher] sets [legacyBehavior] to true; and in a call of
    [DirectConnect] every punch is made with [isClient] the negation of the
    value of [hp.legacyBehavior] read just before it, which is the
    receiver's. *)
Theorem role_follows_legacy_flag flt p hp w :
  writer (closeMx hp) = false -> activeMx hp = false ->
  legacyBehavior (newHolePuncher flt) = true
  /\ exists res hp1 w1 tr,
      run (DirectConnect p) hp w = Some (res, hp1, w1, tr)
      /\ List.map fst (punched tr) = List.map negb (legacy_reads tr)
      /\ Forall (eq (legacyBehavior hp)) (legacy_reads tr).
Proof.
  intros Hw Ha. split; [reflexivity|].
  destruct (DirectConnect_returns p hp w Hw Ha) as (res & hp1 & w1 & tr & Hrun).
  exists res, hp1, w1, tr. split; [exact Hrun|].
  exact (roles_of_run _ _ _ _ _ _ _ Hrun).
Qed.

(** C10: a call of [DirectConnect] returns; on a closed receiver it returns
    [ErrClosed], leaves the receiver as it was and has neither looked up nor
    changed [hp.active], whether the peer is in it or not; on an open
    receiver with the peer in [hp.active] it returns [ErrHolePunchActive],
    leaves the receiver as it was, the peer still in [hp.active], and has
    only looked the peer up. *)
Theorem rejection_leaves_active p hp w :
  writer (closeMx hp) = false -> activeMx hp = false ->
  exists res hp1 w1 tr,
    run (DirectConnect p) hp w = Some (res, hp1, w1, tr)
    /\ (closed hp = true ->
        res = Some ErrClosed /\ hp1 = hp /\ active_ops tr = [])
    /\ (closed hp = false -> p ∈ active hp ->
        res = Some ErrHolePunchActive /\ hp1 = hp /\ (p ∈ active hp1)
        /\ active_ops tr = [Lookup p true]).
Proof.
  intros Hw Ha.
  destruct (DirectConnect_returns p hp w Hw Ha) as (res & hp1 & w1 & tr & Hrun).
  exists res, hp1, w1, tr. split; [exact Hrun|].
  exact (rejection_of_run _ _ _ _ _ _ _ Hrun).
Qed.

End Returning.

(** ** Goroutines interleaved *)

Section Interleaved.
Context {maddr : AddrOps} {env : World}.

Lemma at_dc_is_Ret p pc t : at_dc p pc t -> is_Ret t = dc_final pc.
Proof.
  intros Hat. destruct Hat; try reflexivity.
  match goal with Hq : quiet _ |- _ => destruct Hq end; reflexivity.
Qed.

Lemma step_in_task t hp w :
  is_Ret t = false ->
  step_prog (in_task t) hp w =
    match step_prog t hp w with
    | Some (t1, hp1, w1, en, new) => Some (in_task t1, hp1, w1, en, new)
    | None => None
    end.
Proof.
  destruct t as [r | X e k | task k]; [discriminate | |]; intros _; cbn.
  - destruct (handle false e hp w) as [[[x hp1] w1]|]; reflexivity.
  - reflexivity.
Qed.

Lemma ops_final p pc : dc_final pc = true -> final_ops (ops_at p pc).
Proof. destruct pc; try discriminate; intros _; constructor. Qed.

Lemma phase_step ph g hp w g1 hp1 w1 new :
  at_phase ph g ->
  step_goroutine g hp w = Some (g1, hp1, w1, new) ->
  exists ph1 phnew,
    at_phase ph1 g1 /\ Forall2 at_phase phnew new /\ moves hp ph hp1 ph1 phnew.
Proof.
  intros Hat Hstep. destruct Hat as
    [p pc t h Hdc Hops | p pc t h Hdc Hops | pc h Hops | conn h Hops
    | conn h Hops | h Hops | conn h Hops | h Hops | h Hops];
    unfold step_goroutine in Hstep; cbn [code history] in Hstep.
  - (* a call of DirectConnect *)
    destruct (step_prog t hp w) as [[[[[t1 hp2] w2] en] new2]|] eqn:Es; [|discriminate].
    inversion Hstep; subst; clear Hstep.
    destruct (dc_step _ _ _ _ _ _ _ _ _ _ Hdc Es) as (pc1 & Hdc1 & -> & Hmv & Hops1).
    exists (PhDC false p pc1), []. repeat split; [|constructor|by constructor].
    constructor; [assumption|]. rewrite active_ops_app, Hops. exact Hops1.
  - (* DirectConnect inside the task *)
    destruct (dc_final pc) eqn:Efin.
    + pose proof (at_dc_is_Ret _ _ _ Hdc) as Hret. rewrite Efin in Hret.
      destruct t as [r| |]; try discriminate Hret. cbn in Hstep.
      destruct (refCount hp) eqn:Erc; [discriminate|].
      inversion Hstep; subst; clear Hstep.
      exists PhGone, []. repeat split; [|constructor|by econstructor].
      constructor. rewrite active_ops_app, Hops. cbn. rewrite app_nil_r.
      by apply ops_final.
    + pose proof (at_dc_is_Ret _ _ _ Hdc) as Hret. rewrite Efin in Hret.
      rewrite (step_in_task _ _ _ Hret) in Hstep.
      destruct (step_prog t hp w) as [[[[[t1 hp2] w2] en] new2]|] eqn:Es; [|discriminate].
      inversion Hstep; subst; clear Hstep.
      destruct (dc_step _ _ _ _ _ _ _ _ _ _ Hdc Es) as (pc1 & Hdc1 & -> & Hmv & Hops1).
      exists (PhDC true p pc1), []. repeat split; [|constructor|by constructor].
      constructor; [assumption|]. rewrite active_ops_app, Hops. exact Hops1.
  - (* Close *)
    destruct pc; cbn in Hstep.
    + destruct (readers (closeMx hp)) eqn:Er; [|discriminate].
      destruct (writer (closeMx hp)) eqn:Ew; [discriminate|].
      inversion Hstep; subst; clear Hstep.
      exists (PhClose clLocked), []. repeat split; [|constructor|by constructor].
      apply (at_close clLocked). rewrite active_ops_app, Hops. reflexivity.
    + inversion Hstep; subst; clear Hstep.
      exists (PhClose clStored), []. repeat split; [|constructor|by constructor].
      apply (at_close clStored). rewrite active_ops_app, Hops. reflexivity.
    + destruct (writer (closeMx hp)) eqn:Ew; [|discriminate].
      inversion Hstep; subst; clear Hstep.
      exists (PhClose clUnlocked), []. repeat split; [|constructor|by constructor].
      apply (at_close clUnlocked). rewrite active_ops_app, Hops. reflexivity.
    + inversion Hstep; subst; clear Hstep.
      exists (PhClose clCancelled), []. repeat split; [|constructor|by constructor].
      apply (at_close clCancelled). rewrite active_ops_app, Hops. reflexivity.
    + destruct (refCount hp) eqn:Er; [|discriminate].
      inversion Hstep; subst; clear Hstep.
      exists (PhClose clReturned), []. repeat split; [|constructor|by constructor].
      apply (at_close clReturned). rewrite active_ops_app, Hops. reflexivity.
    + discriminate.
  - (* Connected *)
    unfold Connected in Hstep.
    destruct (Direction_eqb (conn_Direction conn) DirInbound
              && isRelayAddress (conn_RemoteMultiaddr conn)); cbn in Hstep;
      [|discriminate].
    inversion Hstep; subst; clear Hstep.
    exists PhSpawning, []. repeat split; [|constructor|by constructor].
    apply (at_spawning conn). rewrite active_ops_app, Hops. reflexivity.
  - (* go *)
    cbn in Hstep. inversion Hstep; subst; clear Hstep.
    exists PhNotified, [PhWaiting]. repeat split; [| |by constructor].
    + constructor. rewrite app_nil_r. exact Hops.
    + constructor; [|constructor]. by apply (at_waiting conn).
  - discriminate.
  - (* the task's select *)
    cbn in Hstep.
    destruct (world _ (IdentifyWait conn) w) as [[|] w2] eqn:Ew; cbn in Hstep.
    + inversion Hstep; subst; clear Hstep.
      exists (PhDC true (conn_RemotePeer conn) pcBegin), [].
      repeat split; [|constructor|by constructor].
      apply (at_in_task _ pcBegin (DirectConnect (conn_RemotePeer conn)));
        [constructor|].
      rewrite active_ops_app, Hops. reflexivity.
    + unfold select_done in Hstep. destruct (ctx_done hp) eqn:Ec; [|discriminate].
      inversion Hstep; subst; clear Hstep.
      exists PhExit, []. repeat split; [|constructor|by constructor].
      constructor. rewrite active_ops_app, Hops. constructor.
  - (* refCount.Done *)
    cbn in Hstep. destruct (refCount hp) eqn:Erc; [discriminate|].
    inversion Hstep; subst; clear Hstep.
    exists PhGone, []. repeat split; [|constructor|by econstructor].
    constructor. rewrite active_ops_app. cbn. rewrite app_nil_r. assumption.
  - discriminate.
Qed.

Lemma b2n_le b : (b2n b <= 1)%nat.
Proof. destruct b; cbn; lia. Qed.

Lemma lookup_update (l : list phase) i y new j z :
  (<[i := y]> l ++ new) !! j = Some z ->
  (j = i /\ z = y) \/ (j <> i /\ l !! j = Some z) \/ In z new.
Proof.
  intros Hj. destruct (decide (j < length l)%nat) as [Hlt|Hge].
  - rewrite lookup_app_l in Hj by (rewrite length_insert; exact Hlt).
    destruct (decide (j = i)) as [->|Hne].
    + rewrite list_lookup_insert_eq in Hj by exact Hlt. inversion Hj. auto.
    + rewrite list_lookup_insert_ne in Hj by congruence. auto.
  - rewrite lookup_app_r in Hj by (rewrite length_insert; lia).
    right. right. apply list_elem_of_In. eapply list_elem_of_lookup_2, Hj.
Qed.

Lemma decide_store_same (p : string) (a : gset string) :
  bool_decide (p ∈ {[p]} ∪ a) = true.
Proof. apply bool_decide_eq_true_2, elem_of_union_l, elem_of_singleton. reflexivity. Qed.

Lemma decide_store_other (q p : string) (a : gset string) :
  q <> p -> bool_decide (q ∈ {[p]} ∪ a) = bool_decide (q ∈ a).
Proof.
  intros Hne. apply bool_decide_ext. rewrite elem_of_union, elem_of_singleton. tauto.
Qed.

Lemma decide_delete_same (p : string) (a : gset string) :
  bool_decide (p ∈ a ∖ {[p]}) = false.
Proof.
  apply bool_decide_eq_false_2. rewrite elem_of_difference, elem_of_singleton. tauto.
Qed.

Lemma decide_delete_other (q p : string) (a : gset string) :
  q <> p -> bool_decide (q ∈ a ∖ {[p]}) = bool_decide (q ∈ a).
Proof.
  intros Hne. apply bool_decide_ext. rewrite elem_of_difference, elem_of_singleton. tauto.
Qed.

Ltac count Hi :=
  rewrite total_app;
  match goal with
  | |- context [total ?f (<[?i:=?y]> ?l)] =>
      let Hins := fresh "Hins" in
      pose proof (total_insert f l i _ y Hi) as Hins;
      cbn in Hins |- *
  end.

(** Two goroutines cannot both hold [hp.activeMx]. *)
Lemma activeMx_exclusive hp phs i j x y :
  b2n (activeMx hp) = total holds_activeMx phs ->
  phs !! i = Some x -> phs !! j = Some y -> i <> j ->
  holds_activeMx x = 1%nat -> holds_activeMx y = 1%nat -> False.
Proof.
  intros Hmx Hi Hj Hne Hx Hy.
  pose proof (total_two holds_activeMx phs i j x y Hne Hi Hj).
  pose proof (b2n_le (activeMx hp)). lia.
Qed.

Lemma moves_consistent hp phs i ph hp1 ph1 phnew :
  consistent hp phs ->
  phs !! i = Some ph ->
  moves hp ph hp1 ph1 phnew ->
  consistent hp1 (<[i := ph1]> phs ++ phnew).
Proof.
  intros [Hrd Hwr Hsh Hmx Hact Hfree Hrc Hpass Hcl Hctx] Hi Hmv.
  assert (Hfree' : forall j b0 p0 x,
             (<[i := x]> phs ++ phnew) !! j = Some (PhDC b0 p0 pcFree) ->
             (forall b p, x <> PhDC b p pcFree) ->
             phnew = [] \/ phnew = [PhWaiting] ->
             j <> i /\ phs !! j = Some (PhDC b0 p0 pcFree)).
  { intros j b0 p0 x Hj Hx Hnew.
    apply lookup_update in Hj as [[-> Hj]|[Hj|Hj]]; [|exact Hj|].
    - exfalso. eapply Hx. symmetry. exact Hj.
    - destruct Hnew as [-> | ->]; cbn in Hj; [tauto|].
      destruct Hj as [Hj|[]]; discriminate. }
  destruct Hmv as [b p pc hp1 pc1 Hdc | | | | | | | | | | |].
  { destruct Hdc.
    all: destruct (writer (closeMx hp)) eqn:Ewr; try discriminate.
    all: destruct (activeMx hp) eqn:Emx; try discriminate.
    all: split; cbn; rewrite ?Ewr, ?Emx.
    all: try (count Hi; cbn in *; lia).
    all: try (intros Hx; try discriminate Hx;
              try specialize (Hpass Hx); try specialize (Hcl Hx);
              try specialize (Hctx Hx); try specialize (Hsh Hx);
              count Hi; cbn in *; lia).
    all: try (intros Hx; try specialize (Hsh Hx); lia).
    all: try (intros q; specialize (Hact q); count Hi;
              destruct (String.eqb q p) eqn:Eq; cbn in *; lia).
    all: try (intros j b0 p0 Hj;
              apply Hfree' in Hj as [Hne Hj];
              [exact (Hfree _ _ _ Hj) | intros ? ?; discriminate | auto]).
    all: try (intros Hx; congruence).
    all: try (intros j b0 p0 Hj;
              apply lookup_update in Hj as [[-> Hj]|[[Hne Hj]|[]]];
              [inversion Hj; subst; assumption | exact (Hfree _ _ _ Hj)]).
    all: try (intros j b0 p0 Hj;
              apply Hfree' in Hj as [Hne Hj];
              [|intros ? ?; discriminate|auto];
              exfalso; eapply (activeMx_exclusive hp phs i j); eauto;
              rewrite Emx; assumption).
    all: intros q; specialize (Hact q);
      try pose proof (Hfree _ _ _ Hi) as Hnot;
      pose proof (b2n_le (bool_decide (q ∈ active hp))) as Hle;
      count Hi; destruct (String.eqb q p) eqn:Eq;
      [apply String.eqb_eq in Eq; subst q | apply String.eqb_neq in Eq].
    all: rewrite ?decide_store_same, ?decide_delete_same.
    all: try rewrite (decide_store_other q p) by assumption.
    all: try rewrite (decide_delete_other q p) by assumption.
    all: try (rewrite bool_decide_eq_false_2 in Hact by assumption).
    all: cbn [b2n] in *; lia. }
  all: repeat match goal with
         | E : writer _ = _ |- _ => rewrite E in *
         | E : readers _ = _ |- _ => rewrite E in *
         | E : refCount _ = _ |- _ => rewrite E in *
         | E : ?b = true |- _ => is_var b; subst b
         | E : dc_final ?pc = true |- _ => destruct pc; try discriminate E; clear E
         end.
  all: split; cbn.
  all: try (count Hi; cbn in *; lia).
  all: try (intros Hx; try discriminate Hx;
            try specialize (Hpass Hx); try specialize (Hcl Hx);
            try specialize (Hctx Hx); try specialize (Hsh Hx);
            count Hi; cbn in *; lia).
  all: try (intros Hx; try specialize (Hsh Hx); lia).
  all: try (intros q; specialize (Hact q); count Hi; cbn in *; lia).
  all: try (intros j b0 p0 Hj;
            apply Hfree' in Hj as [Hne Hj];
            [exact (Hfree _ _ _ Hj) | intros ? ?; discriminate | auto]).
  intros _. count Hi.
  pose proof (total_lookup holds_wlock _ _ _ Hi) as Hw. cbn in Hw.
  destruct (writer (closeMx hp)); cbn in Hwr; [|lia].
  specialize (Hsh eq_refl).
  pose proof (total_le passed_closed holds_rlock phs) as Hle.
  assert (forall x, (passed_closed x <= holds_rlock x)%nat) as Hpt.
  { intros [b p []| | | | | | |]; cbn; lia. }
  specialize (Hle Hpt). lia.
Qed.

Lemma sched_invariant c phs i c1 :
  invariant c phs ->
  sched i c = Some c1 ->
  exists ph ph1 phnew,
    phs !! i = Some ph
    /\ moves (c_hp c) ph (c_hp c1) ph1 phnew
    /\ invariant c1 (<[i := ph1]> phs ++ phnew).
Proof.
  intros [Hat Hcons] Hs. unfold sched in Hs.
  destruct (c_threads c !! i) as [g|] eqn:Hg; [|discriminate].
  destruct (step_goroutine g (c_hp c) (c_w c)) as [[[[g1 hp1] w1] new]|] eqn:Hstep;
    [|discriminate].
  inversion Hs; subst; clear Hs. cbn.
  destruct (Forall2_lookup_r _ _ _ _ _ Hat Hg) as (ph & Hph & Hatg).
  destruct (phase_step _ _ _ _ _ _ _ _ Hatg Hstep) as (ph1 & phnew & Hat1 & Hnew & Hmv).
  exists ph, ph1, phnew. split; [assumption|]. split; [assumption|]. split.
  - cbn. apply Forall2_app; [|assumption]. by apply Forall2_insert.
  - cbn. by eapply moves_consistent.
Qed.

Lemma init_at calls :
  Forall2 at_phase (List.map first_phase calls)
    (List.map (fun r => mkGoroutine (serve r) []) calls).
Proof.
  induction calls as [|r calls IH]; cbn; constructor; [|exact IH].
  destruct r as [p | | conn]; cbn.
  - constructor; [constructor | reflexivity].
  - by apply (at_close clBegin).
  - by apply (at_connected conn).
Qed.

Lemma init_total f calls :
  (forall r, f (first_phase r) = 0%nat) ->
  total f (List.map first_phase calls) = 0%nat.
Proof.
  intros Hf. unfold total.
  induction calls as [|r calls IH]; cbn; [reflexivity|]. rewrite Hf, IH. reflexivity.
Qed.

Lemma init_invariant flt w calls :
  invariant (init flt w calls) (List.map first_phase calls).
Proof.
  split; [apply init_at|].
  split; cbn; try (rewrite init_total; [reflexivity | intros []; reflexivity]);
    try discriminate.
  all: try (intros _; apply init_total; intros []; reflexivity).
  intros q. rewrite init_total; [reflexivity | intros []; reflexivity].
Qed.

Lemma exec_invariant s : forall c phs c1,
  invariant c phs -> exec s c = Some c1 -> exists phs1, invariant c1 phs1.
Proof.
  induction s as [|i s IH]; intros c phs c1 Hinv Hex; cbn in Hex.
  - inversion Hex; subst. eauto.
  - destruct (sched i c) as [c2|] eqn:Hs; [|discriminate].
    destruct (sched_invariant _ _ _ _ Hinv Hs) as (ph & ph1 & phnew & _ & _ & Hinv2).
    eauto.
Qed.

Lemma reachable_invariant c : reachable c -> exists phs, invariant c phs.
Proof.
  intros (flt & w & calls & s & Hex).
  eauto using exec_invariant, init_invariant.
Qed.

(** A goroutine keeps serving the call it was started for. *)
Lemma moves_serves hp ph hp1 ph1 phnew r :
  moves hp ph hp1 ph1 phnew -> serves r ph -> serves r ph1.
Proof.
  intros Hmv Hs. destruct Hmv as [b p pc hp1 pc1 Hdc | | | | | | | | | | |];
    destruct r; cbn in *; try tauto.
  all: subst b; cbn in Hs; tauto.
Qed.

Lemma serving_init calls : serving calls (List.map first_phase calls).
Proof.
  intros i r Hi. exists (first_phase r). split.
  - rewrite list_lookup_fmap, Hi. reflexivity.
  - destruct r; cbn; auto.
Qed.

Lemma serving_step calls phs i ph hp hp1 ph1 phnew :
  serving calls phs -> phs !! i = Some ph -> moves hp ph hp1 ph1 phnew ->
  serving calls (<[i := ph1]> phs ++ phnew).
Proof.
  intros Hs Hi Hmv j r Hj. destruct (Hs j r Hj) as (phj & Hphj & Hsv).
  pose proof (lookup_lt_Some _ _ _ Hphj) as Hlt.
  destruct (decide (j = i)) as [->|Hne].
  - exists ph1. split.
    + rewrite lookup_app_l by (rewrite length_insert; exact Hlt).
      apply list_lookup_insert_eq. exact Hlt.
    + rewrite Hi in Hphj. inversion Hphj; subst. eapply moves_serves; eassumption.
  - exists phj. split; [|assumption].
    rewrite lookup_app_l by (rewrite length_insert; exact Hlt).
    rewrite list_lookup_insert_ne by congruence. assumption.
Qed.

Lemma exec_serving s : forall c phs calls c1,
  invariant c phs -> serving calls phs -> exec s c = Some c1 ->
  exists phs1, invariant c1 phs1 /\ serving calls phs1.
Proof.
  induction s as [|i s IH]; intros c phs calls c1 Hinv Hsv Hex; cbn in Hex.
  - inversion Hex; subst. eauto.
  - destruct (sched i c) as [c2|] eqn:Hs; [|discriminate].
    destruct (sched_invariant _ _ _ _ Hinv Hs) as (ph & ph1 & phnew & Hi & Hmv & Hinv2).
    eapply IH; [exact Hinv2 | | exact Hex].
    eapply serving_step; eassumption.
Qed.

Lemma member_spec q b p pc :
  member q (PhDC b p pc) = 1%nat ->
  q = p /\ ops_at p pc = [Lookup p false; Store p].
Proof.
  destruct pc; cbn; try discriminate.
  all: destruct (String.eqb_spec q p); [auto | discriminate].
Qed.

Ltac in_cases H :=
  repeat (destruct H as [H|H]; [try discriminate H|]); try contradiction.

Lemma ops_at_in_flight p b p0 pc :
  (In (Store p) (ops_at p0 pc) /\ ~ In (Delete p) (ops_at p0 pc))
  <-> member p (PhDC b p0 pc) = 1%nat.
Proof.
  split.
  - intros [Hs Hd]. destruct pc; cbn in *; in_cases Hs.
    all: inversion Hs; subst; rewrite ?String.eqb_refl; try reflexivity.
    all: exfalso; apply Hd; auto.
  - intros Hm. apply member_spec in Hm as [-> Hops]. rewrite Hops. split.
    + right. left. reflexivity.
    + intros Hd. in_cases Hd.
Qed.

Lemma final_not_in_flight p ops :
  final_ops ops -> ~ (In (Store p) ops /\ ~ In (Delete p) ops).
Proof.
  intros Hf [Hs Hd]. destruct Hf as [|q|q]; cbn in *; in_cases Hs.
  inversion Hs; subst. apply Hd. auto.
Qed.

Lemma in_flight_member ph g p :
  at_phase ph g -> (in_flight p g <-> member p ph = 1%nat).
Proof.
  intros Hat. unfold in_flight.
  destruct Hat as
    [p0 pc t h Hdc Hops | p0 pc t h Hdc Hops | pc h Hops | conn h Hops
    | conn h Hops | h Hops | conn h Hops | h Hops | h Hops]; cbn [history].
  1-2: rewrite Hops; apply ops_at_in_flight.
  1-5: rewrite Hops; cbn; split; [intros [[] _] | discriminate].
  1-2: split; [intros Hf; exfalso; eapply final_not_in_flight; eassumption
              | discriminate].
Qed.

Lemma rejected_shape ph g p :
  at_phase ph g ->
  In (Lookup p true) (active_ops (history g)) ->
  active_ops (history g) = [Lookup p true]
  /\ forall r, result g = Some r -> r = Some ErrHolePunchActive.
Proof.
  intros Hat Hin.
  destruct Hat as
    [p0 pc t h Hdc Hops | p0 pc t h Hdc Hops | pc h Hops | conn h Hops
    | conn h Hops | h Hops | conn h Hops | h Hops | h Hops];
    cbn [history] in *; unfold result; cbn [code].
  3-7: rewrite Hops in Hin; destruct Hin.
  3-4: split; [|discriminate]; destruct Hops as [|q|q]; cbn in Hin; in_cases Hin;
    inversion Hin; subst; reflexivity.
  - rewrite Hops in *. destruct pc; cbn in Hin; in_cases Hin.
    all: inversion Hin; subst; split; [reflexivity|]; intros r Hr.
    all: inversion Hdc; subst; try discriminate Hr.
    inversion Hr. reflexivity.
  - rewrite Hops in *. split; [|discriminate].
    destruct pc; cbn in Hin; in_cases Hin.
    all: inversion Hin; subst; reflexivity.
Qed.

Lemma in_task_not_Ret t : is_Ret (in_task t) = false.
Proof. destruct t; reflexivity. Qed.

Lemma released_shape ph g p :
  at_phase ph g ->
  finished g = true ->
  In (Store p) (active_ops (history g)) ->
  active_ops (history g) = [Lookup p false; Store p; Delete p].
Proof.
  intros Hat Hfin Hin.
  destruct Hat as
    [p0 pc t h Hdc Hops | p0 pc t h Hdc Hops | pc h Hops | conn h Hops
    | conn h Hops | h Hops | conn h Hops | h Hops | h Hops];
    cbn [history] in *; unfold finished in Hfin; cbn [code] in Hfin.
  3-7: rewrite Hops in Hin; destruct Hin.
  3: discriminate Hfin.
  3: destruct Hops as [|q|q]; cbn in Hin; in_cases Hin; inversion Hin; subst;
    reflexivity.
  - pose proof (at_dc_is_Ret _ _ _ Hdc) as Hret.
    destruct t; try discriminate Hfin. cbn in Hret.
    rewrite Hops in *. destruct pc; try discriminate Hret; cbn in Hin; in_cases Hin.
    inversion Hin; subst. reflexivity.
  - pose proof (in_task_not_Ret t) as Hn.
    destruct (in_task t); [discriminate Hn | discriminate Hfin | discriminate Hfin].
Qed.

Lemma step_history g hp w g1 hp1 w1 new :
  step_goroutine g hp w = Some (g1, hp1, w1, new) ->
  history g1 = history g
  \/ exists X (e : event X) x,
      history g1 = history g ++ [Did e x]
      /\ handle false e hp w = Some (x, hp1, w1).
Proof.
  unfold step_goroutine. intros Hstep.
  destruct (code g) as [t|t|t];
    (destruct t as [r | X e k | task k]; cbn in Hstep; [discriminate | |];
     [ destruct (handle false e hp w) as [[[x hp2] w2]|] eqn:Eh; [|discriminate];
       inversion Hstep; subst; right; exists X, e, x; auto
     | inversion Hstep; subst; left; cbn; apply app_nil_r ]).
Qed.

Lemma lookup_answer {X} (e : event X) hp w x hp1 w1 p ok :
  handle false e hp w = Some (x, hp1, w1) ->
  active_op_of (Did e x) = Some (Lookup p ok) ->
  ok = bool_decide (p ∈ active hp).
Proof.
  intros Hh Hop. destruct e; cbn in Hop; try discriminate Hop.
  cbn in Hh. inversion Hh; subst. inversion Hop; subst. reflexivity.
Qed.

(** C1, as the code has it.  In every state the calls from outside can
    reach under any schedule: a peer is in [hp.active] exactly when some
    goroutine has stored it and not yet deleted it, and at most one
    goroutine has, per peer; a lookup under [hp.activeMx] finds the peer
    exactly when such a goroutine exists; a goroutine whose lookup found
    the peer has done nothing else to [hp.active] and, as a call from
    outside, returns nothing but [ErrHolePunchActive], the peer staying in
    [hp.active] for the goroutine that holds it; and a goroutine that has
    stored the peer and has finished has looked it up, stored it and
    deleted it, once each, whatever its call returned. *)
Theorem active_membership c :
  reachable c ->
  (forall p,
      p ∈ active (c_hp c)
      <-> exists i g, c_threads c !! i = Some g /\ in_flight p g)
  /\ (forall p i j gi gj,
        c_threads c !! i = Some gi -> c_threads c !! j = Some gj ->
        in_flight p gi -> in_flight p gj -> i = j)
  /\ (forall i c1 gi g1 p ok,
        sched i c = Some c1 ->
        c_threads c !! i = Some gi -> c_threads c1 !! i = Some g1 ->
        active_ops (history g1) = active_ops (history gi) ++ [Lookup p ok] ->
        (ok = true <-> exists j g, c_threads c !! j = Some g /\ in_flight p g))
  /\ (forall i g p,
        c_threads c !! i = Some g ->
        In (Lookup p true) (active_ops (history g)) ->
        active_ops (history g) = [Lookup p true]
        /\ forall r, result g = Some r -> r = Some ErrHolePunchActive)
  /\ (forall i g p,
        c_threads c !! i = Some g ->
        finished g = true ->
        In (Store p) (active_ops (history g)) ->
        active_ops (history g) = [Lookup p false; Store p; Delete p]).
Proof.
  intros Hreach. destruct (reachable_invariant _ Hreach) as (phs & Hat & Hcons).
  assert (Hmem : forall p,
             p ∈ active (c_hp c)
             <-> exists i g, c_threads c !! i = Some g /\ in_flight p g).
  { intros p. pose proof (inv_active _ _ Hcons p) as Hact. split.
    - intros Hin. rewrite bool_decide_eq_true_2 in Hact by assumption. cbn in Hact.
      destruct (total_pos (member p) phs) as (i & ph & Hi & Hpos); [lia|].
      destruct (Forall2_lookup_l _ _ _ _ _ Hat Hi) as (g & Hg & Hatg).
      exists i, g. split; [assumption|].
      apply (in_flight_member _ _ p Hatg).
      destruct ph as [b q pc| | | | | | |]; cbn in Hpos |- *; try lia.
      destruct pc; cbn in Hpos |- *; try lia;
        destruct (String.eqb p q); lia.
    - intros (i & g & Hg & Hfl).
      destruct (Forall2_lookup_r _ _ _ _ _ Hat Hg) as (ph & Hi & Hatg).
      apply (in_flight_member _ _ p Hatg) in Hfl.
      pose proof (total_lookup (member p) _ _ _ Hi).
      destruct (bool_decide (p ∈ active (c_hp c))) eqn:Ed; cbn in Hact; [|lia].
      by apply bool_decide_eq_true in Ed. }
  split; [exact Hmem|]. split; [|split; [|split]].
  - intros p i j gi gj Hgi Hgj Hfi Hfj.
    destruct (Forall2_lookup_r _ _ _ _ _ Hat Hgi) as (phi & Hi & Hati).
    destruct (Forall2_lookup_r _ _ _ _ _ Hat Hgj) as (phj & Hj & Hatj).
    apply (in_flight_member _ _ p Hati) in Hfi.
    apply (in_flight_member _ _ p Hatj) in Hfj.
    destruct (decide (i = j)) as [|Hne]; [assumption|exfalso].
    pose proof (total_two (member p) phs i j _ _ Hne Hi Hj).
    pose proof (inv_active _ _ Hcons p).
    pose proof (b2n_le (bool_decide (p ∈ active (c_hp c)))). lia.
  - intros i c1 gi g1 p ok Hs Hgi Hg1 Hops. rewrite <- Hmem.
    unfold sched in Hs. rewrite Hgi in Hs.
    destruct (step_goroutine gi (c_hp c) (c_w c)) as [[[[g2 hp2] w2] new]|] eqn:Hstep;
      [|discriminate].
    inversion Hs; subst c1; clear Hs. cbn in Hg1.
    pose proof (lookup_lt_Some _ _ _ Hgi) as Hlt.
    rewrite lookup_app_l in Hg1 by (rewrite length_insert; exact Hlt).
    rewrite list_lookup_insert_eq in Hg1 by exact Hlt.
    inversion Hg1; subst g2; clear Hg1.
    apply step_history in Hstep as [Hh | (X & e & x & Hh & Hhandle)].
    + rewrite Hh in Hops. rewrite <- (app_nil_r (active_ops (history gi))) in Hops at 1.
      apply app_inv_head in Hops. discriminate Hops.
    + rewrite Hh, active_ops_app in Hops. apply app_inv_head in Hops.
      rewrite active_ops_one in Hops.
      destruct (active_op_of (Did e x)) as [op|] eqn:Hop; [|discriminate Hops].
      inversion Hops; subst op.
      rewrite (lookup_answer _ _ _ _ _ _ _ _ Hhandle Hop).
      split; [apply bool_decide_eq_true_1 | apply bool_decide_eq_true_2].
  - intros i g p Hg Hin.
    destruct (Forall2_lookup_r _ _ _ _ _ Hat Hg) as (ph & Hi & Hatg).
    eapply rejected_shape; eassumption.
  - intros i g p Hg Hfin Hin.
    destruct (Forall2_lookup_r _ _ _ _ _ Hat Hg) as (ph & Hi & Hatg).
    eapply released_shape; eassumption.
Qed.

Lemma moves_closed hp ph hp1 ph1 phnew :
  moves hp ph hp1 ph1 phnew ->
  (closed hp = true -> closed hp1 = true)
  /\ (ctx_done hp = true -> ctx_done hp1 = true).
Proof.
  intros Hmv. destruct Hmv as [b p pc hp1 pc1 Hdc | | | | | | | | | | |];
    [destruct Hdc|..]; cbn; auto.
Qed.

Lemma close_returned pc g r :
  at_phase (PhClose pc) g -> result g = Some r -> pc = clReturned /\ r = None.
Proof.
  intros Hat Hres. inversion Hat; subst. unfold result in Hres. cbn in Hres.
  destruct pc; cbn in Hres; try discriminate Hres. inversion Hres. auto.
Qed.

Lemma serves_close ph : serves ReqClose ph -> exists pc, ph = PhClose pc.
Proof. destruct ph; cbn; try tauto. eauto. Qed.

Lemma task_counted ph g t :
  at_phase ph g -> code g = Task t -> counted ph = 0%nat -> finished g = true.
Proof.
  intros Hat Hcode Hc. destruct Hat; cbn in *; try discriminate.
  reflexivity.
Qed.

Lemma lookup_stepped {A} (l new : list A) i x y :
  l !! i = Some x -> (<[i := y]> l ++ new) !! i = Some y.
Proof.
  intros Hi. pose proof (lookup_lt_Some _ _ _ Hi) as Hlt.
  rewrite lookup_app_l by (rewrite length_insert; exact Hlt).
  apply list_lookup_insert_eq. exact Hlt.
Qed.

Lemma lookup_other {A} (l new : list A) i j x y :
  l !! j = Some x -> j <> i -> (<[i := y]> l ++ new) !! j = Some x.
Proof.
  intros Hj Hne. pose proof (lookup_lt_Some _ _ _ Hj) as Hlt.
  rewrite lookup_app_l by (rewrite length_insert; exact Hlt).
  rewrite list_lookup_insert_ne by congruence. exact Hj.
Qed.

Lemma turned_away_ops ph g :
  at_phase ph g -> turned_away ph g ->
  active_ops (history g) = []
  /\ forall r, result g = Some r -> r = Some ErrClosed.
Proof.
  intros Hat [(b & p & pc & -> & Hpc) | [-> Hops]].
  - inversion Hat as [p0 pc0 t h Hdc Hops | p0 pc0 t h Hdc Hops | | | | | | |];
      subst; cbn [history]; rewrite Hops.
    + split; [destruct Hpc as [-> | [-> | [-> | ->]]]; reflexivity|].
      intros r Hr. unfold result in Hr. cbn in Hr.
      destruct Hpc as [-> | [-> | [-> | ->]]]; inversion Hdc; subst;
        try discriminate Hr.
      inversion Hr. reflexivity.
    + split; [destruct Hpc as [-> | [-> | [-> | ->]]]; reflexivity|].
      intros r Hr. discriminate Hr.
  - split; [assumption|]. inversion Hat; subst. intros r Hr. discriminate Hr.
Qed.

Lemma turned_away_step c phs i c1 ph ph1 phnew g g1 :
  Forall2 at_phase phs (c_threads c) ->
  sched i c = Some c1 ->
  closed (c_hp c) = true ->
  phs !! i = Some ph -> c_threads c !! i = Some g ->
  c_threads c1 !! i = Some g1 ->
  moves (c_hp c) ph (c_hp c1) ph1 phnew ->
  turned_away ph g -> turned_away ph1 g1.
Proof.
  intros Hat Hs Hcl Hi Hg Hg1 Hmv [(b & p & pc & -> & Hpc) | [-> Hops]].
  - inversion Hmv as [b0 p0 pc0 hp1 pc1 Hdc | | | | | | | | | | |]; subst.
    + left. exists b, p, pc1. split; [reflexivity|].
      destruct Hpc as [-> | [-> | [-> | ->]]]; inversion Hdc; subst; auto; congruence.
    + right. split; [reflexivity|].
      destruct (Forall2_lookup_l _ _ _ _ _ Hat Hi) as (g' & Hg' & Hatg).
      rewrite Hg in Hg'. inversion Hg'; subst g'; clear Hg'.
      unfold sched in Hs. rewrite Hg in Hs.
      destruct (step_goroutine g (c_hp c) (c_w c)) as [[[[g2 hp2] w2] new]|] eqn:Hstep;
        [|discriminate].
      inversion Hs; subst c1; clear Hs. cbn in Hg1.
      rewrite (lookup_stepped _ _ _ _ _ Hg) in Hg1. inversion Hg1; subst g2.
      destruct Hpc as [-> | [-> | [-> | ->]]]; try discriminate.
      inversion Hatg as [| p0 pc0 t h Hdc Hops0 | | | | | | |]; subst.
      inversion Hdc; subst. cbn in Hstep.
      destruct (refCount (c_hp c)); [discriminate|].
      inversion Hstep; subst. cbn [history]. rewrite active_ops_app. match goal with Hh : active_ops h = _ |- _ => rewrite Hh end. reflexivity.
  - inversion Hmv.
Qed.

Lemma turned_away_future s1 : forall c phs j ph g c1,
  invariant c phs ->
  closed (c_hp c) = true ->
  phs !! j = Some ph -> c_threads c !! j = Some g ->
  turned_away ph g ->
  exec s1 c = Some c1 ->
  exists phs1 ph1 g1,
    invariant c1 phs1 /\ phs1 !! j = Some ph1 /\ c_threads c1 !! j = Some g1
    /\ turned_away ph1 g1.
Proof.
  induction s1 as [|i s1 IH]; intros c phs j ph g c1 Hinv Hcl Hj Hg Hta Hex;
    cbn in Hex.
  - inversion Hex; subst. eauto 10.
  - destruct (sched i c) as [c2|] eqn:Hs; [|discriminate].
    destruct (sched_invariant _ _ _ _ Hinv Hs) as (ph0 & ph1 & phnew & Hi & Hmv & Hinv2).
    pose proof (moves_closed _ _ _ _ _ Hmv) as [Hcl2 _]. specialize (Hcl2 Hcl).
    destruct Hinv as [Hat Hcons].
    destruct (decide (j = i)) as [->|Hne].
    + rewrite Hj in Hi. inversion Hi; subst ph0; clear Hi.
      destruct Hinv2 as [Hat2 Hcons2].
      pose proof (lookup_stepped _ phnew _ _ ph1 Hj) as Hj2.
      destruct (Forall2_lookup_l _ _ _ _ _ Hat2 Hj2) as (g2 & Hg2 & _).
      eapply IH; [exact (conj Hat2 Hcons2) | exact Hcl2 | exact Hj2 | exact Hg2 | | exact Hex].
      exact (turned_away_step _ _ _ _ _ _ _ _ _ Hat Hs Hcl Hj Hg Hg2 Hmv Hta).
    + pose proof (lookup_other _ phnew i j _ ph1 Hj Hne) as Hj2.
      assert (c_threads c2 !! j = Some g) as Hg2.
      { unfold sched in Hs.
        destruct (c_threads c !! i) as [gi|] eqn:Hgi; [|discriminate].
        destruct (step_goroutine gi (c_hp c) (c_w c)) as [[[[g3 hp3] w3] new]|];
          [|discriminate].
        inversion Hs; subst c2. cbn. by apply lookup_other. }
      eapply IH; [exact Hinv2 | exact Hcl2 | exact Hj2 | exact Hg2 | | exact Hex].
      destruct Hta as [Hta | Hta]; [left | right]; assumption.
Qed.

Lemma at_dc_at_RLock p pc t : at_dc p pc t -> at_RLock t = true -> pc = pcBegin.
Proof.
  intros Hat Hr. destruct Hat; try reflexivity; try discriminate Hr.
  match goal with Hq : quiet _ |- _ => destruct Hq as [r | X e k He Hk] end; cbn in Hr; [discriminate|].
  destruct e; try discriminate He; discriminate Hr.
Qed.

Lemma at_RLock_in_task t : at_RLock (in_task t) = true -> at_RLock t = true.
Proof. destruct t as [r | X e k | task k]; cbn; auto. Qed.

(** A goroutine that is about to start a [DirectConnect] call. *)
Lemma about_to_begin ph g :
  at_phase ph g ->
  (exists p, code g = Call (DirectConnect p)
             \/ code g = Task (in_task (DirectConnect p))) ->
  turned_away ph g.
Proof.
  intros Hat (p & Hcode). left.
  destruct Hat as
    [p0 pc t h Hdc Hops | p0 pc t h Hdc Hops | pc h Hops | conn h Hops
    | conn h Hops | h Hops | conn h Hops | h Hops | h Hops]; cbn [code] in Hcode;
    destruct Hcode as [Hcode|Hcode]; try discriminate Hcode;
    injection Hcode as Hc;
    match type of Hc with
    | ?l = _ => assert (Hr : at_RLock l = true) by (rewrite Hc; reflexivity)
    end; clear Hc.
  all: try (exfalso; destruct pc; discriminate Hr).
  all: try (exfalso; discriminate Hr).
  all: eexists _, _, _; (split; [reflexivity|]); left;
    eapply at_dc_at_RLock; eauto using at_RLock_in_task.
Qed.

Lemma close_phase calls phs c i g :
  invariant c phs -> serving calls phs ->
  calls !! i = Some ReqClose -> c_threads c !! i = Some g ->
  exists pc, phs !! i = Some (PhClose pc) /\ at_phase (PhClose pc) g.
Proof.
  intros [Hat _] Hsv Hi Hg.
  destruct (Hsv _ _ Hi) as (ph & Hph & Hs).
  destruct (serves_close _ Hs) as [pc ->]. exists pc. split; [assumption|].
  destruct (Forall2_lookup_l _ _ _ _ _ Hat Hph) as (g' & Hg' & Hatg).
  rewrite Hg in Hg'. inversion Hg'. subst g'. assumption.
Qed.

(** C7, as the code has it.  In every state the calls from outside can
    reach under any schedule: a [Close] that has returned has returned nil,
    with [hp.closed] set and [hp.ctx] cancelled; the step by which it
    returns is taken with [hp.refCount] at zero, when every goroutine
    started by [Connected] has finished, and with it the [DirectConnect]
    it ran (calls of [DirectConnect] from outside are not counted and are
    not waited for); once [hp.closed] is set, every goroutine about to
    start [DirectConnect] will never look up or change [hp.active], and a
    call from outside returns nothing but [ErrClosed].  And [Close] run on
    its own returns nil when nobody holds [hp.closeMx] and [hp.refCount]
    is zero. *)
Theorem close_contract flt w calls s c i g :
  exec s (init flt w calls) = Some c ->
  calls !! i = Some ReqClose ->
  c_threads c !! i = Some g ->
  (forall r, result g = Some r ->
     r = None /\ closed (c_hp c) = true /\ ctx_done (c_hp c) = true)
  /\ (forall c1 g1 r,
        sched i c = Some c1 -> c_threads c1 !! i = Some g1 ->
        result g1 = Some r ->
        refCount (c_hp c) = 0%nat
        /\ forall j gj t, c_threads c !! j = Some gj -> code gj = Task t ->
                          finished gj = true)
  /\ (closed (c_hp c) = true ->
      forall j gj,
        c_threads c !! j = Some gj ->
        (exists p, code gj = Call (DirectConnect p)
                   \/ code gj = Task (in_task (DirectConnect p))) ->
        forall s1 c1 g1,
          exec s1 c = Some c1 -> c_threads c1 !! j = Some g1 ->
          active_ops (history g1) = []
          /\ forall r, result g1 = Some r -> r = Some ErrClosed)
  /\ (forall hp w',
        readers (closeMx hp) = 0%nat -> writer (closeMx hp) = false ->
        refCount hp = 0%nat ->
        exists hp1 tr,
          run Close hp w' = Some (None, hp1, w', tr)
          /\ closed hp1 = true /\ ctx_done hp1 = true).
Proof.
  intros Hex Hi Hg.
  destruct (exec_serving _ _ _ _ _ (init_invariant flt w calls)
              (serving_init calls) Hex) as (phs & Hinv & Hsv).
  destruct (close_phase _ _ _ _ _ Hinv Hsv Hi Hg) as (pc & Hpc & Hatg).
  split; [|split; [|split; [|exact Close_returns]]].
  - intros r Hr. destruct (close_returned _ _ _ Hatg Hr) as [-> ->].
    destruct Hinv as [_ Hcons]. split; [reflexivity|]. split.
    + destruct (closed (c_hp c)) eqn:Hcl; [reflexivity|].
      pose proof (inv_closed _ _ Hcons Hcl) as Hz.
      pose proof (total_lookup has_closed _ _ _ Hpc) as Hle. cbn in Hle. lia.
    + destruct (ctx_done (c_hp c)) eqn:Hcl; [reflexivity|].
      pose proof (inv_ctx _ _ Hcons Hcl) as Hz.
      pose proof (total_lookup has_cancelled _ _ _ Hpc) as Hle. cbn in Hle. lia.
  - intros c1 g1 r Hs Hg1 Hr.
    destruct (sched_invariant _ _ _ _ Hinv Hs) as (ph0 & ph1 & phnew & Hi0 & Hmv & [Hat1 _]).
    rewrite Hpc in Hi0. inversion Hi0; subst ph0; clear Hi0.
    pose proof (lookup_stepped _ phnew _ _ ph1 Hpc) as Hi1.
    destruct (Forall2_lookup_l _ _ _ _ _ Hat1 Hi1) as (g' & Hg' & Hatg1).
    rewrite Hg1 in Hg'. inversion Hg'; subst g'; clear Hg'.
    assert (refCount (c_hp c) = 0%nat) as Hz.
    { inversion Hmv; subst;
        try (destruct (close_returned _ _ _ Hatg1 Hr) as [? _]; discriminate).
      assumption. }
    split; [exact Hz|]. intros j gj t Hj Hcode.
    destruct Hinv as [Hat Hcons].
    destruct (Forall2_lookup_r _ _ _ _ _ Hat Hj) as (phj & Hphj & Hatj).
    eapply task_counted; [exact Hatj | exact Hcode |].
    pose proof (total_lookup counted _ _ _ Hphj) as Hle.
    rewrite <- (inv_refCount _ _ Hcons), Hz in Hle. lia.
  - intros Hcl j gj Hj Hcode s1 c1 g1 Hex1 Hg1.
    pose proof Hinv as [Hat _].
    destruct (Forall2_lookup_r _ _ _ _ _ Hat Hj) as (phj & Hphj & Hatj).
    pose proof (about_to_begin _ _ Hatj Hcode) as Hta.
    destruct (turned_away_future _ _ _ _ _ _ _ Hinv Hcl Hphj Hj Hta Hex1)
      as (phs1 & ph1 & g1' & [Hat1 _] & Hph1 & Hg1' & Hta1).
    rewrite Hg1 in Hg1'. inversion Hg1'; subst g1'; clear Hg1'.
    destruct (Forall2_lookup_l _ _ _ _ _ Hat1 Hph1) as (g' & Hg' & Hatg1).
    rewrite Hg1 in Hg'. inversion Hg'; subst g'; clear Hg'.
    exact (turned_away_ops _ _ Hatg1 Hta1).
Qed.

End Interleaved.

(** ** The claims on the scripted collaborators *)

Import Scenario.

(** [observe E f v H]: from [E : x = Some y], the fact [H : f y = v], the
    value [v] being computed from [x]. *)
Ltac observe E f v H :=
  match type of E with
  | ?x = Some _ =>
      assert (H : option_map f x = Some v) by (vm_compute; reflexivity);
      rewrite E in H; unfold option_map in H; apply (inj Some) in H;
      cbv beta iota in H
  end.

(** [started x c E]: the schedule [x] can be run; [c] is where it ends. *)
Ltac started x c E :=
  let Hs := fresh in
  assert (Hs : option_map (fun _ => tt) x = Some tt) by (vm_compute; reflexivity);
  destruct x as [c|] eqn:E; [clear Hs | discriminate Hs].

Lemma exchange_sequence_witness :
  (exists res hp1 w1 tr,
      run (env := scripted timeouts) (initiateHolePunchImpl str0) hp0 w0
        = Some (res, hp1, w1, tr)
      /\ res = (["/ip4/198.51.100.9/tcp/4001"], ["/ip4/203.0.113.7/tcp/4001"],
                201000000, None)
      /\ exists d0 t0 t1 msg,
          on_wire tr =
            [Clock d0; Clock t0;
             Sent (mkHolePunch HolePunch_CONNECT
                     (addrsToBytes ["/ip4/203.0.113.7/tcp/4001"]));
             Got msg None; Clock t1;
             Sent (mkHolePunch HolePunch_SYNC [])]
          /\ 201000000 = t1 - t0)
  /\ (exists res hp1 w1 tr,
        run (env := scripted wrong_kind) (initiateHolePunchImpl str0) hp0 w0
          = Some (res, hp1, w1, tr)
        /\ got tr = [(mkHolePunch HolePunch_SYNC [], None)]
        /\ res = failed (errNotConnect HolePunch_SYNC)).
Proof.
  split.
  - destruct (exchange_sequence (env := scripted timeouts) str0 hp0 w0)
      as (res & hp1 & w1 & tr & Hrun & Hok & _).
    exists res, hp1, w1, tr. split; [exact Hrun|].
    observe Hrun (fun x : exchange * holePuncher * wstate * list entry =>
                    fst (fst (fst x)))
      (["/ip4/198.51.100.9/tcp/4001"], ["/ip4/203.0.113.7/tcp/4001"],
       201000000, @None error) Hres.
    cbn [fst] in Hres. split; [exact Hres|].
    destruct (Hok _ _ _ Hres) as (d0 & t0 & t1 & msg & la & Hw & _ & Hrtt & _).
    exists d0, t0, t1, msg. split; assumption.
  - destruct (exchange_sequence (env := scripted wrong_kind) str0 hp0 w0)
      as (res & hp1 & w1 & tr & Hrun & _ & Hbad).
    exists res, hp1, w1, tr. split; [exact Hrun|].
    observe Hrun (fun x : exchange * holePuncher * wstate * list entry => got (snd x))
      [(mkHolePunch HolePunch_SYNC [], @None error)] Hgot.
    cbn [snd] in Hgot. split; [exact Hgot|].
    apply (Hbad (mkHolePunch HolePunch_SYNC [])).
    + rewrite Hgot. left. reflexivity.
    + discriminate.
Defined.

Lemma no_public_address_witness :
  (exists res hp1 w1 tr,
      run (env := scripted only_relays) (initiateHolePunchImpl str0) hp0 w0
        = Some (res, hp1, w1, tr)
      /\ listened tr = [["/ip4/203.0.113.1/tcp/4001/p2p/QmRelay/p2p-circuit"]]
      /\ res = failed errNoLocalAddr
      /\ sent tr = [])
  /\ (exists res hp1 w1 tr,
        run (env := scripted no_remote_addrs) (initiateHolePunchImpl str0) hp0 w0
          = Some (res, hp1, w1, tr)
        /\ got tr = [(mkHolePunch HolePunch_CONNECT [], None)]
        /\ res = failed errNoRemoteAddr
        /\ exists obs, obs <> []
           /\ sent tr = [mkHolePunch HolePunch_CONNECT (addrsToBytes obs)]).
Proof.
  split.
  - destruct (no_public_address (env := scripted only_relays) str0 hp0 w0)
      as (res & hp1 & w1 & tr & Hrun & Hlocal & _).
    exists res, hp1, w1, tr. split; [exact Hrun|].
    observe Hrun (fun x : exchange * holePuncher * wstate * list entry =>
                    listened (snd x))
      [["/ip4/203.0.113.1/tcp/4001/p2p/QmRelay/p2p-circuit"]] Hl.
    cbn [snd] in Hl. split; [exact Hl|].
    destruct (Hlocal ["/ip4/203.0.113.1/tcp/4001/p2p/QmRelay/p2p-circuit"])
      as (Hres & _ & Hsent).
    + rewrite Hl. left. reflexivity.
    + vm_compute. reflexivity.
    + split; assumption.
  - destruct (no_public_address (env := scripted no_remote_addrs) str0 hp0 w0)
      as (res & hp1 & w1 & tr & Hrun & _ & Hremote).
    exists res, hp1, w1, tr. split; [exact Hrun|].
    observe Hrun (fun x : exchange * holePuncher * wstate * list entry => got (snd x))
      [(mkHolePunch HolePunch_CONNECT [], @None error)] Hgot.
    cbn [snd] in Hgot. split; [exact Hgot|].
    destruct (Hremote (mkHolePunch HolePunch_CONNECT [])) as (Hres & _ & Hsent).
    + rewrite Hgot. left. reflexivity.
    + reflexivity.
    + vm_compute. reflexivity.
    + split; assumption.
Defined.

Lemma wait_is_half_rtt_witness :
  exists x hp1 w1 tr1 res hp2 w2 tr,
    run (env := scripted timeouts) (initiateHolePunch "QmA") hp0 w0
      = Some (x, hp1, w1, tr1)
    /\ run (env := scripted timeouts) (holePunchLoop "QmA" 3 1) hp0 w0
       = Some (res, hp2, w2, tr)
    /\ x = (["/ip4/198.51.100.9/tcp/4001"], ["/ip4/203.0.113.7/tcp/4001"],
            201000000, None)
    /\ exists wk rest more,
        tr = tr1 ++ rest
        /\ milestones rest = MTimer (Z.quot 201000000 2) :: MWake wk :: more.
Proof.
  destruct (wait_is_half_rtt (env := scripted timeouts) "QmA" 2 1 hp0 w0)
    as (x & hp1 & w1 & tr1 & res & hp2 & w2 & tr & Hex & Hloop & Hwait).
  exists x, hp1, w1, tr1, res, hp2, w2, tr.
  split; [exact Hex|]. split; [exact Hloop|].
  observe Hex (fun x : exchange * holePuncher * wstate * list entry =>
                 fst (fst (fst x)))
    (["/ip4/198.51.100.9/tcp/4001"], ["/ip4/203.0.113.7/tcp/4001"],
     201000000, @None error) Hx.
  cbn [fst] in Hx. split; [exact Hx|].
  destruct (Hwait _ _ _ Hx)
    as (d0 & t0 & t1 & msg & wk & rest & more & _ & Hrtt & Htr & Hm & _).
  exists wk, rest, more. split; [exact Htr|]. rewrite Hrtt. exact Hm.
Defined.

Lemma exchange_error_aborts_witness :
  let refused :=
    Errorf "failed to open hole-punching stream: %w"
      [AErr (foreign "connection refused")] in
  (exists x hp1 w1 tr1,
      run (env := scripted stream_refused) (initiateHolePunch "QmA") hp0 w0
        = Some (x, hp1, w1, tr1)
      /\ snd x = Some refused
      /\ exists w2 tr,
          run (env := scripted stream_refused) (holePunchLoop "QmA" 3 1) hp0 w0
            = Some (Some refused, hp1, w2, tr)
          /\ iterations tr = 1%nat)
  /\ (exists res hp1 w1 tr,
        run (env := scripted stream_refused) (DirectConnect "QmA") hp0 w0
          = Some (res, hp1, w1, tr)
        /\ In (MProtocolError "QmA" refused) (milestones tr)
        /\ res = Some refused).
Proof.
  intros refused. split.
  - destruct (proj1 (exchange_error_aborts (env := scripted stream_refused))
                "QmA" 2%nat 1 hp0 w0)
      as (x & hp1 & w1 & tr1 & Hex & Hloop).
    exists x, hp1, w1, tr1. split; [exact Hex|].
    observe Hex (fun x : exchange * holePuncher * wstate * list entry =>
                   snd (fst (fst (fst x))))
      (Some refused) Hx.
    cbn [fst] in Hx. split; [exact Hx|].
    destruct (Hloop _ Hx) as (w2 & tr & Hrun & _ & Hit).
    exists w2, tr. split; assumption.
  - destruct (proj2 (exchange_error_aborts (env := scripted stream_refused))
                "QmA" hp0 w0 eq_refl eq_refl)
      as (res & hp1 & w1 & tr & Hrun & Hlast & _).
    exists res, hp1, w1, tr. split; [exact Hrun|].
    observe Hrun (fun x : option error * holePuncher * wstate * list entry =>
                    milestones (snd x))
      [MExchange "QmA"; MProtocolError "QmA" refused] Hm.
    cbn [snd] in Hm.
    assert (In (MProtocolError "QmA" refused) (milestones tr)) as Hin
      by (rewrite Hm; right; left; reflexivity).
    split; [exact Hin|]. exact (proj1 (Hlast _ _ Hin)).
Defined.

Lemma retries_exhausted_witness :
  exists res hp1 w1 tr,
    run (env := scripted timeouts) (DirectConnect "QmA") hp0 w0
      = Some (res, hp1, w1, tr)
    /\ failed_punches tr = 3%nat
    /\ res = Some (Errorf "all retries for hole punch with peer %s failed"
                     [APeer "QmA"])
    /\ iterations tr = 3%nat.
Proof.
  destruct (retries_exhausted (env := scripted timeouts) "QmA" hp0 w0 eq_refl eq_refl)
    as (res & hp1 & w1 & tr & Hrun & Hall).
  exists res, hp1, w1, tr. split; [exact Hrun|].
  observe Hrun (fun x : option error * holePuncher * wstate * list entry =>
                  failed_punches (snd x))
    3%nat Hf.
  cbn [snd] in Hf. split; [exact Hf|].
  destruct (Hall Hf) as (Hres & _ & _ & Hit & _). split; assumption.
Defined.

Lemma cancelled_while_sleeping_witness :
  exists res hp1 w1 tr,
    run (env := scripted shut_down) (DirectConnect "QmA") hp0 w0
      = Some (res, hp1, w1, tr)
    /\ In (MWake CtxDone) (milestones tr)
    /\ res = Some context_Canceled
    /\ iterations tr = 1%nat.
Proof.
  destruct (cancelled_while_sleeping (env := scripted shut_down) "QmA" hp0 w0
              eq_refl eq_refl)
    as (res & hp1 & w1 & tr & Hrun & Hcancel).
  exists res, hp1, w1, tr. split; [exact Hrun|].
  observe Hrun (fun x : option error * holePuncher * wstate * list entry =>
                  milestones (snd x))
    [MExchange "QmA"; MTimer 100500000; MWake CtxDone; MStop;
     MCtxErr (Some context_Canceled)] Hm.
  cbn [snd] in Hm.
  assert (In (MWake CtxDone) (milestones tr)) as Hin
    by (rewrite Hm; right; right; left; reflexivity).
  split; [exact Hin|]. split; [exact (proj1 (Hcancel Hin))|].
  unfold iterations. rewrite Hm. reflexivity.
Defined.

Lemma role_follows_legacy_flag_witness :
  (exists res hp1 w1 tr,
      run (env := scripted timeouts) (DirectConnect "QmA") hp0 w0
        = Some (res, hp1, w1, tr)
      /\ legacy_reads tr = [true; true; true]
      /\ List.map fst (punched tr) = [false; false; false])
  /\ (exists res hp1 w1 tr,
        run (env := scripted timeouts) (DirectConnect "QmA") modern w0
          = Some (res, hp1, w1, tr)
        /\ legacy_reads tr = [false; false; false]
        /\ List.map fst (punched tr) = [true; true; true]).
Proof.
  split.
  - destruct (role_follows_legacy_flag (env := scripted timeouts) None "QmA" hp0 w0
                eq_refl eq_refl)
      as (_ & res & hp1 & w1 & tr & Hrun & Hroles & _).
    exists res, hp1, w1, tr. split; [exact Hrun|].
    observe Hrun (fun x : option error * holePuncher * wstate * list entry =>
                    legacy_reads (snd x))
      [true; true; true] Hl.
    cbn [snd] in Hl. split; [exact Hl|]. rewrite Hroles, Hl. reflexivity.
  - destruct (role_follows_legacy_flag (env := scripted timeouts) None "QmA" modern w0
                eq_refl eq_refl)
      as (_ & res & hp1 & w1 & tr & Hrun & Hroles & _).
    exists res, hp1, w1, tr. split; [exact Hrun|].
    observe Hrun (fun x : option error * holePuncher * wstate * list entry =>
                    legacy_reads (snd x))
      [false; false; false] Hl.
    cbn [snd] in Hl. split; [exact Hl|]. rewrite Hroles, Hl. reflexivity.
Defined.

Lemma rejection_leaves_active_witness :
  (exists res hp1 w1 tr,
      run (env := scripted timeouts) (DirectConnect "QmA") (set_closed true busy) w0
        = Some (res, hp1, w1, tr)
      /\ res = Some ErrClosed /\ hp1 = set_closed true busy /\ active_ops tr = [])
  /\ (exists res hp1 w1 tr,
        run (env := scripted timeouts) (DirectConnect "QmA") busy w0
          = Some (res, hp1, w1, tr)
        /\ res = Some ErrHolePunchActive /\ hp1 = busy
        /\ "QmA" ∈ active hp1
        /\ active_ops tr = [Lookup "QmA" true]).
Proof.
  split.
  - destruct (rejection_leaves_active (env := scripted timeouts) "QmA"
                (set_closed true busy) w0 eq_refl eq_refl)
      as (res & hp1 & w1 & tr & Hrun & Hclosed & _).
    exists res, hp1, w1, tr. split; [exact Hrun|]. exact (Hclosed eq_refl).
  - destruct (rejection_leaves_active (env := scripted timeouts) "QmA" busy w0
                eq_refl eq_refl)
      as (res & hp1 & w1 & tr & Hrun & _ & Hdup).
    exists res, hp1, w1, tr. split; [exact Hrun|].
    apply Hdup; [reflexivity|].
    apply (proj1 (bool_decide_eq_true ("QmA" ∈ active busy))). vm_compute. reflexivity.
Defined.

Lemma active_membership_witness :
  exists c,
    exec (env := scripted timeouts) first_then_second (init (env := scripted timeouts) None w0 twice) = Some c
    /\ "QmA" ∈ active (c_hp c)
    /\ exists i g, c_threads c !! i = Some g /\ in_flight "QmA" g.
Proof.
  started (exec (env := scripted timeouts) first_then_second (init (env := scripted timeouts) None w0 twice)) c E.
  exists c. split; [reflexivity|].
  destruct (active_membership (env := scripted timeouts) c) as (Hmember & _).
  { exists None, w0, twice, first_then_second. exact E. }
  observe E (fun c : snapshot => bool_decide ("QmA" ∈ active (c_hp c))) true Hin.
  apply bool_decide_eq_true in Hin. split; [exact Hin|].
  apply Hmember. exact Hin.
Defined.

(** The second of two calls for the same peer has returned, and the peer is
    in [hp.active]: the first call holds it. *)
Lemma duplicate_returns_while_active :
  exists c,
    exec (env := scripted timeouts) first_then_second (init (env := scripted timeouts) None w0 twice) = Some c
    /\ List.map result (c_threads c) = [None; Some (Some ErrHolePunchActive)]
    /\ "QmA" ∈ active (c_hp c).
Proof.
  started (exec (env := scripted timeouts) first_then_second (init (env := scripted timeouts) None w0 twice)) c E.
  exists c. split; [reflexivity|].
  observe E (fun c : snapshot => List.map result (c_threads c))
    [None; Some (Some ErrHolePunchActive)] Hres.
  observe E (fun c : snapshot => bool_decide ("QmA" ∈ active (c_hp c))) true Hin.
  apply bool_decide_eq_true in Hin. split; assumption.
Qed.

(** Three exchanges succeeded and three punches failed: the error returned
    carries the peer and no number. *)
Lemma error_names_no_count :
  exists res hp1 w1 tr,
    run (env := scripted timeouts) (DirectConnect "QmA") hp0 w0
      = Some (res, hp1, w1, tr)
    /\ iterations tr = 3%nat
    /\ failed_punches tr = 3%nat
    /\ exists e, res = Some e
                 /\ fmtargs e = [APeer "QmA"]
                 /\ names_count maxRetries e = false.
Proof.
  started (run (env := scripted timeouts) (DirectConnect "QmA") hp0 w0) x E.
  destruct x as [[[res hp1] w1] tr]. exists res, hp1, w1, tr.
  split; [reflexivity|].
  observe E (fun x : option error * holePuncher * wstate * list entry =>
               (fst (fst (fst x)), iterations (snd x), failed_punches (snd x)))
    (Some (Errorf "all retries for hole punch with peer %s failed" [APeer "QmA"]),
     3%nat, 3%nat) Hobs.
  cbn [fst snd] in Hobs. injection Hobs as Hres Hit Hf.
  split; [exact Hit|]. split; [exact Hf|].
  eexists. split; [exact Hres|]. split; reflexivity.
Qed.

Lemma close_contract_witness :
  exists c g,
    exec (env := scripted timeouts) call_then_close (init (env := scripted timeouts) None w0 call_and_close)
      = Some c
    /\ c_threads c !! 1%nat = Some g
    /\ result g = Some None
    /\ closed (c_hp c) = true
    /\ ctx_done (c_hp c) = true.
Proof.
  started (exec (env := scripted timeouts) call_then_close
             (init (env := scripted timeouts) None w0 call_and_close)) c E.
  observe E (fun c : snapshot => List.map result (c_threads c))
    [@None (option error); Some None] Hres.
  assert (List.map result (c_threads c) !! 1%nat = Some (Some None)) as Hg1
    by (rewrite Hres; reflexivity).
  rewrite list_lookup_fmap in Hg1.
  destruct (c_threads c !! 1%nat) as [g|] eqn:Hg; [|discriminate Hg1].
  cbn in Hg1. apply (inj Some) in Hg1.
  exists c, g. split; [reflexivity|]. split; [exact Hg|].
  destruct (close_contract (env := scripted timeouts) None w0 call_and_close
              call_then_close c 1%nat g
              E eq_refl Hg) as (Hnil & _).
  destruct (Hnil _ Hg1) as (_ & Hclosed & Hctx).
  split; [exact Hg1|]. split; assumption.
Defined.

(** [Close] has returned nil, and the call of [DirectConnect] made before it
    has stored its peer in [hp.active] and has not returned. *)
Lemma close_returns_before_call :
  exists c,
    exec (env := scripted timeouts) call_then_close (init (env := scripted timeouts) None w0 call_and_close)
      = Some c
    /\ List.map result (c_threads c) = [None; Some None]
    /\ List.map (fun g => active_ops (history g)) (c_threads c)
       = [[Lookup "QmA" false; Store "QmA"]; []]
    /\ "QmA" ∈ active (c_hp c).
Proof.
  started (exec (env := scripted timeouts) call_then_close
             (init (env := scripted timeouts) None w0 call_and_close)) c E.
  exists c. split; [reflexivity|].
  observe E (fun c : snapshot => List.map result (c_threads c))
    [@None (option error); Some None] Hres.
  observe E (fun c : snapshot => List.map (fun g => active_ops (history g)) (c_threads c))
    [[Lookup "QmA" false; Store "QmA"]; []] Hops.
  observe E (fun c : snapshot => bool_decide ("QmA" ∈ active (c_hp c))) true Hin.
  apply bool_decide_eq_true in Hin. split; [exact Hres|]. split; assumption.
Qed.

(** * Further properties *)

(** ** The collaborator calls of a [DirectConnect] *)

Section Calls.
Context {maddr : AddrOps} {env : World}.

#[local] Arguments filterLocal : simpl never.
#[local] Arguments filterRemote : simpl never.
#[local] Arguments no_addrs : simpl never.
#[local] Arguments Z.add : simpl never.
#[local] Arguments Z.sub : simpl never.
#[local] Arguments Z.quot : simpl never.
#[local] Arguments Z.eqb : simpl never.

Lemma omap_nothing {A B} (f : A -> option B) (l : list A) :
  Forall (fun a => f a = None) l -> omap f l = [].
Proof. induction 1 as [|a l Ha _ IH]; cbn; [reflexivity|]. rewrite Ha. exact IH. Qed.

Lemma ext_obs_filter {A} (f : forall X, extE X -> X -> option A) tr :
  omap (ext_obs f) tr = omap (ext_obs f) (List.filter is_ext tr).
Proof.
  induction tr as [|[X e x] tr IH]; [reflexivity|].
  destruct e; cbn; rewrite ?IH; reflexivity.
Qed.

Lemma ext_obs_not_ext {A} (f : forall X, extE X -> X -> option A) en :
  is_ext en = false -> ext_obs f en = None.
Proof. destruct en as [X e x]. destruct e; cbn; congruence. Qed.

(** The exchange tidies up after itself, however it ends. *)
Lemma initiateHolePunch_events rp hp w x hp1 w1 tr :
  run (initiateHolePunch rp) hp w = Some (x, hp1, w1, tr) ->
  Forall (fun en => exchange_event en = true) tr
  /\ reserved tr = released tr
  /\ ((exists e,
          streams tr = [Opened rp Protocol (inr e)]
          /\ x = failed (Errorf "failed to open hole-punching stream: %w" [AErr e])
          /\ List.filter is_ext tr = [Did (Ext (NewStream rp Protocol)) (inr e)])
      \/ (exists s resets,
            streams tr = Opened rp Protocol (inl s) :: resets ++ [Closed s]
            /\ Forall (eq (WasReset s)) resets
            /\ (resets = [] <-> snd x = None)
            /\ last tr = Some (Did (Ext (StreamClose s)) tt)
            /\ (forall e, snd x = Some e ->
                  exists e0, e = Errorf "failed to initiateHolePunch: %w" [AErr e0]))).
Proof.
  intros Hrun. unfold initiateHolePunch, initiateHolePunchImpl in Hrun.
  symex Hrun; inversion Hrun; subst; clear Hrun.
  all: repeat match goal with u : unit |- _ => destruct u end.
  all: split; [repeat constructor|].
  all: split; [reflexivity|].
  all: first
    [ left; eexists; repeat split; reflexivity
    | right; eexists _, [];
      split; [reflexivity|]; split; [constructor|];
      split; [split; reflexivity|];
      split; [reflexivity|]; intros e' He; discriminate He
    | right; eexists _, [_];
      split; [reflexivity|]; split; [repeat constructor|];
      split; [split; intros He; discriminate He|];
      split; [reflexivity|]; intros e' He; inversion He; eexists; reflexivity
    | right; eexists _, [_; _];
      split; [reflexivity|]; split; [repeat constructor|];
      split; [split; intros He; discriminate He|];
      split; [reflexivity|]; intros e' He; inversion He; eexists; reflexivity ].
Qed.

Lemma holePunchLoop_runs rp n : forall i hp w res hp1 w1 tr,
  run (holePunchLoop rp n i) hp w = Some (res, hp1, w1, tr) ->
  loop_run rp n false tr.
Proof.
  induction n as [|n IH]; intros i hp w res hp1 w1 tr Hrun.
  - cbn in Hrun. inversion Hrun; subst. constructor.
  - cbn [holePunchLoop] in Hrun.
    apply run_bind_inv in Hrun as (x & hpa & wa & tr1 & tr2 & Hex & Hrest & ->).
    apply (lr_exchange rp n _ _ _ _ _ _ _ Hex).
    destruct x as [[[addrs obs] rtt] e].
    destruct e as [err|].
    + symex Hrest. inversion Hrest; subst.
      repeat (apply lr_event; [reflexivity|]). apply lr_return.
    + unfold punch in Hrest. symex Hrest.
      all: try match type of Hrest with
             | context [run (holePunchLoop ?a ?b ?c) ?d ?e] =>
                 destruct (run (holePunchLoop a b c) d e) as [[[[? ?] ?] ?]|] eqn:Hloop;
                 cbn in Hrest; [apply IH in Hloop|discriminate Hrest]
             end.
      all: inversion Hrest; subst; clear Hrest.
      all: repeat (apply lr_event; [reflexivity|]).
      all: first [apply lr_return | apply lr_next; assumption].
Qed.

(** What the parts of a loop trace show carries over to the whole. *)
Lemma loop_run_omap {A} (f : entry -> option A) (P : list A -> Prop) rp :
  (forall en, punch_event en = true -> f en = None) ->
  P [] ->
  (forall hp w x hp1 w1 trx rest,
      run (initiateHolePunch rp) hp w = Some (x, hp1, w1, trx) ->
      P rest -> P (omap f trx ++ rest)) ->
  forall n b tr, loop_run rp n b tr -> P (omap f tr).
Proof.
  intros Hpunch Hnil Hex n b tr Hrun.
  induction Hrun as [| n hp w x hp1 w1 trx rest Hx _ IH | n en tr Hen _ IH | n | n tr _ IH].
  - exact Hnil.
  - rewrite omap_app. eapply Hex; eassumption.
  - cbn. rewrite (Hpunch _ Hen). exact IH.
  - exact Hnil.
  - exact IH.
Qed.

Lemma punch_event_ext {A} (f : forall X, extE X -> X -> option A) :
  (forall X (e : extE X) x, punch_event (Did (Ext e) x) = true -> f X e x = None) ->
  forall en, punch_event en = true -> ext_obs f en = None.
Proof.
  intros Hf [X e x] Hen. destruct e; try reflexivity. cbn. apply Hf. exact Hen.
Qed.

Lemma closed_in_turn_app cur a b :
  closed_in_turn cur a = true ->
  closed_in_turn cur (a ++ b) = closed_in_turn None b.
Proof.
  revert cur. induction a as [|ev a IH]; intros cur Ha; cbn in *.
  - destruct cur; [discriminate | reflexivity].
  - destruct ev as [p proto r | s | s].
    + destruct cur; [discriminate|]. destruct r; apply IH; exact Ha.
    + destruct cur as [s'|]; [|discriminate].
      apply andb_true_iff in Ha as [-> Ha]. cbn. apply IH. exact Ha.
    + destruct cur as [s'|]; [|discriminate].
      apply andb_true_iff in Ha as [-> Ha]. cbn. apply IH. exact Ha.
Qed.

Lemma Stream_eqb_refl s : Stream_eqb s s = true.
Proof. unfold Stream_eqb. rewrite Nat.eqb_refl, String.eqb_refl. reflexivity. Qed.

Lemma exchange_closed_in_turn rp hp w x hp1 w1 tr :
  run (initiateHolePunch rp) hp w = Some (x, hp1, w1, tr) ->
  closed_in_turn None (streams tr) = true.
Proof.
  intros Hrun.
  destruct (initiateHolePunch_events _ _ _ _ _ _ _ Hrun)
    as (_ & _ & [(e & -> & _) | (s & resets & -> & Hres & _)]); [reflexivity|].
  cbn. induction Hres as [|r resets <- _ IH]; cbn; rewrite Stream_eqb_refl; [reflexivity|].
  exact IH.
Qed.

(** The retry loop uses its streams one at a time and releases the memory
    it reserved. *)
Lemma loop_run_resources rp n b tr :
  loop_run rp n b tr ->
  closed_in_turn None (streams tr) = true
  /\ reserved tr = released tr
  /\ dials tr = [] /\ peerstore tr = [].
Proof.
  intros Hrun. repeat split.
  - apply (loop_run_omap (ext_obs stream_of)
             (fun l => closed_in_turn None l = true) rp) with (n := n) (b := b);
      [| reflexivity | | exact Hrun].
    + apply punch_event_ext. intros X e x. destruct e; try reflexivity; try discriminate.
    + intros hp w x hp1 w1 trx rest Hx Hrest.
      rewrite (closed_in_turn_app None); [exact Hrest|].
      eapply exchange_closed_in_turn; exact Hx.
  - unfold reserved, released.
    induction Hrun as [| n hp w x hp1 w1 trx rest Hx _ IH | n en tr Hen _ IH | n | n tr _ IH];
      try reflexivity; try assumption.
    + rewrite !omap_app, IH.
      destruct (initiateHolePunch_events _ _ _ _ _ _ _ Hx) as (_ & Hmem & _).
      unfold reserved, released in Hmem. rewrite Hmem. reflexivity.
    + cbn. rewrite IH.
      destruct en as [X e x]. destruct e as [X e| | | | | | | | | | | | | | | | | | | | |];
        try reflexivity.
      destruct e; try reflexivity; discriminate Hen.
  - apply (loop_run_omap (ext_obs dial_of) (fun l => l = []) rp) with (n := n) (b := b);
      [| reflexivity | | exact Hrun].
    + apply punch_event_ext. intros X e x. destruct e; try reflexivity; try discriminate.
    + intros hp w x hp1 w1 trx rest Hx ->. rewrite app_nil_r.
      destruct (initiateHolePunch_events _ _ _ _ _ _ _ Hx) as (Hev & _).
      apply omap_nothing. eapply Forall_impl; [exact Hev|].
      intros [X e y] Hen. destruct e; try reflexivity.
      destruct e; try reflexivity; discriminate Hen.
  - apply (loop_run_omap (ext_obs peerstore_of) (fun l => l = []) rp) with (n := n) (b := b);
      [| reflexivity | | exact Hrun].
    + apply punch_event_ext. intros X e x. destruct e; try reflexivity; try discriminate.
    + intros hp w x hp1 w1 trx rest Hx ->. rewrite app_nil_r.
      destruct (initiateHolePunch_events _ _ _ _ _ _ _ Hx) as (Hev & _).
      apply omap_nothing. eapply Forall_impl; [exact Hev|].
      intros [X e y] Hen. destruct e; try reflexivity.
      destruct e; try reflexivity; discriminate Hen.
Qed.

End Calls.

Section Dials.
Context {maddr : AddrOps} {env : World}.

#[local] Arguments Z.add : simpl never.
#[local] Arguments Z.sub : simpl never.

(** The [range] loop over the peerstore's addresses: nothing happens unless
    an address is public and no relay address, and then one dial is made
    and the loop is left. *)
Lemma directDial_runs rp addrs : forall hp w r hp1 w1 tr,
  run (directDial rp addrs) hp w = Some (r, hp1, w1, tr) ->
  (dialable addrs = false /\ r = None /\ tr = [])
  \/ (dialable addrs = true
      /\ exists err dt,
          dials tr = [(rp, directDialTimeout hp, err)]
          /\ traced tr =
               [match err with
                | Some e => DirectDialFailed rp dt e
                | None => DirectDialSuccessful rp dt
                end]
          /\ r = match err with Some _ => None | None => Some None end
          /\ streams tr = [] /\ reserved tr = [] /\ released tr = []
          /\ connections tr = [] /\ peerstore tr = []).
Proof.
  induction addrs as [|a rest IH]; intros hp w r hp1 w1 tr Hrun;
    cbn [directDial] in Hrun.
  - cbn in Hrun. inversion Hrun; subst. left. auto.
  - cbn [dialable existsb].
    destruct (negb (isRelayAddress a) && IsPublicAddr a) eqn:Ea; [|exact (IH _ _ _ _ _ _ Hrun)].
    right. split; [reflexivity|].
    symex Hrun; inversion Hrun; subst; clear Hrun.
    + exists (Some e), (z0 - z). repeat split; reflexivity.
    + exists None, (z0 - z). repeat split; reflexivity.
Qed.

(** The parts of a run of [directConnect]. *)
Lemma directConnect_runs rp hp w res hp1 w1 tr :
  run (directConnect rp) hp w = Some (res, hp1, w1, tr) ->
  (exists c, tr = [Did (Ext (GetDirectConnection rp)) (Some c)] /\ res = None)
  \/ (exists l0 l1 wc r hpd wd trd trl,
        tr = Did (Ext (GetDirectConnection rp)) None
             :: Did (Ext (PeerstoreAddrs rp)) l0
             :: Did (Ext (PeerstoreAddrs rp)) l1 :: trd ++ trl
        /\ run (directDial rp l1) hp wc = Some (r, hpd, wd, trd)
        /\ ((r = Some res /\ trl = [])
            \/ (r = None
                /\ run (holePunchLoop rp (Z.to_nat maxRetries) 1) hpd wd
                   = Some (res, hp1, w1, trl)))).
Proof.
  intros Hrun. unfold directConnect in Hrun. cbn in Hrun.
  destruct (world _ (GetDirectConnection rp) w) as [c wa] eqn:E0. cbn in Hrun.
  destruct c as [c|]; cbn in Hrun.
  { inversion Hrun; subst. left. eauto. }
  destruct (world _ (PeerstoreAddrs rp) wa) as [l0 wb] eqn:E1. cbn in Hrun.
  destruct (world _ (PeerstoreAddrs rp) wb) as [l1 wc] eqn:E2. cbn in Hrun.
  match type of Hrun with
  | context [run ?t ?h ?ww] =>
      destruct (run t h ww) as [[[[r2 hp2] w2] tr2]|] eqn:Hrest; [|discriminate]
  end.
  inversion Hrun; subst; clear Hrun.
  apply run_bind_inv in Hrest as (r & hpa & wd & tra & trb & Hdial & Hloop & ->).
  right. exists l0, l1, wc, r, hpa, wd, tra, trb.
  split; [reflexivity|]. split; [exact Hdial|].
  destruct r as [r|].
  - cbn in Hloop. inversion Hloop; subst. left. auto.
  - right. auto.
Qed.

(** The collaborator calls of [DirectConnect] are those of its
    [directConnect], if it gets that far. *)
Lemma DirectConnect_calls p hp w res hp1 w1 tr :
  run (DirectConnect p) hp w = Some (res, hp1, w1, tr) ->
  ((closed hp = true \/ p ∈ active hp) /\ List.filter is_ext tr = [] /\ res <> None)
  \/ (closed hp = false /\ (p ∉ active hp)
      /\ exists hpa hpb trb,
          run (directConnect p) hpa w = Some (res, hpb, w1, trb)
          /\ directDialTimeout hpa = directDialTimeout hp
          /\ List.filter is_ext tr = List.filter is_ext trb
          /\ milestones tr = milestones trb).
Proof.
  intros Hrun. unfold DirectConnect in Hrun.
  apply run_bind_inv in Hrun as (err & hpa & wa & tr1 & tr2 & Hbegin & Hrest & ->).
  unfold beginDirectConnect in Hbegin. symex Hbegin.
  all: inversion Hbegin; subst; clear Hbegin.
  - left. cbn in Hrest. inversion Hrest; subst; clear Hrest.
    split; [auto|]. split; [reflexivity | discriminate].
  - left. cbn in Hrest. inversion Hrest; subst; clear Hrest.
    apply bool_decide_eq_true in Eb2.
    split; [auto|]. split; [reflexivity | discriminate].
  - right. apply bool_decide_eq_false in Eb2.
    split; [reflexivity|]. split; [assumption|].
    unfold after_begin, defer in Hrest. cbn [bind] in Hrest.
    unfold defer in Hrest.
    apply run_bind_inv in Hrest as (r & hpb & wb & trb & tr3 & Hbody & Hrel & ->).
    unfold release in Hrel. symex Hrel. inversion Hrel; subst; clear Hrel.
    eexists _, hpb, trb. split; [exact Hbody|]. split; [reflexivity|].
    rewrite !List.filter_app, !milestones_app. cbn. rewrite !app_nil_r.
    split; reflexivity.
Qed.

Lemma by_calls {A} (f : forall X, extE X -> X -> option A) tr1 tr2 :
  List.filter is_ext tr1 = List.filter is_ext tr2 ->
  omap (ext_obs f) tr1 = omap (ext_obs f) tr2.
Proof. intros Heq. rewrite (ext_obs_filter f tr1), (ext_obs_filter f tr2), Heq. reflexivity. Qed.

End Dials.

Section CallProperties.
Context {maddr : AddrOps} {env : World}.

Lemma directConnect_connected rp hp w c :
  fst (world _ (GetDirectConnection rp) w) = Some c ->
  run (directConnect rp) hp w
  = Some (None, hp, snd (world _ (GetDirectConnection rp) w),
          [Did (Ext (GetDirectConnection rp)) (Some c)]).
Proof.
  intros Hc. unfold directConnect. cbn.
  destruct (world _ (GetDirectConnection rp) w) as [c' wa]. cbn in *. subst c'.
  reflexivity.
Qed.

(** X1: with a direct connection to the peer already there, an admitted
    [DirectConnect] returns nil after asking for it: it reads no peerstore,
    dials nothing, opens no stream and tells the tracer nothing. *)
Theorem direct_connection_short_circuit p hp w c :
  writer (closeMx hp) = false -> activeMx hp = false ->
  closed hp = false -> p ∉ active hp ->
  fst (world _ (GetDirectConnection p) w) = Some c ->
  exists hp1 w1 tr,
    run (DirectConnect p) hp w = Some (None, hp1, w1, tr)
    /\ List.filter is_ext tr = [Did (Ext (GetDirectConnection p)) (Some c)]
    /\ active_ops tr = [Lookup p false; Store p; Delete p].
Proof.
  intros Hw Ha Hc Hp Hconn.
  destruct (DirectConnect_returns p hp w Hw Ha) as (res & hp1 & w1 & tr & Hrun).
  pose proof (DirectConnect_run _ _ _ _ _ _ _ Hrun)
    as [(Hc' & _) | [(_ & Hin & _) | (_ & _ & hpb0 & trb0 & _ & _ & Hops & _)]];
    [congruence | contradiction |].
  destruct (DirectConnect_calls _ _ _ _ _ _ _ Hrun)
    as [([Hc' | Hin] & _) | (_ & _ & hpa & hpb & trb & Hbody & _ & Hcalls & _)];
    [congruence | contradiction |].
  rewrite (directConnect_connected _ _ _ _ Hconn) in Hbody.
  injection Hbody as E1 E2 E3 E4. subst res trb. exists hp1, w1, tr.
  split; [exact Hrun|]. split; [exact Hcalls | exact Hops].
Qed.

Lemma loop_starts rp lb n i ms res :
  loop_trace rp lb (S n) i ms res -> (1 <= exchanges ms)%nat.
Proof.
  inversion 1; subst; cbn; lia.
Qed.

Lemma dials_app tr1 tr2 : dials (tr1 ++ tr2) = dials tr1 ++ dials tr2.
Proof. unfold dials. apply omap_app. Qed.

Lemma peerstore_app tr1 tr2 : peerstore (tr1 ++ tr2) = peerstore tr1 ++ peerstore tr2.
Proof. unfold peerstore. apply omap_app. Qed.

Lemma traced_app tr1 tr2 : traced (tr1 ++ tr2) = traced tr1 ++ traced tr2.
Proof. unfold traced. apply omap_app. Qed.

Lemma streams_app tr1 tr2 : streams (tr1 ++ tr2) = streams tr1 ++ streams tr2.
Proof. unfold streams. apply omap_app. Qed.

Lemma connections_app tr1 tr2 :
  connections (tr1 ++ tr2) = connections tr1 ++ connections tr2.
Proof. unfold connections. apply omap_app. Qed.

(** The dial of a run of [directConnect]. *)
Lemma directConnect_dial rp hp w res hp1 w1 tr :
  run (directConnect rp) hp w = Some (res, hp1, w1, tr) ->
  (dials tr = [] /\ (forall l0 l1, peerstore tr = [l0; l1] -> dialable l1 = false))
  \/ (exists l0 l1 err dt rest,
        peerstore tr = [l0; l1] /\ dialable l1 = true
        /\ dials tr = [(rp, directDialTimeout hp, err)]
        /\ match err with
           | None => res = None /\ milestones tr = []
                     /\ traced tr = [DirectDialSuccessful rp dt]
           | Some e => (1 <= iterations tr)%nat
                       /\ traced tr = DirectDialFailed rp dt e :: rest
           end).
Proof.
  intros Hrun.
  destruct (directConnect_runs _ _ _ _ _ _ _ Hrun)
    as [(c & -> & ->) | (l0 & l1 & wc & r & hpd & wd & trd & trl & -> & Hdial & Hrest)].
  { left. split; [reflexivity|]. intros l0 l1 Hp. discriminate Hp. }
  assert (dials trl = [] /\ peerstore trl = []
          /\ (r = None -> (1 <= exchanges (milestones trl))%nat)) as (Hdl & Hpl & Hex).
  { destruct Hrest as [[Hr ->] | [Hr Hloop]].
    - repeat split. intros Hn. rewrite Hn in Hr. discriminate Hr.
    - pose proof (holePunchLoop_runs _ _ _ _ _ _ _ _ _ Hloop) as Hruns.
      destruct (loop_run_resources _ _ _ _ Hruns) as (_ & _ & Hd & Hp).
      repeat split; try assumption. intros _.
      eapply loop_starts. eapply holePunchLoop_trace. exact Hloop. }
  pose proof (directDial_trace _ _ _ _ _ _ _ _ Hdial) as (-> & Hmd & _).
  destruct (directDial_runs _ _ _ _ _ _ _ _ Hdial)
    as [(Hno & -> & ->) | (Hyes & err & dt & Hd & Ht & -> & _ & _ & _ & _ & Hp)].
  - left. cbn. split; [exact Hdl|].
    intros l0' l1' Hpeers. cbn in Hpeers. unfold peerstore in Hpl, Hpeers.
    rewrite Hpl in Hpeers. inversion Hpeers; subst. exact Hno.
  - right. exists l0, l1, err, dt, (traced trl).
    split. { cbn. fold (peerstore (trd ++ trl)). rewrite peerstore_app, Hp, Hpl. reflexivity. }
    split; [exact Hyes|].
    split. { cbn. fold (dials (trd ++ trl)). rewrite dials_app, Hd, Hdl. reflexivity. }
    destruct err as [e|].
    + split.
      * unfold iterations. rewrite !milestones_cons. cbn [milestone_of milestone_of_ext].
        rewrite milestones_app, Hmd. apply Hex. reflexivity.
      * cbn. fold (traced (trd ++ trl)). rewrite traced_app, Ht. reflexivity.
    + destruct Hrest as [[Hr ->] | [Hr _]]; [|discriminate Hr].
      inversion Hr; subst. split; [reflexivity|]. split.
      * rewrite !milestones_cons. cbn [milestone_of milestone_of_ext].
        rewrite milestones_app, Hmd. reflexivity.
      * cbn. fold (traced (trd ++ [])). rewrite traced_app, Ht. reflexivity.
Qed.

(** X2: the direct dial.  A call dials the peer at most once, with
    [hp.directDialTimeout]; it dials exactly when the peerstore has an
    address that is public and no relay address; when the dial succeeds the
    call returns nil without opening a stream, and when it fails the tracer
    is told and the call goes on to the hole punch. *)
Theorem direct_dial_once p hp w res hp1 w1 tr :
  run (DirectConnect p) hp w = Some (res, hp1, w1, tr) ->
  (length (dials tr) <= 1)%nat
  /\ (forall d, In d (dials tr) -> fst d = (p, directDialTimeout hp))
  /\ (forall l0 l1, peerstore tr = [l0; l1] -> (dials tr = [] <-> dialable l1 = false))
  /\ (forall d, dials tr = [(d, None)] ->
        res = None /\ iterations tr = 0%nat
        /\ exists dt, traced tr = [DirectDialSuccessful p dt])
  /\ (forall d e, dials tr = [(d, Some e)] ->
        (1 <= iterations tr)%nat
        /\ exists dt rest, traced tr = DirectDialFailed p dt e :: rest).
Proof.
  intros Hrun.
  destruct (DirectConnect_calls _ _ _ _ _ _ _ Hrun)
    as [(_ & Hcalls & _) | (_ & _ & hpa & hpb & trb & Hbody & Ht & Hcalls & Hm)].
  - assert (dials tr = []) as Hd by (unfold dials; rewrite (by_calls _ tr []); auto).
    assert (peerstore tr = []) as Hp by (unfold peerstore; rewrite (by_calls _ tr []); auto).
    rewrite Hd, Hp. cbn. repeat split; try lia; try tauto; try discriminate.
  - assert (dials tr = dials trb) as -> by (apply by_calls; exact Hcalls).
    assert (peerstore tr = peerstore trb) as -> by (apply by_calls; exact Hcalls).
    assert (traced tr = traced trb) as -> by (apply by_calls; exact Hcalls).
    unfold iterations. rewrite Hm. fold (iterations trb).
    destruct (directConnect_dial _ _ _ _ _ _ _ Hbody)
      as [(Hd & Hp) | (l0 & l1 & err & dt & rest & Hp & Hyes & Hd & Herr)].
    + rewrite Hd. cbn. repeat split; try lia; try tauto; try discriminate; eauto.
    + rewrite Hd, Hp, Ht. cbn. split; [lia|]. split.
      { intros d [<-|[]]. reflexivity. }
      split.
      { intros l0' l1' Heq. inversion Heq; subst. rewrite Hyes.
        split; intros Hx; discriminate Hx. }
      split.
      * intros d Heq. inversion Heq; subst. destruct Herr as (-> & Hms & Htr).
        split; [reflexivity|]. split; [unfold iterations; rewrite Hms; reflexivity|].
        eauto.
      * intros d e Heq. inversion Heq; subst. destruct Herr as (Hit & Htr).
        split; [exact Hit|]. eauto.
Qed.

End CallProperties.

Section Cleanup.
Context {maddr : AddrOps} {env : World}.

(** X3: [initiateHolePunch] returns, and however it ends it has released the
    memory it reserved; if the stream could not be opened nothing else was
    done and the error is wrapped as "failed to open hole-punching stream";
    otherwise the stream was closed, by the last thing done, and it was
    reset before that exactly when an error is returned, which is then
    wrapped as "failed to initiateHolePunch". *)
Theorem exchange_cleanup rp hp w :
  exists x hp1 w1 tr,
    run (initiateHolePunch rp) hp w = Some (x, hp1, w1, tr)
    /\ reserved tr = released tr
    /\ ((exists e,
            streams tr = [Opened rp Protocol (inr e)]
            /\ x = failed (Errorf "failed to open hole-punching stream: %w" [AErr e])
            /\ List.filter is_ext tr = [Did (Ext (NewStream rp Protocol)) (inr e)])
        \/ (exists s resets,
              streams tr = Opened rp Protocol (inl s) :: resets ++ [Closed s]
              /\ Forall (eq (WasReset s)) resets
              /\ (resets = [] <-> snd x = None)
              /\ last tr = Some (Did (Ext (StreamClose s)) tt)
              /\ (forall e, snd x = Some e ->
                    exists e0,
                      e = Errorf "failed to initiateHolePunch: %w" [AErr e0]))).
Proof.
  destruct (quiet_returns _ (quiet_initiateHolePunch rp) hp w)
    as (x & hp1 & w1 & tr & Hrun).
  exists x, hp1, w1, tr. split; [exact Hrun|].
  destruct (initiateHolePunch_events _ _ _ _ _ _ _ Hrun) as (_ & Hmem & Hshape).
  split; assumption.
Qed.

Lemma reserved_app tr1 tr2 : reserved (tr1 ++ tr2) = reserved tr1 ++ reserved tr2.
Proof. unfold reserved. apply omap_app. Qed.

Lemma released_app tr1 tr2 : released (tr1 ++ tr2) = released tr1 ++ released tr2.
Proof. unfold released. apply omap_app. Qed.

(** X4: a call of [DirectConnect] uses its streams one at a time: each
    stream it opened is reset and closed by it and by nothing else, it is
    closed before the next one is opened, none is left open, and the
    memory reserved in the scopes of the streams is the memory released. *)
Theorem streams_used_in_turn p hp w res hp1 w1 tr :
  run (DirectConnect p) hp w = Some (res, hp1, w1, tr) ->
  closed_in_turn None (streams tr) = true
  /\ reserved tr = released tr.
Proof.
  intros Hrun.
  destruct (DirectConnect_calls _ _ _ _ _ _ _ Hrun)
    as [(_ & Hcalls & _) | (_ & _ & hpa & hpb & trb & Hbody & _ & Hcalls & _)].
  - unfold streams, reserved, released.
    rewrite (by_calls stream_of tr []), (by_calls reserved_of tr []),
      (by_calls released_of tr []); auto.
  - unfold streams, reserved, released.
    rewrite (by_calls stream_of tr trb), (by_calls reserved_of tr trb),
      (by_calls released_of tr trb); auto.
    fold (streams trb) (reserved trb) (released trb).
    destruct (directConnect_runs _ _ _ _ _ _ _ Hbody)
      as [(c & -> & ->) | (l0 & l1 & wc & r & hpd & wd & trd & trl & -> & Hdial & Hrest)];
      [split; reflexivity|].
    assert (closed_in_turn None (streams trl) = true /\ reserved trl = released trl)
      as (Hs & Hmem).
    { destruct Hrest as [[_ ->] | [_ Hloop]]; [split; reflexivity|].
      pose proof (holePunchLoop_runs _ _ _ _ _ _ _ _ _ Hloop) as Hruns.
      destruct (loop_run_resources _ _ _ _ Hruns) as (H1 & H2 & _). auto. }
    assert (streams trd = [] /\ reserved trd = [] /\ released trd = [])
      as (Hsd & Hrd & Hld).
    { destruct (directDial_runs _ _ _ _ _ _ _ _ Hdial)
        as [(_ & _ & ->) | (_ & err & dt & _ & _ & _ & H1 & H2 & H3 & _)]; auto. }
    cbn. fold (streams (trd ++ trl)) (reserved (trd ++ trl)) (released (trd ++ trl)).
    rewrite streams_app, reserved_app, released_app, Hsd, Hrd, Hld. auto.
Qed.

(** *** How the loop ends *)

Lemma loop_success rp lb n i ms res :
  loop_trace rp lb n i ms res ->
  punch_succeeded ms ->
  res = None
  /\ exchanges ms = S (failures ms)
  /\ exists pre pi ic c,
      ms = pre ++ [MPunch pi ic None;
                   MFinished "initiator" (i + Z.of_nat (exchanges ms) - 1) c].
Proof.
  induction 1 as [i | n i err0 | n i d | n i d start addrs c
                 | n i d start addrs err0 rest res Hrest IH];
    intros (pi & ic & Hin).
  - destruct Hin.
  - cbn in Hin. intuition discriminate.
  - cbn in Hin. intuition discriminate.
  - split; [reflexivity|]. split; [reflexivity|].
    exists [MExchange rp; MTimer d; MWake (Received start); MLegacy lb],
      (mkAddrInfo rp addrs), (negb lb), c.
    cbn [app]. repeat f_equal. cbn. lia.
  - apply in_app_or in Hin as [Hin|Hin]; [cbn in Hin; intuition discriminate|].
    apply in_app_or in Hin as [Hin|Hin];
      [destruct (i =? maxRetries); cbn in Hin; intuition discriminate|].
    destruct IH as (-> & He & pre & pi' & ic' & c & Hms);
      [exists pi, ic; exact Hin|].
    split; [reflexivity|]. rewrite !exchanges_app, !failures_app.
    assert (exchanges (if i =? maxRetries then [MFinished "initiator" maxRetries None]
                       else []) = 0%nat) as E0 by (destruct (i =? maxRetries); reflexivity).
    assert (failures (if i =? maxRetries then [MFinished "initiator" maxRetries None]
                      else []) = 0%nat) as F0 by (destruct (i =? maxRetries); reflexivity).
    rewrite E0, F0. cbn [exchanges failures List.filter omap length is_MExchange
                         punch_of punch_failed snd Nat.add].
    split; [cbn; lia|].
    exists ([MExchange rp; MTimer d; MWake (Received start); MLegacy lb;
             MPunch (mkAddrInfo rp addrs) (negb lb) (Some err0)]
            ++ (if i =? maxRetries then [MFinished "initiator" maxRetries None] else [])
            ++ pre), pi', ic', c.
    match goal with
    | |- context [MFinished _ ?k c] =>
        replace k with (i + 1 + Z.of_nat (exchanges rest) - 1) by lia
    end.
    rewrite Hms at 1. cbn [app]. do 5 f_equal. apply app_assoc.
Qed.

Lemma loop_nil rp lb n i ms :
  loop_trace rp lb n i ms None -> punch_succeeded ms.
Proof.
  remember None as res eqn:Hres.
  induction 1 as [i | n i err0 | n i d | n i d start addrs c
                 | n i d start addrs err0 rest res Hrest IH]; try discriminate Hres.
  - eexists _, _. cbn. eauto 10.
  - destruct (IH Hres) as (pi & ic & Hin). exists pi, ic.
    apply in_or_app. right. apply in_or_app. right. exact Hin.
Qed.

Lemma loop_bounds rp lb n i ms res :
  loop_trace rp lb n i ms res ->
  (exchanges ms <= n)%nat
  /\ (length (omap punch_of ms) <= exchanges ms)%nat
  /\ (length (omap timer_of ms) <= exchanges ms)%nat.
Proof.
  induction 1 as [i | n i err0 | n i d | n i d start addrs c
                 | n i d start addrs err0 rest res Hrest (IH1 & IH2 & IH3)].
  1-4: cbn; lia.
  rewrite !exchanges_app, !omap_app, !length_app.
  destruct (i =? maxRetries); cbn in *; lia.
Qed.

(** The last iteration alone tells the tracer of the end of failed
    attempts. *)
Lemma loop_finishes rp lb n : forall i ms res,
  loop_trace rp lb (S n) i ms res ->
  i + Z.of_nat n = maxRetries ->
  (finishes ms <= 1)%nat
  /\ (finishes ms = 1%nat <-> punch_succeeded ms \/ failures ms = S n).
Proof.
  induction n as [|n IHn]; intros i ms res Hloop Hi.
  - assert (i = maxRetries) as -> by lia.
    inversion Hloop as [| | | | n0 i0 d start addrs err0 rest res0 Hrest]; subst; cbn.
    + split; [lia|]. split; [discriminate|].
      intros [(pi & ic & Hin) | Hf]; [cbn in Hin; intuition discriminate | discriminate].
    + split; [lia|]. split; [discriminate|].
      intros [(pi & ic & Hin) | Hf]; [cbn in Hin; intuition discriminate | discriminate].
    + split; [lia|]. split; [|reflexivity]. intros _. left. eexists _, _. cbn. eauto 10.
    + inversion Hrest; subst. cbn. split; [lia|]. split; [|reflexivity]. auto.
  - inversion Hloop as [| | | | n0 i0 d start addrs err0 rest res0 Hrest]; subst; cbn.
    + split; [lia|]. split; [discriminate|].
      intros [(pi & ic & Hin) | Hf]; [cbn in Hin; intuition discriminate | discriminate].
    + split; [lia|]. split; [discriminate|].
      intros [(pi & ic & Hin) | Hf]; [cbn in Hin; intuition discriminate | discriminate].
    + split; [lia|]. split; [|reflexivity]. intros _. left. eexists _, _. cbn. eauto 10.
    + assert ((i =? maxRetries) = false) as -> by (apply Z.eqb_neq; lia).
      destruct (IHn (i + 1) rest res Hrest) as (Hle & Hiff); [lia|].
      cbn [app]. unfold finishes, failures in *. cbn. split; [exact Hle|].
      rewrite Hiff. split.
      * intros [(pi & ic & Hin) | Hf]; [left | right; lia].
        exists pi, ic. do 5 right. exact Hin.
      * intros [(pi & ic & Hin) | Hf]; [left | right; lia].
        exists pi, ic. cbn in Hin. destruct Hin as [Hin|[Hin|[Hin|[Hin|[Hin|Hin]]]]];
          try discriminate Hin. exact Hin.
Qed.

End Cleanup.

Section Endings.
Context {maddr : AddrOps} {env : World}.

Lemma success_of_run p hp w res hp1 w1 tr :
  run (DirectConnect p) hp w = Some (res, hp1, w1, tr) ->
  punch_succeeded (milestones tr) ->
  res = None
  /\ iterations tr = S (failed_punches tr)
  /\ exists pre pi isClient c,
      milestones tr
      = pre ++ [MPunch pi isClient None;
                MFinished "initiator" (Z.of_nat (iterations tr)) c].
Proof.
  intros Hrun Hok.
  apply DirectConnect_trace in Hrun as [Hm | Hloop].
  - rewrite Hm in Hok. destruct Hok as (pi & ic & []).
  - destruct (loop_success _ _ _ _ _ _ Hloop Hok) as (-> & He & pre & pi & ic & c & Hms).
    split; [reflexivity|]. split; [exact He|].
    exists pre, pi, ic, c. rewrite Hms at 1. repeat f_equal.
    unfold iterations. lia.
Qed.

(** X5: a call of [DirectConnect] returns, and if a timed connect succeeded
    in it the call ended there: it returns nil, the success is the last
    thing but the report to the tracer, which carries the number of the
    iteration, and every iteration before it had a failed connect. *)
Theorem punch_success_ends_call p hp w :
  writer (closeMx hp) = false -> activeMx hp = false ->
  exists res hp1 w1 tr,
    run (DirectConnect p) hp w = Some (res, hp1, w1, tr)
    /\ (punch_succeeded (milestones tr) ->
        res = None
        /\ iterations tr = S (failed_punches tr)
        /\ exists pre pi isClient c,
            milestones tr
            = pre ++ [MPunch pi isClient None;
                      MFinished "initiator" (Z.of_nat (iterations tr)) c]).
Proof.
  intros Hw Ha.
  destruct (DirectConnect_returns p hp w Hw Ha) as (res & hp1 & w1 & tr & Hrun).
  exists res, hp1, w1, tr. split; [exact Hrun|].
  exact (success_of_run _ _ _ _ _ _ _ Hrun).
Qed.

(** X6: [DirectConnect] returns nil only with a connection in hand: there
    was a direct connection to the peer, or the direct dial succeeded, or a
    timed connect succeeded. *)
Theorem nil_means_connected p hp w hp1 w1 tr :
  run (DirectConnect p) hp w = Some (None, hp1, w1, tr) ->
  (exists c, connections tr = [Some c])
  \/ (exists d, dials tr = [(d, None)])
  \/ punch_succeeded (milestones tr).
Proof.
  intros Hrun.
  destruct (DirectConnect_calls _ _ _ _ _ _ _ Hrun)
    as [(_ & _ & Hres) | (_ & _ & hpa & hpb & trb & Hbody & _ & Hcalls & Hm)];
    [congruence|].
  assert (dials tr = dials trb) as -> by (apply by_calls; exact Hcalls).
  assert (connections tr = connections trb) as -> by (apply by_calls; exact Hcalls).
  rewrite Hm.
  destruct (directConnect_runs _ _ _ _ _ _ _ Hbody)
    as [(c & -> & _) | (l0 & l1 & wc & r & hpd & wd & trd & trl & -> & Hdial & Hrest)].
  { left. exists c. reflexivity. }
  right.
  pose proof (directDial_trace _ _ _ _ _ _ _ _ Hdial) as (-> & Hmd & _).
  destruct Hrest as [[-> ->] | [-> Hloop]].
  - left.
    destruct (directDial_runs _ _ _ _ _ _ _ _ Hdial)
      as [(_ & Hr & _) | (_ & err & dt & Hd & _ & Hr & _)]; [discriminate Hr|].
    destruct err as [e|]; [discriminate Hr|].
    eexists. cbn. fold (dials (trd ++ [])). rewrite dials_app, Hd. reflexivity.
  - right. rewrite !milestones_cons. cbn [milestone_of milestone_of_ext].
    rewrite milestones_app, Hmd. cbn [app].
    eapply loop_nil. eapply holePunchLoop_trace. exact Hloop.
Qed.

(** X7: a call makes at most [maxRetries] exchanges, hence opens at most
    three streams, and it arms a timer and makes a timed connect at most
    once per exchange. *)
Theorem attempts_bounded p hp w res hp1 w1 tr :
  run (DirectConnect p) hp w = Some (res, hp1, w1, tr) ->
  (iterations tr <= Z.to_nat maxRetries)%nat
  /\ (length (punched tr) <= iterations tr)%nat
  /\ (length (waits tr) <= iterations tr)%nat.
Proof.
  intros Hrun.
  apply DirectConnect_trace in Hrun as [Hm | Hloop].
  - unfold iterations, punched, waits. rewrite Hm. cbn. lia.
  - exact (loop_bounds _ _ _ _ _ _ Hloop).
Qed.

(** X8: the tracer is told [HolePunchFinished] at most once in a call, and
    exactly when a timed connect succeeded or all [maxRetries] of them
    failed: never after a protocol error or a cancellation. *)
Theorem finished_traced_once p hp w res hp1 w1 tr :
  run (DirectConnect p) hp w = Some (res, hp1, w1, tr) ->
  (finishes (milestones tr) <= 1)%nat
  /\ (finishes (milestones tr) = 1%nat
      <-> punch_succeeded (milestones tr)
          \/ failed_punches tr = Z.to_nat maxRetries).
Proof.
  intros Hrun.
  apply DirectConnect_trace in Hrun as [Hm | Hloop].
  - unfold failed_punches. rewrite Hm. cbn. split; [lia|]. split; [discriminate|].
    intros [(pi & ic & []) | Hf]. discriminate Hf.
  - exact (loop_finishes _ _ 2 1 _ _ Hloop eq_refl).
Qed.

Lemma insert_then_delete (A : gset string) (p : string) :
  p ∉ A -> ({[p]} ∪ A) ∖ {[p]} = A.
Proof.
  intros Hp. apply leibniz_equiv. intros x.
  rewrite elem_of_difference, elem_of_union, elem_of_singleton. split.
  - intros [[Hx|Hx] Hne]; [contradiction | assumption].
  - intros Hx. split; [auto|]. intros ->. contradiction.
Qed.

(** X9: [DirectConnect] leaves the receiver as it found it, whatever it
    returns: the locks are released, [hp.active] is what it was, nothing
    else is written; only [hp.ctx] may have been cancelled meanwhile. *)
Theorem DirectConnect_restores p hp w res hp1 w1 tr :
  run (DirectConnect p) hp w = Some (res, hp1, w1, tr) ->
  hp1 = hp \/ hp1 = set_ctx_done true hp.
Proof.
  intros Hrun.
  apply DirectConnect_run in Hrun
    as [(_ & _ & -> & _) | [(_ & _ & _ & -> & _) | (_ & Hp & hpb & trb & Hbody & -> & _)]];
    auto.
  pose proof (run_quiet _ (quiet_directConnect p) _ _ _ _ _ _ Hbody) as [_ Hhp].
  pose proof (insert_then_delete _ _ Hp) as Hset.
  destruct Hhp as [-> | ->]; [left | right];
    destruct hp as [? ? ? ? ? [? ?] ? ? ?]; cbn in *; rewrite Hset; reflexivity.
Qed.

(** X10: [Close] may be called again: the second call returns nil as the
    first did and changes nothing. *)
Theorem Close_again hp w :
  readers (closeMx hp) = 0%nat -> writer (closeMx hp) = false ->
  refCount hp = 0%nat ->
  exists hp1 tr1 tr2,
    run Close hp w = Some (None, hp1, w, tr1)
    /\ run Close hp1 w = Some (None, hp1, w, tr2)
    /\ closed hp1 = true /\ ctx_done hp1 = true.
Proof.
  intros Hr Hw Hc. unfold Close. cbn. rewrite Hr, Hw. cbn. rewrite Hc. cbn.
  eexists _, _, _. split; [reflexivity|]. cbn. rewrite Hc. cbn.
  split; [|split; reflexivity].
  destruct hp as [? ? ? ? ? [? ?] ? ? ?]; cbn in *. subst. reflexivity.
Qed.

End Endings.

Section Pool.
Context {maddr : AddrOps} {env : World}.

(** A goroutine that has returned holds nothing. *)
Lemma finished_phase ph g :
  at_phase ph g -> finished g = true ->
  holds_rlock ph = 0%nat /\ holds_wlock ph = 0%nat /\ holds_activeMx ph = 0%nat
  /\ (forall q, member q ph = 0%nat) /\ counted ph = 0%nat.
Proof.
  intros Hat Hfin. destruct Hat as
    [p pc t h Hdc Hops | p pc t h Hdc Hops | pc h Hops | conn h Hops
    | conn h Hops | h Hops | conn h Hops | h Hops | h Hops];
    unfold finished in Hfin; cbn [code] in Hfin; try discriminate Hfin;
    try (repeat split; reflexivity).
  - pose proof (at_dc_is_Ret _ _ _ Hdc) as Hret.
    destruct t; try discriminate Hfin. cbn in Hret.
    destruct pc; try discriminate Hret; repeat split; reflexivity.
  - pose proof (in_task_not_Ret t) as Hn. destruct (in_task t); discriminate.
  - destruct pc; try discriminate Hfin; repeat split; reflexivity.
Qed.

Lemma total_finished f phs gs :
  Forall2 at_phase phs gs ->
  Forall (fun g => finished g = true) gs ->
  (forall ph g, at_phase ph g -> finished g = true -> f ph = 0%nat) ->
  total f phs = 0%nat.
Proof.
  intros Hat Hfin Hf. unfold total.
  induction Hat as [|ph g phs gs Hph _ IH]; [reflexivity|].
  inversion Hfin; subst. cbn. rewrite (Hf _ _ Hph), IH; auto.
Qed.

(** X11: when every goroutine has returned, the coordinator holds nothing:
    [hp.active] is empty, both mutexes are free and [hp.refCount] is
    zero. *)
Theorem quiescent_when_finished c :
  reachable c ->
  Forall (fun g => finished g = true) (c_threads c) ->
  active (c_hp c) = ∅
  /\ activeMx (c_hp c) = false
  /\ closeMx (c_hp c) = mkRWMutex 0 false
  /\ refCount (c_hp c) = 0%nat.
Proof.
  intros Hreach Hfin.
  destruct (reachable_invariant c Hreach) as (phs & Hat & Hcons).
  assert (forall f,
             (forall ph g, at_phase ph g -> finished g = true -> f ph = 0%nat) ->
             total f phs = 0%nat) as Hzero
    by (intros f; apply total_finished with (gs := c_threads c); assumption).
  repeat split.
  - apply elem_of_equiv_empty_L. intros q Hq.
    pose proof (inv_active _ _ Hcons q) as Hm.
    rewrite Hzero in Hm by (intros ph g H1 H2; apply (finished_phase _ _ H1 H2)).
    rewrite bool_decide_eq_true_2 in Hm by exact Hq. discriminate Hm.
  - pose proof (inv_activeMx _ _ Hcons) as Hm.
    rewrite Hzero in Hm by (intros ph g H1 H2; apply (finished_phase _ _ H1 H2)).
    destruct (activeMx (c_hp c)); [discriminate Hm | reflexivity].
  - pose proof (inv_readers _ _ Hcons) as Hr. pose proof (inv_writer _ _ Hcons) as Hw.
    rewrite Hzero in Hr by (intros ph g H1 H2; apply (finished_phase _ _ H1 H2)).
    rewrite Hzero in Hw by (intros ph g H1 H2; apply (finished_phase _ _ H1 H2)).
    destruct (closeMx (c_hp c)) as [r [|]]; cbn in *; [discriminate Hw|].
    subst. reflexivity.
  - rewrite (inv_refCount _ _ Hcons).
    apply Hzero. intros ph g H1 H2. apply (finished_phase _ _ H1 H2).
Qed.

Lemma counted_outstanding ph g : at_phase ph g -> counted ph = outstanding g.
Proof.
  intros Hat. destruct Hat as
    [p pc t h Hdc Hops | p pc t h Hdc Hops | pc h Hops | conn h Hops
    | conn h Hops | h Hops | conn h Hops | h Hops | h Hops];
    unfold outstanding; cbn [code counted]; try reflexivity.
  - pose proof (in_task_not_Ret t) as Hn. destruct (in_task t); [discriminate | |]; reflexivity.
  - unfold Connected.
    destruct (Direction_eqb (conn_Direction conn) DirInbound
              && isRelayAddress (conn_RemoteMultiaddr conn)); reflexivity.
Qed.

Lemma total_outstanding phs gs :
  Forall2 at_phase phs gs ->
  total counted phs = sum_list (List.map outstanding gs).
Proof.
  intros Hat. unfold total.
  induction Hat as [|ph g phs gs Hph _ IH]; [reflexivity|].
  cbn. rewrite (counted_outstanding _ _ Hph), IH. reflexivity.
Qed.

(** X12: [hp.refCount] is the number of goroutines started by [Connected]
    that have not returned, with the [Connected] calls between their
    [Add(1)] and their [go]: it is raised before the goroutine starts and
    lowered as the last thing the goroutine does. *)
Theorem refCount_counts_goroutines c :
  reachable c ->
  refCount (c_hp c) = sum_list (List.map outstanding (c_threads c)).
Proof.
  intros Hreach.
  destruct (reachable_invariant c Hreach) as (phs & Hat & Hcons).
  rewrite (inv_refCount _ _ Hcons). apply total_outstanding. exact Hat.
Qed.

Lemma exec_closed s : forall c phs c1,
  invariant c phs -> exec s c = Some c1 ->
  (closed (c_hp c) = true -> closed (c_hp c1) = true)
  /\ (ctx_done (c_hp c) = true -> ctx_done (c_hp c1) = true).
Proof.
  induction s as [|i s IH]; intros c phs c1 Hinv Hex; cbn in Hex.
  - inversion Hex; subst. auto.
  - destruct (sched i c) as [c2|] eqn:Hs; [|discriminate].
    destruct (sched_invariant _ _ _ _ Hinv Hs) as (ph & ph1 & phnew & _ & Hmv & Hinv2).
    destruct (moves_closed _ _ _ _ _ Hmv) as [H1 H2].
    destruct (IH _ _ _ Hinv2 Hex) as [H3 H4]. auto.
Qed.

(** X13: nothing reopens the coordinator: once [hp.closed] is set it stays
    set, and once [hp.ctx] is cancelled it stays cancelled, whatever the
    goroutines do next. *)
Theorem closed_for_good c s c1 :
  reachable c -> exec s c = Some c1 ->
  (closed (c_hp c) = true -> closed (c_hp c1) = true)
  /\ (ctx_done (c_hp c) = true -> ctx_done (c_hp c1) = true).
Proof.
  intros Hreach Hex.
  destruct (reachable_invariant c Hreach) as (phs & Hinv).
  exact (exec_closed _ _ _ _ Hinv Hex).
Qed.

End Pool.

Section Progress.
Context {maddr : AddrOps} {env : World}.

Lemma steps_intro c j g :
  c_threads c !! j = Some g ->
  is_Some (step_goroutine g (c_hp c) (c_w c)) ->
  steps c j.
Proof.
  intros Hg [[[[g1 hp1] w1] new] Hs]. unfold steps, sched. rewrite Hg, Hs. eauto.
Qed.

Lemma Call_steps t h hp w :
  is_Some (step_prog t hp w) -> is_Some (step_goroutine (mkGoroutine (Call t) h) hp w).
Proof.
  intros [[[[[t1 hp1] w1] en] new] Hs]. unfold step_goroutine. cbn [code].
  rewrite Hs. eauto.
Qed.

Lemma Notify_steps t h hp w :
  is_Some (step_prog t hp w) -> is_Some (step_goroutine (mkGoroutine (Notify t) h) hp w).
Proof.
  intros [[[[[t1 hp1] w1] en] new] Hs]. unfold step_goroutine. cbn [code].
  rewrite Hs. eauto.
Qed.

Lemma Task_steps t h hp w :
  is_Some (step_prog t hp w) -> is_Some (step_goroutine (mkGoroutine (Task t) h) hp w).
Proof.
  intros [[[[[t1 hp1] w1] en] new] Hs]. unfold step_goroutine. cbn [code].
  rewrite Hs. eauto.
Qed.

Lemma in_task_steps t hp w :
  is_Ret t = false -> is_Some (step_prog t hp w) -> is_Some (step_prog (in_task t) hp w).
Proof.
  intros Hret [[[[[t1 hp1] w1] en] new] Hs]. rewrite (step_in_task _ _ _ Hret), Hs. eauto.
Qed.

(** What a [DirectConnect] call needs of the receiver for its next step. *)
Lemma dc_enabled p pc t hp w :
  at_dc p pc t ->
  match pc with
  | pcBegin => writer (closeMx hp) = false
  | pcClosed | pcDup2 | pcAdmitted => readers (closeMx hp) <> 0%nat
  | pcOpen => activeMx hp = false
  | pcDup1 | pcStored | pcDeleted => activeMx hp = true
  | pcRLocked | pcLocked | pcFree | pcDelete => True
  | pcBody | pcRejectedClosed | pcRejectedActive | pcReturned => False
  end ->
  is_Some (step_prog t hp w).
Proof.
  intros Hat Hc. destruct Hat; try contradiction; cbn.
  - rewrite Hc. eauto.
  - eauto.
  - destruct (readers (closeMx hp)); [contradiction | eauto].
  - rewrite Hc. eauto.
  - eauto.
  - rewrite Hc. eauto.
  - destruct (readers (closeMx hp)); [contradiction | eauto].
  - eauto.
  - rewrite Hc. eauto.
  - destruct (readers (closeMx hp)); [contradiction | eauto].
  - eauto.
  - rewrite Hc. eauto.
Qed.

Lemma dc_steps c j b p pc g :
  c_threads c !! j = Some g ->
  at_phase (PhDC b p pc) g ->
  match pc with
  | pcBegin => writer (closeMx (c_hp c)) = false
  | pcClosed | pcDup2 | pcAdmitted => readers (closeMx (c_hp c)) <> 0%nat
  | pcOpen => activeMx (c_hp c) = false
  | pcDup1 | pcStored | pcDeleted => activeMx (c_hp c) = true
  | pcRLocked | pcLocked | pcFree | pcDelete => True
  | pcBody | pcRejectedClosed | pcRejectedActive | pcReturned => False
  end ->
  steps c j.
Proof.
  intros Hg Hat Hc. apply (steps_intro _ _ _ Hg).
  inversion Hat as [p0 pc0 t h Hdc Hops | p0 pc0 t h Hdc Hops | | | | | | |]; subst.
  - apply Call_steps. eapply dc_enabled; eassumption.
  - apply Task_steps. apply in_task_steps; [|eapply dc_enabled; eassumption].
    rewrite (at_dc_is_Ret _ _ _ Hdc). destruct pc; try reflexivity; contradiction.
Qed.

Lemma body_enabled p (t : prog (option error)) hp w :
  quiet t ->
  is_Some (step_prog (defer (release p) t) hp w)
  \/ (is_Ret t = true /\ activeMx hp = true)
  \/ (next_is_select (defer (release p) t) = true /\ ctx_done hp = false).
Proof.
  intros [r | X e k He Hk]; cbn.
  - destruct (activeMx hp) eqn:Ea; [right; left; auto | left; eauto].
  - destruct e; try discriminate He; cbn.
    + destruct (world X e w). left. eauto.
    + left. eauto.
    + left. eauto.
    + left. eauto.
    + left. eauto.
    + destruct (world _ TimerChan w) as [[start|] w']; [left; eauto|].
      unfold select_done. destruct (ctx_done hp) eqn:Ec; [left; eauto | right; right; auto].
Qed.

End Progress.

Section NoDeadlock.
Context {maddr : AddrOps} {env : World}.

Lemma lookup_phase c phs j ph :
  invariant c phs -> phs !! j = Some ph ->
  exists g, c_threads c !! j = Some g /\ at_phase ph g.
Proof. intros [Hat _] Hj. exact (Forall2_lookup_l _ _ _ _ _ Hat Hj). Qed.

Lemma lookup_goroutine c phs j g :
  invariant c phs -> c_threads c !! j = Some g ->
  exists ph, phs !! j = Some ph /\ at_phase ph g.
Proof. intros [Hat _] Hj. exact (Forall2_lookup_r _ _ _ _ _ Hat Hj). Qed.

Lemma activeMx_held c phs j ph :
  invariant c phs -> phs !! j = Some ph -> holds_activeMx ph = 1%nat ->
  activeMx (c_hp c) = true.
Proof.
  intros [_ Hcons] Hj Hh.
  pose proof (total_lookup holds_activeMx _ _ _ Hj) as Hle.
  rewrite <- (inv_activeMx _ _ Hcons) in Hle.
  destruct (activeMx (c_hp c)); [reflexivity | cbn in Hle; lia].
Qed.

Lemma readers_held c phs j ph :
  invariant c phs -> phs !! j = Some ph -> holds_rlock ph = 1%nat ->
  readers (closeMx (c_hp c)) <> 0%nat.
Proof.
  intros [_ Hcons] Hj Hh.
  pose proof (total_lookup holds_rlock _ _ _ Hj) as Hle.
  rewrite <- (inv_readers _ _ Hcons) in Hle. lia.
Qed.

Lemma refCount_held c phs j ph :
  invariant c phs -> phs !! j = Some ph -> counted ph = 1%nat ->
  refCount (c_hp c) <> 0%nat.
Proof.
  intros [_ Hcons] Hj Hh.
  pose proof (total_lookup counted _ _ _ Hj) as Hle.
  rewrite <- (inv_refCount _ _ Hcons) in Hle. lia.
Qed.

(** Whoever holds [hp.activeMx] can go on. *)
Lemma activeMx_holder_steps c phs j ph :
  invariant c phs -> phs !! j = Some ph -> holds_activeMx ph = 1%nat ->
  steps c j.
Proof.
  intros Hinv Hj Hh.
  pose proof (activeMx_held _ _ _ _ Hinv Hj Hh) as Ha.
  destruct (lookup_phase _ _ _ _ Hinv Hj) as (g & Hg & Hat).
  destruct ph as [b p pc | | | | | | |]; try discriminate Hh.
  apply (dc_steps _ _ _ _ _ _ Hg Hat).
  destruct pc; try discriminate Hh; auto.
Qed.

Lemma weight_one (f : phase -> nat) ph :
  (forall x, (f x <= 1)%nat) -> (0 < f ph)%nat -> f ph = 1%nat.
Proof. intros Hf Hpos. specialize (Hf ph). lia. Qed.

Lemma holds_activeMx_le ph : (holds_activeMx ph <= 1)%nat.
Proof. destruct ph as [b p pc | | | | | | |]; try (cbn; lia). destruct pc; cbn; lia. Qed.

Lemma holds_rlock_le ph : (holds_rlock ph <= 1)%nat.
Proof. destruct ph as [b p pc | | | | | | |]; try (cbn; lia). destruct pc; cbn; lia. Qed.

Lemma holds_wlock_le ph : (holds_wlock ph <= 1)%nat.
Proof. destruct ph as [b p pc | pc | | | | | |]; try (cbn; lia); destruct pc; cbn; lia. Qed.

Lemma counted_le ph : (counted ph <= 1)%nat.
Proof. destruct ph as [[|] p pc | | | | | | |]; cbn; lia. Qed.

Lemma activeMx_taken c phs :
  invariant c phs -> activeMx (c_hp c) = true -> exists k, steps c k.
Proof.
  intros Hinv Ha. pose proof Hinv as [_ Hcons].
  destruct (total_pos holds_activeMx phs) as (j & ph & Hj & Hpos).
  { rewrite <- (inv_activeMx _ _ Hcons), Ha. cbn. lia. }
  exists j. eapply activeMx_holder_steps; [exact Hinv | exact Hj |].
  apply weight_one; [apply holds_activeMx_le | exact Hpos].
Qed.

(** Whoever holds [hp.closeMx] for writing can go on. *)
Lemma writer_inside c phs :
  invariant c phs -> writer (closeMx (c_hp c)) = true -> exists k, steps c k.
Proof.
  intros Hinv Hw. pose proof Hinv as [_ Hcons].
  destruct (total_pos holds_wlock phs) as (j & ph & Hj & Hpos).
  { rewrite <- (inv_writer _ _ Hcons), Hw. cbn. lia. }
  exists j. destruct (lookup_phase _ _ _ _ Hinv Hj) as (g & Hg & Hat).
  apply (steps_intro _ _ _ Hg).
  destruct ph as [b p pc | pc | | | | | |]; try (cbn in Hpos; lia).
  inversion Hat; subst. apply Call_steps.
  destruct pc; try (cbn in Hpos; lia); cbn.
  - eauto.
  - rewrite Hw. eauto.
Qed.

(** Behind whoever holds [hp.closeMx] for reading, somebody can go on. *)
Lemma reader_inside c phs j ph :
  invariant c phs -> phs !! j = Some ph -> holds_rlock ph = 1%nat ->
  exists k, steps c k.
Proof.
  intros Hinv Hj Hh.
  pose proof (readers_held _ _ _ _ Hinv Hj Hh) as Hr.
  destruct (lookup_phase _ _ _ _ Hinv Hj) as (g & Hg & Hat).
  destruct ph as [b p pc | | | | | | |]; try discriminate Hh.
  destruct pc; try discriminate Hh.
  all: try (exists j; apply (dc_steps _ _ _ _ _ _ Hg Hat); solve [exact I | exact Hr]).
  all: try (exists j; eapply activeMx_holder_steps; [exact Hinv | exact Hj | reflexivity]).
  destruct (activeMx (c_hp c)) eqn:Ea.
  - eapply activeMx_taken; eassumption.
  - exists j. apply (dc_steps _ _ _ _ _ _ Hg Hat). exact Ea.
Qed.

Lemma readers_inside c phs :
  invariant c phs -> readers (closeMx (c_hp c)) <> 0%nat -> exists k, steps c k.
Proof.
  intros Hinv Hr. pose proof Hinv as [_ Hcons].
  destruct (total_pos holds_rlock phs) as (j & ph & Hj & Hpos).
  { rewrite <- (inv_readers _ _ Hcons). lia. }
  eapply reader_inside; [exact Hinv | exact Hj |].
  apply weight_one; [apply holds_rlock_le | exact Hpos].
Qed.

Lemma in_task_select t : next_is_select t = true -> next_is_select (in_task t) = true.
Proof. destruct t as [r | X e k | task k]; cbn; auto. Qed.

(** A call of [DirectConnect], wherever it is. *)
Lemma dc_progress c phs j b p pc g :
  invariant c phs -> phs !! j = Some (PhDC b p pc) -> c_threads c !! j = Some g ->
  finished g = true
  \/ (in_select g = true /\ ctx_done (c_hp c) = false)
  \/ exists k, steps c k.
Proof.
  intros Hinv Hj Hg.
  destruct (lookup_phase _ _ _ _ Hinv Hj) as (g' & Hg' & Hat).
  rewrite Hg in Hg'. inversion Hg'; subst g'; clear Hg'.
  destruct pc.
  all: try (right; right; eapply reader_inside; [exact Hinv | exact Hj | reflexivity]).
  all: try (right; right; exists j;
            eapply activeMx_holder_steps; [exact Hinv | exact Hj | reflexivity]).
  - (* pcBegin *)
    right. right. destruct (writer (closeMx (c_hp c))) eqn:Ew.
    + eapply writer_inside; eassumption.
    + exists j. apply (dc_steps _ _ _ _ _ _ Hg Hat). exact Ew.
  - (* pcBody *)
    inversion Hat as [p0 pc0 t h Hdc Hops | p0 pc0 t h Hdc Hops | | | | | | |]; subst;
      inversion Hdc as [| | | | | | | | | | t0 Hq | | | | |]; subst;
      destruct (body_enabled p t0 (c_hp c) (c_w c) Hq) as [Hs | [[_ Ha] | [Hsel Hctx]]].
    + right. right. exists j. apply (steps_intro _ _ _ Hg). apply Call_steps. exact Hs.
    + right. right. eapply activeMx_taken; eassumption.
    + right. left. split; [exact Hsel | exact Hctx].
    + right. right. exists j. apply (steps_intro _ _ _ Hg). apply Task_steps.
      apply in_task_steps; [|exact Hs]. rewrite (at_dc_is_Ret _ _ _ Hdc). reflexivity.
    + right. right. eapply activeMx_taken; eassumption.
    + right. left. split; [|exact Hctx]. unfold in_select. cbn [code].
      apply in_task_select. exact Hsel.
  - (* pcRejectedClosed *)
    inversion Hat as [p0 pc0 t h Hdc Hops | p0 pc0 t h Hdc Hops | | | | | | |]; subst;
      inversion Hdc; subst.
    + left. reflexivity.
    + right. right. exists j. apply (steps_intro _ _ _ Hg). apply Task_steps. cbn.
      pose proof (refCount_held _ _ _ _ Hinv Hj eq_refl) as Hr.
      destruct (refCount (c_hp c)); [contradiction | eauto].
  - (* pcRejectedActive *)
    inversion Hat as [p0 pc0 t h Hdc Hops | p0 pc0 t h Hdc Hops | | | | | | |]; subst;
      inversion Hdc; subst.
    + left. reflexivity.
    + right. right. exists j. apply (steps_intro _ _ _ Hg). apply Task_steps. cbn.
      pose proof (refCount_held _ _ _ _ Hinv Hj eq_refl) as Hr.
      destruct (refCount (c_hp c)); [contradiction | eauto].
  - (* pcReturned *)
    inversion Hat as [p0 pc0 t h Hdc Hops | p0 pc0 t h Hdc Hops | | | | | | |]; subst;
      inversion Hdc; subst.
    + left. reflexivity.
    + right. right. exists j. apply (steps_intro _ _ _ Hg). apply Task_steps. cbn.
      pose proof (refCount_held _ _ _ _ Hinv Hj eq_refl) as Hr.
      destruct (refCount (c_hp c)); [contradiction | eauto].
Qed.

(** After the cancellation, behind a raised [hp.refCount] somebody can go
    on. *)
Lemma counted_progress c phs :
  invariant c phs -> ctx_done (c_hp c) = true -> refCount (c_hp c) <> 0%nat ->
  exists k, steps c k.
Proof.
  intros Hinv Hctx Hr. pose proof Hinv as [_ Hcons].
  destruct (total_pos counted phs) as (j & ph & Hj & Hpos).
  { rewrite <- (inv_refCount _ _ Hcons). lia. }
  destruct (lookup_phase _ _ _ _ Hinv Hj) as (g & Hg & Hat).
  destruct ph as [[|] p pc | | | | | | |]; try (cbn in Hpos; lia).
  - destruct (dc_progress _ _ _ _ _ _ _ Hinv Hj Hg) as [Hfin | [[_ Hc] | Hs]];
      [| congruence | exact Hs].
    inversion Hat; subst. unfold finished in Hfin. cbn [code] in Hfin.
    pose proof (in_task_not_Ret t) as Hn. destruct (in_task t); discriminate.
  - exists j. apply (steps_intro _ _ _ Hg). inversion Hat; subst.
    apply Notify_steps. cbn. eauto.
  - exists j. apply (steps_intro _ _ _ Hg). inversion Hat; subst.
    apply Task_steps. cbn.
    destruct (world _ (IdentifyWait conn) (c_w c)) as [[|] w']; [eauto|].
    unfold select_done. rewrite Hctx. eauto.
  - exists j. apply (steps_intro _ _ _ Hg). inversion Hat; subst.
    apply Task_steps. cbn. destruct (refCount (c_hp c)); [contradiction | eauto].
Qed.

(** X14: the goroutines never block one another for good.  In every
    state that can be reached, each goroutine has returned, or waits in a
    [select] with [hp.ctx] not cancelled (for its timer or for identify),
    or some goroutine can take a step: a goroutine waiting for
    [hp.closeMx], [hp.activeMx] or [hp.refCount] always leaves some
    goroutine free to run, and no unlock or [Done] finds its mutex free
    or its counter at zero. *)
Theorem no_deadlock c i g :
  reachable c ->
  c_threads c !! i = Some g ->
  finished g = true
  \/ (in_select g = true /\ ctx_done (c_hp c) = false)
  \/ exists k, steps c k.
Proof.
  intros Hreach Hg.
  destruct (reachable_invariant c Hreach) as (phs & Hinv).
  destruct (lookup_goroutine _ _ _ _ Hinv Hg) as (ph & Hi & Hat).
  pose proof Hinv as [_ Hcons].
  destruct ph as [b p pc | pc | | | | | |].
  - eapply dc_progress; eassumption.
  - inversion Hat; subst. destruct pc.
    + (* Lock *)
      right. right.
      destruct (readers (closeMx (c_hp c))) as [|n] eqn:Er.
      * destruct (writer (closeMx (c_hp c))) eqn:Ew.
        -- eapply writer_inside; eassumption.
        -- exists i. apply (steps_intro _ _ _ Hg). apply Call_steps. cbn.
           rewrite Er, Ew. eauto.
      * eapply readers_inside; [exact Hinv | lia].
    + right. right. exists i. apply (steps_intro _ _ _ Hg). apply Call_steps. cbn. eauto.
    + right. right. eapply writer_inside; [exact Hinv|].
      pose proof (total_lookup holds_wlock _ _ _ Hi) as Hle.
      rewrite <- (inv_writer _ _ Hcons) in Hle.
      destruct (writer (closeMx (c_hp c))); [reflexivity | cbn in Hle; lia].
    + right. right. exists i. apply (steps_intro _ _ _ Hg). apply Call_steps. cbn. eauto.
    + (* Wait *)
      right. right.
      destruct (refCount (c_hp c)) as [|n] eqn:Er.
      * exists i. apply (steps_intro _ _ _ Hg). apply Call_steps. cbn. rewrite Er. eauto.
      * eapply counted_progress; [exact Hinv | | lia].
        destruct (ctx_done (c_hp c)) eqn:Ec; [reflexivity|].
        pose proof (inv_ctx _ _ Hcons Ec) as Hz.
        pose proof (total_lookup has_cancelled _ _ _ Hi) as Hle. cbn in Hle. lia.
    + left. reflexivity.
  - inversion Hat; subst.
    destruct (Direction_eqb (conn_Direction conn) DirInbound
              && isRelayAddress (conn_RemoteMultiaddr conn)) eqn:Ec.
    + right. right. exists i. apply (steps_intro _ _ _ Hg). apply Notify_steps.
      unfold Connected. rewrite Ec. cbn. eauto.
    + left. unfold finished. cbn [code]. unfold Connected. rewrite Ec. reflexivity.
  - right. right. exists i. apply (steps_intro _ _ _ Hg). inversion Hat; subst.
    apply Notify_steps. cbn. eauto.
  - left. inversion Hat; subst. reflexivity.
  - inversion Hat; subst.
    destruct (world _ (IdentifyWait conn) (c_w c)) as [[|] w'] eqn:Ew.
    + right. right. exists i. apply (steps_intro _ _ _ Hg). apply Task_steps. cbn.
      rewrite Ew. eauto.
    + destruct (ctx_done (c_hp c)) eqn:Ec.
      * right. right. exists i. apply (steps_intro _ _ _ Hg). apply Task_steps. cbn.
        rewrite Ew. unfold select_done. rewrite Ec. eauto.
      * right. left. split; reflexivity.
  - right. right. exists i. apply (steps_intro _ _ _ Hg). inversion Hat; subst.
    apply Task_steps. cbn.
    pose proof (refCount_held _ _ _ _ Hinv Hi eq_refl) as Hr.
    destruct (refCount (c_hp c)); [contradiction | eauto].
  - left. inversion Hat; subst. reflexivity.
Qed.

End NoDeadlock.

Section Races.
Context {maddr : AddrOps} {env : World}.

Lemma holding_snoc h en : holding (h ++ [en]) = lock_effect (holding h) en.
Proof. unfold holding. rewrite foldl_app. reflexivity. Qed.

(** A step is an event, added to the history, or a [go]. *)
Lemma step_event g hp w g1 hp1 w1 new :
  step_goroutine g hp w = Some (g1, hp1, w1, new) ->
  (history g1 = history g /\ hp1 = hp
   /\ Forall (fun g' => history g' = []) new)
  \/ (exists X (e : event X) x,
        history g1 = history g ++ [Did e x]
        /\ handle false e hp w = Some (x, hp1, w1)
        /\ new = []).
Proof.
  unfold step_goroutine. intros Hstep.
  destruct (code g) as [t|t|t];
    (destruct t as [r | X e k | task k]; cbn in Hstep; [discriminate | |];
     [ destruct (handle false e hp w) as [[[x hp2] w2]|] eqn:Eh; [|discriminate];
       inversion Hstep; subst; right; exists X, e, x; auto
     | inversion Hstep; subst; left; cbn; rewrite app_nil_r;
       repeat split; repeat constructor ]).
Qed.

(** What an event does to [hp.activeMx] and to the goroutine's holding
    it. *)
Lemma handle_activeMx {X} (e : event X) hp w x hp1 w1 held :
  handle false e hp w = Some (x, hp1, w1) ->
  (activeMx hp = false /\ activeMx hp1 = true /\ lock_effect held (Did e x) = true)
  \/ (activeMx hp = true /\ activeMx hp1 = false /\ lock_effect held (Did e x) = false)
  \/ (activeMx hp1 = activeMx hp /\ lock_effect held (Did e x) = held).
Proof.
  intros Hh. destruct e; cbn in Hh.
  - destruct (world X e w). inversion Hh; subst. auto.
  - destruct (writer (closeMx hp)); inversion Hh; subst. auto.
  - destruct (readers (closeMx hp)); inversion Hh; subst. auto.
  - destruct (readers (closeMx hp)), (writer (closeMx hp)); inversion Hh; subst. auto.
  - destruct (writer (closeMx hp)); inversion Hh; subst. auto.
  - destruct (activeMx hp) eqn:Ea; inversion Hh; subst. auto.
  - destruct (activeMx hp) eqn:Ea; inversion Hh; subst. auto.
  - inversion Hh; subst. auto.
  - inversion Hh; subst. auto.
  - inversion Hh; subst. auto.
  - inversion Hh; subst. auto.
  - inversion Hh; subst. auto.
  - inversion Hh; subst. auto.
  - inversion Hh; subst. auto.
  - inversion Hh; subst. auto.
  - inversion Hh; subst. auto.
  - inversion Hh; subst. auto.
  - destruct (world _ TimerChan w) as [[start|] w']; [inversion Hh; subst; auto|].
    unfold select_done in Hh. destruct (ctx_done hp); inversion Hh; subst. auto.
  - destruct (world _ (IdentifyWait c) w) as [[|] w']; [inversion Hh; subst; auto|].
    unfold select_done in Hh. destruct (ctx_done hp); inversion Hh; subst. auto.
  - inversion Hh; subst. auto.
  - destruct (refCount hp); inversion Hh; subst. auto.
  - destruct (refCount hp); inversion Hh; subst. auto.
Qed.

(** The moves and the critical section of [hp.activeMx]. *)
Lemma moves_inside hp ph hp1 ph1 phnew :
  moves hp ph hp1 ph1 phnew ->
  Forall (fun ph' => inside ph' = false) phnew
  /\ (activeMx hp = false -> activeMx hp1 = true -> inside ph1 = true)
  /\ (activeMx hp = true -> activeMx hp1 = false -> inside ph1 = false)
  /\ (activeMx hp1 = activeMx hp -> inside ph1 = inside ph).
Proof.
  intros Hmv. destruct Hmv as [b p pc hp1 pc1 Hdc | | | | | | | | | | |];
    [destruct Hdc|..].
  all: try match goal with
           | Hf : dc_final ?pc = true |- _ => destruct pc; try discriminate Hf
           end.
  all: cbn in *.
  all: split; [repeat constructor|].
  all: repeat split; intros; try reflexivity; congruence.
Qed.

Lemma Forall2_from {A B} (P R : A -> B -> Prop) (F : A -> Prop) (G : B -> Prop) l k :
  Forall2 P l k -> Forall F l -> Forall G k ->
  (forall x y, F x -> G y -> R x y) ->
  Forall2 R l k.
Proof.
  intros HP HF HG HR. induction HP as [|x y l k _ _ IH]; [constructor|].
  inversion HF; subst. inversion HG; subst. constructor; auto.
Qed.

Lemma sched_accounted c phs i c1 :
  invariant c phs -> accounted phs (c_threads c) ->
  sched i c = Some c1 ->
  exists phs1, invariant c1 phs1 /\ accounted phs1 (c_threads c1).
Proof.
  intros [Hat Hcons] Hacc Hs. unfold sched in Hs.
  destruct (c_threads c !! i) as [g|] eqn:Hg; [|discriminate].
  destruct (step_goroutine g (c_hp c) (c_w c)) as [[[[g1 hp1] w1] new]|] eqn:Hstep;
    [|discriminate].
  inversion Hs; subst; clear Hs. cbn.
  destruct (Forall2_lookup_r _ _ _ _ _ Hat Hg) as (ph & Hph & Hatg).
  destruct (phase_step _ _ _ _ _ _ _ _ Hatg Hstep) as (ph1 & phnew & Hat1 & Hnew & Hmv).
  exists (<[i := ph1]> phs ++ phnew). split.
  { split; cbn.
    - apply Forall2_app; [|assumption]. by apply Forall2_insert.
    - by eapply moves_consistent. }
  destruct (Forall2_lookup_l _ _ _ _ _ Hacc Hph) as (g' & Hg' & Hhold).
  rewrite Hg in Hg'. inversion Hg'; subst g'; clear Hg'.
  destruct (moves_inside _ _ _ _ _ Hmv) as (Hnone & Hlock & Hunlock & Hsame).
  unfold accounted. apply Forall2_app.
  - apply Forall2_insert; [exact Hacc|].
    destruct (step_event _ _ _ _ _ _ _ Hstep)
      as [(Hh & -> & _) | (X & e & x & Hh & Hhandle & _)].
    + rewrite Hh, Hhold. symmetry. apply Hsame. reflexivity.
    + rewrite Hh, holding_snoc.
      destruct (handle_activeMx e _ _ _ _ _ (holding (history g)) Hhandle)
        as [(H1 & H2 & ->) | [(H1 & H2 & ->) | (H1 & ->)]].
      * symmetry. auto.
      * symmetry. auto.
      * rewrite Hhold. symmetry. auto.
  - destruct (step_event _ _ _ _ _ _ _ Hstep)
      as [(_ & _ & Hfresh) | (X & e & x & _ & _ & ->)].
    + eapply (Forall2_from at_phase); [exact Hnew | exact Hnone | exact Hfresh |].
      intros ph' g' Hin Hh. cbn in Hh. rewrite Hh, Hin. reflexivity.
    + inversion Hnew; subst. constructor.
Qed.

Lemma init_accounted flt w calls :
  accounted (List.map first_phase calls) (c_threads (init flt w calls)).
Proof.
  unfold accounted, init. cbn.
  induction calls as [|r calls IH]; cbn; constructor; [|exact IH].
  destruct r; reflexivity.
Qed.

Lemma exec_accounted s : forall c phs c1,
  invariant c phs -> accounted phs (c_threads c) -> exec s c = Some c1 ->
  exists phs1, invariant c1 phs1 /\ accounted phs1 (c_threads c1).
Proof.
  induction s as [|i s IH]; intros c phs c1 Hinv Hacc Hex; cbn in Hex.
  - inversion Hex; subst. eauto.
  - destruct (sched i c) as [c2|] eqn:Hs; [|discriminate].
    destruct (sched_accounted _ _ _ _ Hinv Hacc Hs) as (phs2 & Hinv2 & Hacc2).
    eauto.
Qed.

Lemma reachable_accounted c :
  reachable c -> exists phs, invariant c phs /\ accounted phs (c_threads c).
Proof.
  intros (flt & w & calls & s & Hex).
  eapply exec_accounted; [apply init_invariant | apply init_accounted | exact Hex].
Qed.

Lemma in_task_active_op t :
  next_is_active_op (in_task t) = true -> next_is_active_op t = true.
Proof. destruct t as [r | X e k | task k]; cbn; auto. Qed.

(** [hp.active] is read and written inside the critical section only. *)
Lemma active_op_inside ph g :
  at_phase ph g -> at_active_op g = true -> inside ph = true.
Proof.
  intros Hat Hop. destruct Hat as
    [p pc t h Hdc Hops | p pc t h Hdc Hops | pc h Hops | conn h Hops
    | conn h Hops | h Hops | conn h Hops | h Hops | h Hops];
    unfold at_active_op in Hop; cbn [code] in Hop; try discriminate Hop.
  - destruct Hdc; try discriminate Hop; try reflexivity.
    match goal with Hq : quiet _ |- _ => destruct Hq as [r | X e k He Hk] end;
      [discriminate Hop|].
    cbn in Hop. destruct e; discriminate.
  - apply in_task_active_op in Hop.
    destruct Hdc; try discriminate Hop; try reflexivity.
    match goal with Hq : quiet _ |- _ => destruct Hq as [r | X e k He Hk] end;
      [discriminate Hop|].
    cbn in Hop. destruct e; discriminate.
  - destruct pc; discriminate Hop.
  - unfold Connected in Hop.
    destruct (Direction_eqb (conn_Direction conn) DirInbound
              && isRelayAddress (conn_RemoteMultiaddr conn)); discriminate Hop.
Qed.

(** X15: [hp.active] is never touched without [hp.activeMx].  In every state
    that can be reached, at most one goroutine is between a [Lock] and an
    [Unlock] of [hp.activeMx], [hp.activeMx] is held exactly when there is
    one, and a goroutine about to look up, insert or delete in [hp.active]
    is that one. *)
Theorem active_under_lock c :
  reachable c ->
  (forall i j gi gj,
      i <> j -> c_threads c !! i = Some gi -> c_threads c !! j = Some gj ->
      holding (history gi) = true -> holding (history gj) = false)
  /\ (activeMx (c_hp c) = true
      <-> exists i g, c_threads c !! i = Some g /\ holding (history g) = true)
  /\ (forall i g,
        c_threads c !! i = Some g -> at_active_op g = true ->
        holding (history g) = true).
Proof.
  intros Hreach.
  destruct (reachable_accounted c Hreach) as (phs & Hinv & Hacc).
  pose proof Hinv as [Hat Hcons].
  assert (forall i g, c_threads c !! i = Some g ->
            exists ph, phs !! i = Some ph /\ at_phase ph g
                       /\ holding (history g) = inside ph) as Hlook.
  { intros i g Hg.
    destruct (Forall2_lookup_r _ _ _ _ _ Hat Hg) as (ph & Hph & Hatg).
    destruct (Forall2_lookup_l _ _ _ _ _ Hacc Hph) as (g' & Hg' & Hh).
    rewrite Hg in Hg'. inversion Hg'; subst g'. eauto. }
  split; [|split].
  - intros i j gi gj Hne Hi Hj Hhi.
    destruct (Hlook _ _ Hi) as (phi & Hpi & _ & Ei).
    destruct (Hlook _ _ Hj) as (phj & Hpj & _ & Ej).
    rewrite Ej. destruct (inside phj) eqn:Ein; [|reflexivity].
    exfalso. rewrite Ei in Hhi.
    apply (activeMx_exclusive _ _ _ _ _ _ (inv_activeMx _ _ Hcons) Hpi Hpj Hne).
    + apply Nat.eqb_eq. exact Hhi.
    + apply Nat.eqb_eq. exact Ein.
  - split.
    + intros Ha.
      destruct (total_pos holds_activeMx phs) as (j & ph & Hj & Hpos).
      { rewrite <- (inv_activeMx _ _ Hcons), Ha. cbn. lia. }
      destruct (lookup_phase _ _ _ _ Hinv Hj) as (g & Hg & _).
      destruct (Hlook _ _ Hg) as (ph' & Hph' & _ & Eh).
      rewrite Hj in Hph'. inversion Hph'; subst ph'.
      exists j, g. split; [exact Hg|]. rewrite Eh. apply Nat.eqb_eq.
      apply weight_one; [apply holds_activeMx_le | exact Hpos].
    + intros (i & g & Hg & Hh).
      destruct (Hlook _ _ Hg) as (ph & Hph & _ & Eh).
      rewrite Eh in Hh. apply Nat.eqb_eq in Hh.
      exact (activeMx_held _ _ _ _ Hinv Hph Hh).
  - intros i g Hg Hop.
    destruct (Hlook _ _ Hg) as (ph & Hph & Hatg & Eh).
    rewrite Eh. exact (active_op_inside _ _ Hatg Hop).
Qed.

End Races.

(** ** The options of AutoNAT v2 *)

Section Options.
Import autonatv2.
Context {dataRequestPolicyFunc MetricsTracer Clock : Type}.
Implicit Types s : autoNATSettings dataRequestPolicyFunc MetricsTracer Clock.
Implicit Types m : made dataRequestPolicyFunc MetricsTracer.

(** X16: no option of the file returns an error; of two options made by the
    same function the later one decides; two options made by different
    functions can be applied in either order. *)
Theorem options_compose m1 m2 s :
  snd (option_of m1 s) = None
  /\ (same_function m1 m2 = true ->
      fst (option_of m2 (fst (option_of m1 s))) = fst (option_of m2 s))
  /\ (same_function m1 m2 = false ->
      fst (option_of m2 (fst (option_of m1 s)))
      = fst (option_of m1 (fst (option_of m2 s)))).
Proof.
  split; [destruct m1; reflexivity|].
  split; intros Hk; destruct m1, m2; try discriminate Hk; reflexivity.
Qed.

End Options.

(** ** The further properties on the scripted collaborators *)

Import Scenario MoreScenarios.

Lemma exec_app {maddr : AddrOps} {env : World} s1 : forall s2 c,
  exec (s1 ++ s2) c = match exec s1 c with Some c1 => exec s2 c1 | None => None end.
Proof.
  induction s1 as [|i s1 IH]; intros s2 c; cbn; [reflexivity|].
  destruct (sched i c); [apply IH | reflexivity].
Qed.

Lemma direct_connection_short_circuit_witness :
  exists hp1 w1 tr,
    run (env := scripted already_connected) (DirectConnect "QmA") hp0 w0
      = Some (None, hp1, w1, tr)
    /\ List.filter is_ext tr = [Did (Ext (GetDirectConnection "QmA")) (Some straight)]
    /\ active_ops tr = [Lookup "QmA" false; Store "QmA"; Delete "QmA"].
Proof.
  apply (direct_connection_short_circuit (env := scripted already_connected)
           "QmA" hp0 w0 straight); try reflexivity.
  apply not_elem_of_empty.
Defined.

Lemma direct_dial_once_witness :
  (exists res hp1 w1 tr,
      run (env := scripted public_peer) (DirectConnect "QmA") hp0 w0
        = Some (res, hp1, w1, tr)
      /\ dials tr = [("QmA", 0, None)]
      /\ res = None /\ iterations tr = 0%nat)
  /\ (exists res hp1 w1 tr,
        run (env := scripted public_peer_down) (DirectConnect "QmA") hp0 w0
          = Some (res, hp1, w1, tr)
        /\ dials tr = [("QmA", 0, Some (foreign "dial backoff"))]
        /\ (1 <= iterations tr)%nat).
Proof.
  split.
  - started (run (env := scripted public_peer) (DirectConnect "QmA") hp0 w0) x E.
    destruct x as [[[res hp1] w1] tr]. exists res, hp1, w1, tr.
    split; [reflexivity|].
    destruct (direct_dial_once (env := scripted public_peer) _ _ _ _ _ _ _ E)
      as (_ & _ & _ & Hok & _).
    observe E (fun x : option error * holePuncher * wstate * list entry =>
                 dials (snd x))
      [("QmA", 0, @None error)] Hd.
    cbn [snd] in Hd. split; [exact Hd|].
    destruct (Hok _ Hd) as (Hres & Hit & _). split; assumption.
  - started (run (env := scripted public_peer_down) (DirectConnect "QmA") hp0 w0) x E.
    destruct x as [[[res hp1] w1] tr]. exists res, hp1, w1, tr.
    split; [reflexivity|].
    destruct (direct_dial_once (env := scripted public_peer_down) _ _ _ _ _ _ _ E)
      as (_ & _ & _ & _ & Hfail).
    observe E (fun x : option error * holePuncher * wstate * list entry =>
                 dials (snd x))
      [("QmA", 0, Some (foreign "dial backoff"))] Hd.
    cbn [snd] in Hd. split; [exact Hd|].
    exact (proj1 (Hfail _ _ Hd)).
Defined.

Lemma streams_used_in_turn_witness :
  exists res hp1 w1 tr,
    run (env := scripted timeouts) (DirectConnect "QmA") hp0 w0
      = Some (res, hp1, w1, tr)
    /\ length (streams tr) = 6%nat
    /\ closed_in_turn None (streams tr) = true
    /\ reserved tr = released tr.
Proof.
  started (run (env := scripted timeouts) (DirectConnect "QmA") hp0 w0) x E.
  destruct x as [[[res hp1] w1] tr]. exists res, hp1, w1, tr.
  split; [reflexivity|].
  observe E (fun x : option error * holePuncher * wstate * list entry =>
               length (streams (snd x)))
    6%nat Hn.
  cbn [snd] in Hn. split; [exact Hn|].
  exact (streams_used_in_turn (env := scripted timeouts) _ _ _ _ _ _ _ E).
Defined.

Lemma punch_success_ends_call_witness :
  exists res hp1 w1 tr,
    run (env := scripted second_punch_works) (DirectConnect "QmA") hp0 w0
      = Some (res, hp1, w1, tr)
    /\ punch_succeeded (milestones tr)
    /\ res = None
    /\ iterations tr = 2%nat /\ failed_punches tr = 1%nat.
Proof.
  destruct (punch_success_ends_call (env := scripted second_punch_works)
              "QmA" hp0 w0 eq_refl eq_refl)
    as (res & hp1 & w1 & tr & Hrun & Hend).
  exists res, hp1, w1, tr. split; [exact Hrun|].
  observe Hrun (fun x : option error * holePuncher * wstate * list entry =>
                  (punched (snd x), failed_punches (snd x)))
    ([(false, Some (foreign "context deadline exceeded")); (false, @None error)],
     1%nat) Hobs.
  cbn [snd] in Hobs. injection Hobs as Hp Hf.
  assert (punch_succeeded (milestones tr)) as Hok.
  { assert ((false, @None error) ∈ punched tr) as Hin
      by (rewrite Hp; apply list_elem_of_In; right; left; reflexivity).
    unfold punched in Hin. apply list_elem_of_omap in Hin as (m & Hm & Hpm).
    destruct m; try discriminate Hpm. inversion Hpm; subst.
    eexists _, _. apply list_elem_of_In. exact Hm. }
  split; [exact Hok|].
  destruct (Hend Hok) as (Hres & Hit & _).
  split; [exact Hres|]. rewrite Hit, Hf. split; reflexivity.
Defined.

Lemma nil_means_connected_witness :
  exists hp1 w1 tr,
    run (env := scripted public_peer) (DirectConnect "QmA") hp0 w0
      = Some (None, hp1, w1, tr)
    /\ ((exists c, connections tr = [Some c])
        \/ (exists d, dials tr = [(d, None)])
        \/ punch_succeeded (milestones tr)).
Proof.
  started (run (env := scripted public_peer) (DirectConnect "QmA") hp0 w0) x E.
  destruct x as [[[res hp1] w1] tr].
  observe E (fun x : option error * holePuncher * wstate * list entry =>
               fst (fst (fst x)))
    (@None error) Hres.
  cbn [fst] in Hres. subst res. exists hp1, w1, tr.
  split; [reflexivity|].
  exact (nil_means_connected (env := scripted public_peer) _ _ _ _ _ _ E).
Defined.

Lemma attempts_bounded_witness :
  exists res hp1 w1 tr,
    run (env := scripted timeouts) (DirectConnect "QmA") hp0 w0
      = Some (res, hp1, w1, tr)
    /\ (iterations tr <= Z.to_nat maxRetries)%nat
    /\ (length (punched tr) <= iterations tr)%nat
    /\ (length (waits tr) <= iterations tr)%nat.
Proof.
  started (run (env := scripted timeouts) (DirectConnect "QmA") hp0 w0) x E.
  destruct x as [[[res hp1] w1] tr]. exists res, hp1, w1, tr.
  split; [reflexivity|].
  exact (attempts_bounded (env := scripted timeouts) _ _ _ _ _ _ _ E).
Defined.

Lemma finished_traced_once_witness :
  exists res hp1 w1 tr,
    run (env := scripted timeouts) (DirectConnect "QmA") hp0 w0
      = Some (res, hp1, w1, tr)
    /\ failed_punches tr = Z.to_nat maxRetries
    /\ finishes (milestones tr) = 1%nat.
Proof.
  started (run (env := scripted timeouts) (DirectConnect "QmA") hp0 w0) x E.
  destruct x as [[[res hp1] w1] tr]. exists res, hp1, w1, tr.
  split; [reflexivity|].
  observe E (fun x : option error * holePuncher * wstate * list entry =>
               failed_punches (snd x))
    3%nat Hf.
  cbn [snd] in Hf. split; [exact Hf|].
  destruct (finished_traced_once (env := scripted timeouts) _ _ _ _ _ _ _ E) as (_ & Hiff).
  apply Hiff. right. exact Hf.
Defined.

Lemma DirectConnect_restores_witness :
  exists res hp1 w1 tr,
    run (env := scripted timeouts) (DirectConnect "QmA") hp0 w0
      = Some (res, hp1, w1, tr)
    /\ (hp1 = hp0 \/ hp1 = set_ctx_done true hp0).
Proof.
  started (run (env := scripted timeouts) (DirectConnect "QmA") hp0 w0) x E.
  destruct x as [[[res hp1] w1] tr]. exists res, hp1, w1, tr.
  split; [reflexivity|].
  exact (DirectConnect_restores (env := scripted timeouts) _ _ _ _ _ _ _ E).
Defined.

Lemma Close_again_witness :
  exists hp1 tr1 tr2,
    run (env := scripted timeouts) Close hp0 w0 = Some (None, hp1, w0, tr1)
    /\ run (env := scripted timeouts) Close hp1 w0 = Some (None, hp1, w0, tr2)
    /\ closed hp1 = true /\ ctx_done hp1 = true.
Proof.
  exact (Close_again (env := scripted timeouts) hp0 w0 eq_refl eq_refl eq_refl).
Defined.

Lemma quiescent_when_finished_witness :
  exists c,
    exec (env := scripted stream_refused) call_to_the_end
      (init (env := scripted stream_refused) None w0 call_and_close) = Some c
    /\ Forall (fun g => finished g = true) (c_threads c)
    /\ active (c_hp c) = ∅
    /\ activeMx (c_hp c) = false
    /\ closeMx (c_hp c) = mkRWMutex 0 false
    /\ refCount (c_hp c) = 0%nat.
Proof.
  started (exec (env := scripted stream_refused) call_to_the_end
             (init (env := scripted stream_refused) None w0 call_and_close)) c E.
  exists c. split; [reflexivity|].
  observe E (fun c : config (env := scripted stream_refused) =>
               forallb finished (c_threads c))
    true Hall.
  assert (Forall (fun g => finished g = true) (c_threads c)) as Hfin.
  { apply List.Forall_forall. apply List.forallb_forall. exact Hall. }
  split; [exact Hfin|].
  apply (quiescent_when_finished (env := scripted stream_refused) c); [|exact Hfin].
  exists None, w0, call_and_close, call_to_the_end. exact E.
Defined.

Lemma refCount_counts_goroutines_witness :
  exists c,
    exec (env := scripted timeouts) spawned
      (init (env := scripted timeouts) None w0 notified) = Some c
    /\ refCount (c_hp c) = 1%nat
    /\ sum_list (List.map outstanding (c_threads c)) = 1%nat.
Proof.
  started (exec (env := scripted timeouts) spawned
             (init (env := scripted timeouts) None w0 notified)) c E.
  exists c. split; [reflexivity|].
  observe E (fun c : snapshot => refCount (c_hp c)) 1%nat Hr.
  split; [exact Hr|]. rewrite <- Hr. symmetry.
  apply (refCount_counts_goroutines (env := scripted timeouts) c).
  exists None, w0, notified, spawned. exact E.
Defined.

Lemma closed_for_good_witness :
  exists c c1,
    exec (env := scripted timeouts) call_then_close
      (init (env := scripted timeouts) None w0 call_and_close) = Some c
    /\ exec (env := scripted timeouts) [0%nat] c = Some c1
    /\ closed (c_hp c) = true
    /\ closed (c_hp c1) = true.
Proof.
  started (exec (env := scripted timeouts) (call_then_close ++ [0%nat])
             (init (env := scripted timeouts) None w0 call_and_close)) c1 E1.
  rewrite exec_app in E1.
  started (exec (env := scripted timeouts) call_then_close
             (init (env := scripted timeouts) None w0 call_and_close)) c E.
  exists c, c1. split; [reflexivity|]. split; [exact E1|].
  observe E (fun c : snapshot => closed (c_hp c)) true Hc.
  split; [exact Hc|].
  apply (closed_for_good (env := scripted timeouts) c [0%nat] c1); [|exact E1|exact Hc].
  exists None, w0, call_and_close, call_then_close. exact E.
Defined.

Lemma no_deadlock_witness :
  exists c g,
    exec (env := scripted timeouts) close_waits
      (init (env := scripted timeouts) None w0 notified_and_closed) = Some c
    /\ c_threads c !! 1%nat = Some g
    /\ finished g = false /\ in_select g = false
    /\ exists k, steps c k.
Proof.
  started (exec (env := scripted timeouts) close_waits
             (init (env := scripted timeouts) None w0 notified_and_closed)) c E.
  observe E (fun c : snapshot =>
               List.map (fun g => (finished g, in_select g)) (c_threads c))
    [(true, false); (false, false); (false, false)] Hobs.
  assert (List.map (fun g => (finished g, in_select g)) (c_threads c) !! 1%nat
          = Some (false, false)) as Hg1 by (rewrite Hobs; reflexivity).
  rewrite list_lookup_fmap in Hg1.
  destruct (c_threads c !! 1%nat) as [g|] eqn:Hg; [|discriminate Hg1].
  cbn in Hg1. injection Hg1 as Hfin Hsel.
  exists c, g. split; [reflexivity|]. split; [exact Hg|].
  split; [exact Hfin|]. split; [exact Hsel|].
  destruct (no_deadlock (env := scripted timeouts) c 1%nat g) as [Hf | [[Hs _] | Hk]].
  - exists None, w0, notified_and_closed, close_waits. exact E.
  - exact Hg.
  - congruence.
  - congruence.
  - exact Hk.
Defined.

Lemma active_under_lock_witness :
  exists c g,
    exec (env := scripted timeouts) up_to_the_lookup
      (init (env := scripted timeouts) None w0 twice) = Some c
    /\ c_threads c !! 0%nat = Some g
    /\ at_active_op g = true
    /\ holding (history g) = true.
Proof.
  started (exec (env := scripted timeouts) up_to_the_lookup
             (init (env := scripted timeouts) None w0 twice)) c E.
  observe E (fun c : snapshot => List.map at_active_op (c_threads c))
    [true; false] Hobs.
  assert (List.map at_active_op (c_threads c) !! 0%nat = Some true) as Hg0
    by (rewrite Hobs; reflexivity).
  rewrite list_lookup_fmap in Hg0.
  destruct (c_threads c !! 0%nat) as [g|] eqn:Hg; [|discriminate Hg0].
  cbn in Hg0. injection Hg0 as Hop.
  exists c, g. split; [reflexivity|]. split; [exact Hg|]. split; [exact Hop|].
  destruct (active_under_lock (env := scripted timeouts) c) as (_ & _ & Hunder).
  - exists None, w0, twice, up_to_the_lookup. exact E.
  - exact (Hunder 0%nat g Hg Hop).
Defined.
